(** * AAS_from_STP: the STEP batch parser, the assembly-tree builder, the
    annotation supplementer and the identifier allocator

    A shallow embedding of [src/batch_step_parser.py] and
    [src/batch_aas_from_stp.py].

    - Python [str] values are lists of Unicode code points.
    - Python objects of class [ComponentNode] live in a heap (a list indexed
      by allocation order); [children], [parent], [assembly_tree] and the
      values of [all_components] and [component_name_index] hold heap
      locations, so that two references to one object stay one object.
    - Python [dict]s that are iterated are association lists in insertion
      order; Python [set]s are [gset]s.
    - What Python's own libraries compute (the Unicode character database,
      [re], [os.path], [glob], file reading, the OCC geometry kernel) is the
      class [Runtime]: every definition and theorem is parametric in it.
      The regular-expression extraction itself is not modelled: a document is
      the tuples that the precompiled patterns of [BatchStepParser.__init__]
      find in its text. *)

From Stdlib Require Import String Ascii NArith List DecimalNat Lia.
From stdpp Require Import gmap list strings.

Set Default Proof Using "Type".
#[global] Set Warnings "-level-tolerance,-clear-no-such-hyp".

(* ====================================================================== *)
(** * Python strings *)
(* ====================================================================== *)

Definition pystr := list N.

Fixpoint str (s : string) : pystr :=
  match s with
  | EmptyString => []
  | String a r => N_of_ascii a :: str r
  end.
Arguments str s%_string : simpl never.

(** [p] is a prefix of [s]. *)
Fixpoint is_prefix (p s : pystr) : bool :=
  match p, s with
  | [], _ => true
  | a :: p', b :: s' => bool_decide (a = b) && is_prefix p' s'
  | _ :: _, [] => false
  end.

(** [needle in hay]. *)
Fixpoint contains (needle hay : pystr) : bool :=
  is_prefix needle hay ||
  match hay with
  | [] => false
  | _ :: hay' => contains needle hay'
  end.

(** [s.replace(old, new)] for a non-empty [old]: the non-overlapping
    occurrences of [old], leftmost first. [skip] counts the characters of a
    matched occurrence that are still to be passed over. *)
Fixpoint replace_from (skip : nat) (old new s : pystr) : pystr :=
  match s with
  | [] => []
  | c :: s' =>
      match skip with
      | S k => replace_from k old new s'
      | O =>
          if is_prefix old s
          then new ++ replace_from (length old - 1) old new s'
          else c :: replace_from 0 old new s'
      end
  end.

Definition str_replace (old new s : pystr) : pystr := replace_from 0 old new s.

(** The code points [str.strip()] removes ([str.isspace]). *)
Definition isspace (c : N) : bool :=
  ((9 <=? c) && (c <=? 13) || (28 <=? c) && (c <=? 32) ||
   (c =? 133) || (c =? 160) || (c =? 5760) ||
   (8192 <=? c) && (c <=? 8202) || (c =? 8232) || (c =? 8233) ||
   (c =? 8239) || (c =? 8287) || (c =? 12288))%N.

Fixpoint lstrip (s : pystr) : pystr :=
  match s with
  | c :: s' => if isspace c then lstrip s' else s
  | [] => []
  end.

Definition strip (s : pystr) : pystr := reverse (lstrip (reverse (lstrip s))).

Definition ascii_upper_letter (c : N) : bool := ((65 <=? c) && (c <=? 90))%N.
Definition ascii_lower_letter (c : N) : bool := ((97 <=? c) && (c <=? 122))%N.
Definition ascii_letter (c : N) : bool := ascii_upper_letter c || ascii_lower_letter c.
Definition ascii_digit (c : N) : bool := ((48 <=? c) && (c <=? 57))%N.

(** The class [[A-Za-z0-9_]] of [check_id_short]. *)
Definition id_char (c : N) : bool := ascii_letter c || ascii_digit c || bool_decide (c = 95%N).

(** Decimal digits of a number, as [f"{n}"] prints them. *)
Fixpoint uint_digits (u : Decimal.uint) : pystr :=
  match u with
  | Decimal.Nil => []
  | Decimal.D0 u => 48%N :: uint_digits u
  | Decimal.D1 u => 49%N :: uint_digits u
  | Decimal.D2 u => 50%N :: uint_digits u
  | Decimal.D3 u => 51%N :: uint_digits u
  | Decimal.D4 u => 52%N :: uint_digits u
  | Decimal.D5 u => 53%N :: uint_digits u
  | Decimal.D6 u => 54%N :: uint_digits u
  | Decimal.D7 u => 55%N :: uint_digits u
  | Decimal.D8 u => 56%N :: uint_digits u
  | Decimal.D9 u => 57%N :: uint_digits u
  end.

Definition decimal (n : nat) : pystr := uint_digits (Nat.to_uint n).

(** [f"{n:05d}"]: at least five digits, padded with zeros on the left. *)
Definition decimal_05 (n : nat) : pystr :=
  replicate (5 - length (decimal n)) 48%N ++ decimal n.

(* ====================================================================== *)
(** * Raw records of one document *)
(* ====================================================================== *)

(** What [findall] of each precompiled pattern returns on the text of one
    document, in document order, and the tests the parser makes on the text
    itself. In a REPRESENTATION tuple the item string is kept as the
    list of the [#(\d+)] references found in it. *)
Record Document := mkDocument {
  doc_nonempty : bool;            (* bool(content) *)
  doc_has_annotation_token : bool;
    (* 'DESCRIPTIVE_REPRESENTATION_ITEM' in content
       or 'PROPERTY_DEFINITION_REPRESENTATION' in content *)
  doc_products : list (pystr * pystr * pystr);
  doc_annotations : list (pystr * pystr * pystr);
  doc_representations : list (pystr * pystr * list pystr * pystr);
  doc_prop_def_reprs : list (pystr * pystr * pystr);
  doc_prop_defs : list (pystr * pystr * pystr * pystr);
  doc_prod_defs : list (pystr * pystr * pystr * pystr * pystr);
  doc_formations : list (pystr * pystr * pystr * pystr);
  doc_usages : list (pystr * pystr * pystr * pystr * pystr);
  (* the two entries of extract_file_info(content)['File_name'] that are
     read after parsing *)
  doc_author : pystr;
  doc_organization : pystr;
}.

(** The text [load_file_content] returns for an unreadable file: the empty
    string. *)
Definition empty_document : Document :=
  mkDocument false false [] [] [] [] [] [] [] [] [] [].

(** The measurements of the geometry kernel are floats; the serializer only
    tests two of them for being positive. *)
Record GeometryInfo := mkGeometryInfo {
  volume_positive : bool;
  surface_area_positive : bool;
}.

(* ====================================================================== *)
(** * What Python's libraries compute *)
(* ====================================================================== *)

Class Runtime := {
  (** [c.isalpha()] for a code point outside ASCII *)
  unicode_isalpha : N → bool;
  (** [s.upper()] and [s.lower()] *)
  str_upper : pystr → pystr;
  str_lower : pystr → pystr;
  (** [re.sub(r'-\d+$', '', s)] *)
  re_sub_dash_digits : pystr → pystr;
  (** [re.search] of one of the three [manufacturer_patterns] *)
  manufacturer_pattern_search : pystr → bool;
  (** [os.path] *)
  path_join : pystr → pystr → pystr;
  path_abspath : pystr → pystr;
  path_exists : pystr → bool;
  path_basename : pystr → pystr;
  path_splitext : pystr → pystr * pystr;
  (** the iteration order of the [set] of [glob] results in [find_step_files] *)
  glob_step_files : pystr → list pystr;
  (** [load_file_content], as the tuples the patterns find in the text *)
  load_file_content : pystr → Document;
  (** the OCC kernel in [extract_geometry_info_for_component]:
      [None] when the shape is null or an exception is caught *)
  measure_geometry : pystr → option GeometryInfo;
}.

(** [c.isalpha()]. *)
Definition isalpha `{Runtime} (c : N) : bool :=
  if (c <? 128)%N then ascii_letter c else unicode_isalpha c.

(* ====================================================================== *)
(** * Exceptions *)
(* ====================================================================== *)

Inductive Exn := IndexError | RecursionError.

(** The outcome of a call: a value, a raised exception, or a loop that does
    not end within the bound the model gives it. *)
Inductive Result (A : Type) :=
  | Ok (a : A)
  | Raise (e : Exn)
  | Loops.
Arguments Ok {A} a.
Arguments Raise {A} e.
Arguments Loops {A}.

Definition rbind {A B} (r : Result A) (k : A → Result B) : Result B :=
  match r with
  | Ok a => k a
  | Raise e => Raise e
  | Loops => Loops
  end.

Definition is_ok {A} (r : Result A) : bool :=
  match r with Ok _ => true | _ => false end.

(* ====================================================================== *)
(** * batch_aas_from_stp.py: the identifier allocator *)
(* ====================================================================== *)

Module Allocator.

(** [dict_replace], in insertion order. *)
Definition dict_replace : list (pystr * pystr) :=
  [ ([228%N], str "ae"); ([196%N], str "Ae"); ([246%N], str "oe");
    ([214%N], str "Oe"); ([252%N], str "ue"); ([220%N], str "Ue");
    ([176%N; 67%N], str "degreeCelsius");
    (str " ", str "_"); (str "-", str "_"); (str ".", []); (str "/", []);
    (str "#", []); (str "%", str "percentage"); (str ",", []);
    (str "(", []); (str ")", []); (str "[", []); (str "]", []) ].

Definition replace_str (str_input : pystr) : pystr :=
  foldl (λ result '(word, replacement), str_replace word replacement result)
        str_input dict_replace.

(** The characters [replace_str] deletes: [. / # , ( ) [ ]]. *)
Definition deleted_char (c : N) : bool :=
  bool_decide (c ∈ [46; 47; 35; 44; 40; 41; 91; 93]%N).

(** [re.sub(r"[^A-Za-z0-9_]", "_", s)] *)
Definition re_sub_non_id (s : pystr) : pystr :=
  (λ c, if id_char c then c else 95%N) <$> s.

(** [id_short[0]] raises [IndexError] on the empty string. *)
Definition check_id_short `{Runtime} (id_short : pystr) : Result pystr :=
  match id_short with
  | [] => Raise IndexError
  | c :: _ =>
      let id_short :=
        if isalpha c then replace_str id_short else str "X" ++ id_short in
      Ok (re_sub_non_id id_short)
  end.

Definition common_props : list pystr :=
  [ str "Type"; str "Level"; str "Product_ID"; str "Source_File";
    str "Volume"; str "Surface_Area" ].

(** [f"{clean_id}_{counter}"] *)
Definition numbered (clean_id : pystr) (counter : nat) : pystr :=
  clean_id ++ str "_" ++ decimal counter.

(** [while unique_id in self.used_ids: ...], at most [fuel] iterations. *)
Fixpoint while_used (fuel : nat) (used_ids : gset pystr)
    (clean_id unique_id : pystr) (counter : nat) : option pystr :=
  if bool_decide (unique_id ∈ used_ids) then
    match fuel with
    | O => None
    | S fuel' =>
        while_used fuel' used_ids clean_id (numbered clean_id counter) (S counter)
    end
  else Some unique_id.

(** Truth value of an [Optional[str]]. *)
Definition truthy (o : option pystr) : bool :=
  match o with
  | Some (_ :: _) => true
  | _ => false
  end.

(** Lines 46 to 48 of [get_unique_id]: [clean_id], with the fallback for an
    empty one. *)
Definition sanitized `{Runtime} (base_id : pystr) : Result pystr :=
  rbind (check_id_short base_id) (λ clean_id,
  Ok (match clean_id with [] => str "Component" | _ => clean_id end)).

(** The block [if unique_id in self.used_ids and context_suffix: ...]: the
    value of [unique_id] after it. *)
Definition retry_with_context `{Runtime} (clean_id : pystr)
    (context_suffix : option pystr) (used_ids : gset pystr) : Result pystr :=
  if bool_decide (clean_id ∈ used_ids) && truthy context_suffix then
    rbind (check_id_short (default [] context_suffix)) (λ suffix_clean,
    let candidate := clean_id ++ str "_" ++ suffix_clean in
    Ok (if bool_decide (candidate ∉ used_ids) then candidate else clean_id))
  else Ok clean_id.

(** [get_unique_id(base_id, context_suffix=...)] on the ledger [used_ids];
    the result carries the ledger after the call. The argument
    [local_context] is never read and is left out. *)
Definition get_unique_id `{Runtime} (base_id : pystr) (context_suffix : option pystr)
    (used_ids : gset pystr) : Result (pystr * gset pystr) :=
  rbind (sanitized base_id) (λ clean_id,
  if bool_decide (clean_id ∈ common_props) then Ok (clean_id, used_ids)
  else
    rbind (retry_with_context clean_id context_suffix used_ids) (λ unique_id,
    match while_used (S (size used_ids)) used_ids clean_id unique_id 1 with
    | Some unique_id => Ok (unique_id, {[unique_id]} ∪ used_ids)
    | None => Loops
    end)).

(** The candidate of the one retry: the label with the sanitized context
    token appended, when there is a context token. *)
Definition retry_candidate `{Runtime} (clean_id : pystr)
    (context_suffix : option pystr) : option pystr :=
  match context_suffix with
  | Some (c :: r) =>
      match check_id_short (c :: r) with
      | Ok suffix_clean => Some (clean_id ++ str "_" ++ suffix_clean)
      | _ => None
      end
  | _ => None
  end.

(** A request is reserved when its sanitized label is one of [common_props]. *)
Definition reserved_request `{Runtime} (base_id : pystr) : bool :=
  match sanitized base_id with
  | Ok clean_id => bool_decide (clean_id ∈ common_props)
  | _ => false
  end.

(** A run of the allocator: the calls of one run, in order, on one ledger. *)
Fixpoint allocate_all `{Runtime} (calls : list (pystr * option pystr))
    (used_ids : gset pystr) : Result (list pystr * gset pystr) :=
  match calls with
  | [] => Ok ([], used_ids)
  | (base_id, context_suffix) :: calls' =>
      rbind (get_unique_id base_id context_suffix used_ids) (λ '(id, used_ids'),
      rbind (allocate_all calls' used_ids') (λ '(ids, used_ids''),
      Ok (id :: ids, used_ids'')))
  end.

End Allocator.

(* ====================================================================== *)
(** * Python dicts in insertion order *)
(* ====================================================================== *)

(** [d[k] = v]: an existing key keeps its place. *)
Fixpoint dict_set {V} (k : pystr) (v : V) (d : list (pystr * V)) : list (pystr * V) :=
  match d with
  | [] => [(k, v)]
  | (k', v') :: d' =>
      if decide (k' = k) then (k, v) :: d' else (k', v') :: dict_set k v d'
  end.

(** [d.get(k)] *)
Fixpoint dict_get {V} (k : pystr) (d : list (pystr * V)) : option V :=
  match d with
  | [] => None
  | (k', v') :: d' => if decide (k' = k) then Some v' else dict_get k d'
  end.

(** [k in d] *)
Definition dict_mem {V} (k : pystr) (d : list (pystr * V)) : bool :=
  match dict_get k d with Some _ => true | None => false end.

(** [d[k]] on a [defaultdict(list)]: a missing key is entered with [[]]. *)
Definition dict_touch {V} (k : pystr) (d : list (pystr * list V)) : list (pystr * list V) :=
  if dict_mem k d then d else d ++ [(k, [])].

(** [d[k].append(v)] on a [defaultdict(list)] *)
Definition dict_append {V} (k : pystr) (v : V) (d : list (pystr * list V)) : list (pystr * list V) :=
  dict_set k (default [] (dict_get k d) ++ [v]) d.

(* ====================================================================== *)
(** * batch_step_parser.py *)
(* ====================================================================== *)

Module Parser.

(** An annotation [{'name': ..., 'description': ...}]. *)
Record Annotation := mkAnnotation {
  ann_name : pystr;
  ann_description : pystr;
}.

#[global] Instance Annotation_eq_dec : EqDecision Annotation.
Proof. solve_decision. Defined.

(** A product [{'name': ..., 'description': ..., 'id': ...}]. *)
Record ProductInfo := mkProductInfo {
  pi_name : pystr;
  pi_description : pystr;
  pi_id : pystr;
}.

(** The two entries of [file_info] that are read after parsing. *)
Record FileInfo := mkFileInfo {
  fi_author : pystr;
  fi_organization : pystr;
}.

Inductive NodeType := ASSEMBLY | PART | STANDARD_PART.

#[global] Instance NodeType_eq_dec : EqDecision NodeType.
Proof. solve_decision. Defined.

(** A heap location: the identity of one [ComponentNode] object. *)
Abbreviation loc := nat (only parsing).

Record ComponentNode := mkComponentNode {
  name : pystr;
  product_id : pystr;
  source_file : pystr;
  node_type : NodeType;
  children : list loc;
  parent : option loc;
  annotations : list Annotation;
  geometry_info : option GeometryInfo;
  file_info : FileInfo;
  original_product_id : pystr;
  annotation_files : list pystr;
}.

(** [ComponentNode.__init__] *)
Definition new_ComponentNode (name product_id source_file : pystr)
    (node_type : NodeType) : ComponentNode :=
  {| name := name; product_id := product_id; source_file := source_file;
     node_type := node_type; children := []; parent := None;
     annotations := []; geometry_info := None;
     file_info := mkFileInfo [] [];
     original_product_id := product_id; annotation_files := [] |}.

Definition set_parent (p : option loc) (n : ComponentNode) : ComponentNode :=
  {| name := name n; product_id := product_id n; source_file := source_file n;
     node_type := node_type n; children := children n; parent := p;
     annotations := annotations n; geometry_info := geometry_info n;
     file_info := file_info n;
     original_product_id := original_product_id n;
     annotation_files := annotation_files n |}.

Definition set_children (cs : list loc) (n : ComponentNode) : ComponentNode :=
  {| name := name n; product_id := product_id n; source_file := source_file n;
     node_type := node_type n; children := cs; parent := parent n;
     annotations := annotations n; geometry_info := geometry_info n;
     file_info := file_info n;
     original_product_id := original_product_id n;
     annotation_files := annotation_files n |}.

Definition set_annotations (anns : list Annotation) (n : ComponentNode) : ComponentNode :=
  {| name := name n; product_id := product_id n; source_file := source_file n;
     node_type := node_type n; children := children n; parent := parent n;
     annotations := anns; geometry_info := geometry_info n;
     file_info := file_info n;
     original_product_id := original_product_id n;
     annotation_files := annotation_files n |}.

Definition set_annotation_files (fs : list pystr) (n : ComponentNode) : ComponentNode :=
  {| name := name n; product_id := product_id n; source_file := source_file n;
     node_type := node_type n; children := children n; parent := parent n;
     annotations := annotations n; geometry_info := geometry_info n;
     file_info := file_info n;
     original_product_id := original_product_id n;
     annotation_files := fs |}.

Definition set_geometry_info (g : option GeometryInfo) (n : ComponentNode) : ComponentNode :=
  {| name := name n; product_id := product_id n; source_file := source_file n;
     node_type := node_type n; children := children n; parent := parent n;
     annotations := annotations n; geometry_info := g;
     file_info := file_info n;
     original_product_id := original_product_id n;
     annotation_files := annotation_files n |}.

(** [add_child]: first [child.parent = self], then
    [self.children.append(child)]; [self] and [child] may be one object. *)
Definition add_child (self child : loc) (heap : list ComponentNode) : list ComponentNode :=
  let heap := alter (set_parent (Some self)) child heap in
  alter (λ n, set_children (children n ++ [child]) n) self heap.

(** [comp.children], [comp.parent] and [comp.name] of the object at [comp]. *)
Definition children_at (heap : list ComponentNode) (comp : loc) : list loc :=
  default [] (children <$> heap !! comp).

Definition parent_at (heap : list ComponentNode) (comp : loc) : option loc :=
  heap !! comp ≫= parent.

Definition name_at (heap : list ComponentNode) (comp : loc) : pystr :=
  default [] (name <$> heap !! comp).

(** The merge loop of [supplement_annotations_from_files]: a candidate is
    appended unless an annotation with its name and description is already in
    the component's list, which grows while the loop runs. *)
Fixpoint merge_annotations (existing all_file_annotations : list Annotation)
    : list Annotation :=
  match all_file_annotations with
  | [] => existing
  | ann :: rest =>
      if existsb (λ existing_ann,
                    bool_decide (ann_name existing_ann = ann_name ann)
                    && bool_decide (ann_description existing_ann = ann_description ann))
                 existing
      then merge_annotations existing rest
      else merge_annotations (existing ++ [ann]) rest
  end.

Definition annotations_at (heap : list ComponentNode) (comp : loc) : list Annotation :=
  default [] (annotations <$> heap !! comp).

(** What the supplementer does to the component a file is matched to. *)
Definition merge_file (filename : pystr) (all_file_annotations : list Annotation)
    (node : ComponentNode) : ComponentNode :=
  let node :=
    set_annotations (merge_annotations (annotations node) all_file_annotations) node in
  if bool_decide (filename ∈ annotation_files node) then node
  else set_annotation_files (annotation_files node ++ [filename]) node.

(** A component without what the supplementer may change. *)
Definition skeleton (node : ComponentNode) : ComponentNode :=
  set_annotation_files [] (set_annotations [] node).

(** [c] is in the children list of [p]. *)
Definition child_of (heap : list ComponentNode) (p c : loc) : Prop :=
  c ∈ children_at heap p.

(** One resolved usage edge, as [extract_assembly_relationships_from_content]
    appends it. *)
Record Relationship := mkRelationship {
  parent_product_id : pystr;
  child_product_id : pystr;
  parent_product_name : pystr;
  child_product_name : pystr;
}.

(** The fields of a [BatchStepParser]. [tolerance] and the two dicts "kept
    for compatibility" ([all_annotations], [component_annotations]: written,
    never read) are left out. *)
Record BatchStepParser := mkBatchStepParser {
  input_directory : pystr;
  main_assembly_file : option pystr;
  enable_annotation_fallback : bool;
  extract_root_geometry : bool;
  heap : list ComponentNode;
  all_components : list (pystr * loc);
  standard_parts : list (pystr * (pystr * pystr));
  assembly_relationships : list Relationship;
  processed_files : list pystr;
  annotation_files_seen : list pystr;    (* self.annotation_files *)
  assembly_tree : option loc;
  component_name_index : list (pystr * loc);
}.

(** [BatchStepParser.__init__] *)
Definition new_BatchStepParser (input_directory : pystr)
    (main_assembly_file : option pystr) : BatchStepParser :=
  {| input_directory := input_directory;
     main_assembly_file := main_assembly_file;
     enable_annotation_fallback := false;
     extract_root_geometry := false;
     heap := []; all_components := []; standard_parts := [];
     assembly_relationships := []; processed_files := [];
     annotation_files_seen := []; assembly_tree := None;
     component_name_index := [] |}.

Definition with_heap (h : list ComponentNode) (p : BatchStepParser) : BatchStepParser :=
  {| input_directory := input_directory p;
     main_assembly_file := main_assembly_file p;
     enable_annotation_fallback := enable_annotation_fallback p;
     extract_root_geometry := extract_root_geometry p;
     heap := h; all_components := all_components p;
     standard_parts := standard_parts p;
     assembly_relationships := assembly_relationships p;
     processed_files := processed_files p;
     annotation_files_seen := annotation_files_seen p;
     assembly_tree := assembly_tree p;
     component_name_index := component_name_index p |}.

Definition with_assembly_tree (t : option loc) (p : BatchStepParser) : BatchStepParser :=
  {| input_directory := input_directory p;
     main_assembly_file := main_assembly_file p;
     enable_annotation_fallback := enable_annotation_fallback p;
     extract_root_geometry := extract_root_geometry p;
     heap := heap p; all_components := all_components p;
     standard_parts := standard_parts p;
     assembly_relationships := assembly_relationships p;
     processed_files := processed_files p;
     annotation_files_seen := annotation_files_seen p;
     assembly_tree := t;
     component_name_index := component_name_index p |}.

Definition with_annotation_files_seen (fs : list pystr) (p : BatchStepParser) : BatchStepParser :=
  {| input_directory := input_directory p;
     main_assembly_file := main_assembly_file p;
     enable_annotation_fallback := enable_annotation_fallback p;
     extract_root_geometry := extract_root_geometry p;
     heap := heap p; all_components := all_components p;
     standard_parts := standard_parts p;
     assembly_relationships := assembly_relationships p;
     processed_files := processed_files p;
     annotation_files_seen := fs;
     assembly_tree := assembly_tree p;
     component_name_index := component_name_index p |}.

Definition with_assembly_relationships (rs : list Relationship) (p : BatchStepParser) : BatchStepParser :=
  {| input_directory := input_directory p;
     main_assembly_file := main_assembly_file p;
     enable_annotation_fallback := enable_annotation_fallback p;
     extract_root_geometry := extract_root_geometry p;
     heap := heap p; all_components := all_components p;
     standard_parts := standard_parts p;
     assembly_relationships := rs;
     processed_files := processed_files p;
     annotation_files_seen := annotation_files_seen p;
     assembly_tree := assembly_tree p;
     component_name_index := component_name_index p |}.

Section WithRuntime.
Context `{Runtime}.

(** [find_step_files]: the globbed paths, one per absolute path. *)
Fixpoint unique_by_abspath (seen_paths : gset pystr) (step_files : list pystr) : list pystr :=
  match step_files with
  | [] => []
  | file_path :: rest =>
      let abs_path := path_abspath file_path in
      if bool_decide (abs_path ∈ seen_paths) then unique_by_abspath seen_paths rest
      else file_path :: unique_by_abspath ({[abs_path]} ∪ seen_paths) rest
  end.

Definition find_step_files (p : BatchStepParser) : list pystr :=
  unique_by_abspath ∅ (glob_step_files (input_directory p)).

Definition extract_products_from_content (content : Document) : list (pystr * ProductInfo) :=
  foldl (λ products '(product_id, product_name, product_desc),
           dict_set product_id
             (mkProductInfo (strip product_name) (strip product_desc) product_id)
             products)
        [] (doc_products content).

Definition extract_annotations_from_content (content : Document) : list (pystr * Annotation) :=
  foldl (λ annotations '(annotation_id, name, description),
           dict_set annotation_id (mkAnnotation (strip name) (strip description))
             annotations)
        [] (doc_annotations content).

(** The chain property-definition → product-definition → formation →
    product of one PROPERTY_DEFINITION_REPRESENTATION. *)
Definition resolve_prop_def (prop_def_to_prod_def prod_def_to_formation
    formation_to_product : list (pystr * pystr))
    (products : list (pystr * ProductInfo)) (prop_def_ref : pystr) : option pystr :=
  match dict_get prop_def_ref prop_def_to_prod_def with
  | None => None
  | Some prod_def_id =>
      match dict_get prod_def_id prod_def_to_formation with
      | None => None
      | Some formation_id =>
          match dict_get formation_id formation_to_product with
          | None => None
          | Some product_id =>
              if dict_mem product_id products then Some product_id else None
          end
      end
  end.

(** The opt-in fallback of [link_annotations_to_products_in_content]. *)
Definition annotation_fallback (products : list (pystr * ProductInfo))
    (annotations : list (pystr * Annotation))
    (product_annotations : list (pystr * list Annotation)) : list (pystr * list Annotation) :=
  foldl (λ pa '(product_id, product_info),
    let product_name_lower := str_lower (pi_name product_info) in
    foldl (λ pa '(_ann_id, annotation),
      let ann_name_lower := str_lower (ann_name annotation) in
      let ann_desc_lower := str_lower (ann_description annotation) in
      if contains product_name_lower ann_name_lower
         || contains product_name_lower ann_desc_lower
         || contains ann_name_lower product_name_lower
      then
        let pa := dict_touch product_id pa in
        if bool_decide (annotation ∈ default [] (dict_get product_id pa))
        then pa else dict_append product_id annotation pa
      else pa) pa annotations)
    product_annotations products.

Definition link_annotations_to_products_in_content (enable_fallback : bool)
    (content : Document) (products : list (pystr * ProductInfo))
    (annotations : list (pystr * Annotation)) : list (pystr * list Annotation) :=
  let repr_to_annotations :=
    foldl (λ d '(repr_id, _repr_name, item_refs, _context_id),
             let annotations_in_repr :=
               filter (λ item_id, dict_mem item_id annotations = true) item_refs in
             match annotations_in_repr with
             | [] => d
             | _ => dict_set repr_id annotations_in_repr d
             end)
          [] (doc_representations content) in
  let prod_def_to_formation :=
    foldl (λ d '(prod_def_id, _, _, formation_ref, _), dict_set prod_def_id formation_ref d)
          [] (doc_prod_defs content) in
  let formation_to_product :=
    foldl (λ d '(formation_id, _, _, product_ref), dict_set formation_id product_ref d)
          [] (doc_formations content) in
  let prop_def_to_prod_def :=
    foldl (λ d '(prop_def_id, _, _, prod_def_ref), dict_set prop_def_id prod_def_ref d)
          [] (doc_prop_defs content) in
  let repr_to_product :=
    foldl (λ d '(_pdr_id, prop_def_ref, repr_ref),
             if dict_mem repr_ref repr_to_annotations then
               match resolve_prop_def prop_def_to_prod_def prod_def_to_formation
                       formation_to_product products prop_def_ref with
               | Some product_id => dict_set repr_ref product_id d
               | None => d
               end
             else d)
          [] (doc_prop_def_reprs content) in
  let product_annotations :=
    foldl (λ pa '(repr_id, annotation_ids),
             match dict_get repr_id repr_to_product with
             | Some product_id =>
                 foldl (λ pa ann_id,
                          match dict_get ann_id annotations with
                          | Some ann => dict_append product_id ann pa
                          | None => pa
                          end) pa annotation_ids
             | None => pa
             end)
          [] repr_to_annotations in
  if enable_fallback then annotation_fallback products annotations product_annotations
  else product_annotations.

(** [resolve_product_from_definition] *)
Definition resolve_product_from_definition
    (prod_def_to_formation formation_to_product : list (pystr * pystr))
    (products : list (pystr * ProductInfo)) (prod_def_id : pystr) : option pystr :=
  match dict_get prod_def_id prod_def_to_formation with
  | Some formation_ref =>
      match dict_get formation_ref formation_to_product with
      | Some product_ref =>
          if dict_mem product_ref products then Some product_ref else None
      | None => None
      end
  | None => None
  end.

(** The edges [extract_assembly_relationships_from_content] appends to
    [self.assembly_relationships]. *)
Definition extract_assembly_relationships_from_content (content : Document)
    (products : list (pystr * ProductInfo)) : list Relationship :=
  let prod_def_to_formation :=
    foldl (λ d '(prod_def_id, _, _, formation_ref, _), dict_set prod_def_id formation_ref d)
          [] (doc_prod_defs content) in
  let formation_to_product :=
    foldl (λ d '(formation_id, _, _, product_ref), dict_set formation_id product_ref d)
          [] (doc_formations content) in
  let resolve := resolve_product_from_definition prod_def_to_formation
                   formation_to_product products in
  omap (λ '(_usage_id, _usage_name, _usage_desc, relating_prod_def, related_prod_def),
          match resolve relating_prod_def, resolve related_prod_def with
          | Some (c1 :: r1), Some (c2 :: r2) =>
              let parent_product_id := c1 :: r1 in
              let child_product_id := c2 :: r2 in
              Some (mkRelationship parent_product_id child_product_id
                      (default [] (pi_name <$> dict_get parent_product_id products))
                      (default [] (pi_name <$> dict_get child_product_id products)))
          | _, _ => None
          end)
       (doc_usages content).

Definition standard_keywords : list pystr :=
  [ str "screw"; str "bolt"; str "nut"; str "washer"; str "bearing";
    str "motor"; str "sensor"; str "valve"; str "cylinder"; str "spring";
    str "pin"; str "gear"; str "coupling"; str "fastener"; str "fitting";
    str "connector"; str "switch"; str "relay"; str "actuator";
    str "encoder"; str "drive"; str "pump"; str "filter" ].

(** [" ".join(l)] *)
Fixpoint join_space (l : list pystr) : pystr :=
  match l with
  | [] => []
  | [s] => s
  | s :: l' => s ++ str " " ++ join_space l'
  end.

Definition identify_component_type (product_info : ProductInfo)
    (annotations : list Annotation) (has_children : bool) : NodeType :=
  let product_text :=
    str_lower (pi_name product_info ++ str " " ++ pi_description product_info) in
  let annotation_text :=
    str_lower (join_space
      ((λ ann, ann_name ann ++ str " " ++ ann_description ann) <$> annotations)) in
  let combined_text := product_text ++ str " " ++ annotation_text in
  if existsb (λ keyword, contains keyword combined_text) standard_keywords
  then STANDARD_PART
  else if manufacturer_pattern_search combined_text then STANDARD_PART
  else if has_children then ASSEMBLY else PART.

(** [remove_solidworks_suffix] *)
Definition remove_solidworks_suffix (name : pystr) : pystr :=
  re_sub_dash_digits (strip name).

(** [extract_file_info], as far as it is read later. *)
Definition extract_file_info (content : Document) : FileInfo :=
  mkFileInfo (doc_author content) (doc_organization content).

(** One round of the [for index, (product_id, product_info) in
    enumerate(products.items(), start=1)] loop of [process_main_assembly]. *)
Definition register_component (main_path : pystr) (file_info : FileInfo)
    (product_annotations : list (pystr * list Annotation))
    (index : nat) (product_id : pystr) (product_info : ProductInfo)
    (st : BatchStepParser) : BatchStepParser :=
  let has_children :=
    existsb (λ rel, bool_decide (parent_product_id rel = product_id))
            (assembly_relationships st) in
  let component_annotations := default [] (dict_get product_id product_annotations) in
  let node_type :=
    if has_children then ASSEMBLY
    else identify_component_type product_info component_annotations has_children in
  let component_product_id := str "P" ++ decimal_05 index in
  let component :=
    mkComponentNode (pi_name product_info) component_product_id main_path
      node_type [] None component_annotations None file_info product_id [] in
  {| input_directory := input_directory st;
     main_assembly_file := main_assembly_file st;
     enable_annotation_fallback := enable_annotation_fallback st;
     extract_root_geometry := extract_root_geometry st;
     heap := heap st ++ [component];
     all_components :=
       dict_set component_product_id (length (heap st)) (all_components st);
     standard_parts :=
       if decide (node_type = STANDARD_PART)
       then dict_set component_product_id
              (pi_name product_info, pi_description product_info)
              (standard_parts st)
       else standard_parts st;
     assembly_relationships := assembly_relationships st;
     processed_files := processed_files st;
     annotation_files_seen := annotation_files_seen st;
     assembly_tree := assembly_tree st;
     component_name_index := component_name_index st |}.

Fixpoint register_components (main_path : pystr) (file_info : FileInfo)
    (product_annotations : list (pystr * list Annotation))
    (index : nat) (products : list (pystr * ProductInfo))
    (st : BatchStepParser) : BatchStepParser :=
  match products with
  | [] => st
  | (product_id, product_info) :: rest =>
      register_components main_path file_info product_annotations (S index) rest
        (register_component main_path file_info product_annotations
           index product_id product_info st)
  end.

(** The name index: the first component of each key keeps the slot. *)
Definition build_name_index (heap : list ComponentNode)
    (all_components : list (pystr * loc)) : list (pystr * loc) :=
  foldl (λ index '(_, comp),
           match heap !! comp with
           | Some node =>
               let key := str_upper (remove_solidworks_suffix (name node)) in
               if dict_mem key index then index else dict_set key comp index
           | None => index
           end)
        [] all_components.

Definition process_main_assembly (main_path : pystr) (st : BatchStepParser)
    : bool * BatchStepParser :=
  let content := load_file_content main_path in
  if negb (doc_nonempty content) then (false, st)
  else
    let products := extract_products_from_content content in
    let annotations := extract_annotations_from_content content in
    let file_info := extract_file_info content in
    let product_annotations :=
      link_annotations_to_products_in_content (enable_annotation_fallback st)
        content products annotations in
    let st :=
      with_assembly_relationships
        (assembly_relationships st
           ++ extract_assembly_relationships_from_content content products) st in
    let st := register_components main_path file_info product_annotations 1 products st in
    (true,
     {| input_directory := input_directory st;
        main_assembly_file := main_assembly_file st;
        enable_annotation_fallback := enable_annotation_fallback st;
        extract_root_geometry := extract_root_geometry st;
        heap := heap st; all_components := all_components st;
        standard_parts := standard_parts st;
        assembly_relationships := assembly_relationships st;
        processed_files := processed_files st ++ [main_path];
        annotation_files_seen := annotation_files_seen st;
        assembly_tree := assembly_tree st;
        component_name_index := build_name_index (heap st) (all_components st) |}).

(** The annotations one auxiliary document offers: [None] where the loop
    body runs into one of its [continue]s. *)
Definition file_annotations (enable_fallback : bool) (content : Document)
    : option (list Annotation) :=
  if negb (doc_nonempty content) then None
  else if negb (doc_has_annotation_token content) then None
  else
    let products := extract_products_from_content content in
    let annotations := extract_annotations_from_content content in
    let product_annotations :=
      link_annotations_to_products_in_content enable_fallback content products annotations in
    match annotations with
    | [] => None
    | _ =>
        match concat (snd <$> product_annotations) with
        | [] => None
        | all_file_annotations => Some all_file_annotations
        end
    end.

(** The component an auxiliary file is matched to, by its cleaned name. *)
Definition matching_component (st : BatchStepParser) (filename : pystr) : option loc :=
  let file_base_name := (path_splitext (path_basename filename)).1 in
  let file_base_clean := remove_solidworks_suffix file_base_name in
  let key := str_upper file_base_clean in
  match dict_get key (component_name_index st) with
  | Some candidate =>
      if decide (Some candidate = assembly_tree st) then None else Some candidate
  | None => None
  end.

(** One round of the [for filename in step_files] loop. *)
Definition supplement_from_file (main_path : option pystr) (filename : pystr)
    (st : BatchStepParser) : BatchStepParser :=
  if match main_path with
     | Some (c :: r) => bool_decide (path_abspath filename = path_abspath (c :: r))
     | _ => false
     end
  then st
  else
    match file_annotations (enable_annotation_fallback st) (load_file_content filename) with
    | None => st
    | Some all_file_annotations =>
        let st :=
          match matching_component st filename with
          | Some comp =>
              let heap :=
                alter (λ node,
                         set_annotations
                           (merge_annotations (annotations node) all_file_annotations) node)
                      comp (heap st) in
              let heap :=
                alter (λ node,
                         if bool_decide (filename ∈ annotation_files node) then node
                         else set_annotation_files (annotation_files node ++ [filename]) node)
                      comp heap in
              with_heap heap st
          | None => st
          end in
        with_annotation_files_seen (annotation_files_seen st ++ [filename]) st
    end.

(** What one auxiliary file contributes in the state [st]: the component it
    is matched to and the annotations it offers. [None] when the file is the
    primary document, offers nothing, or matches no component. *)
Definition contribution (main_path : option pystr) (filename : pystr)
    (st : BatchStepParser) : option (loc * list Annotation) :=
  if match main_path with
     | Some (c :: r) => bool_decide (path_abspath filename = path_abspath (c :: r))
     | _ => false
     end
  then None
  else
    match file_annotations (enable_annotation_fallback st) (load_file_content filename) with
    | None => None
    | Some all_file_annotations =>
        match matching_component st filename with
        | Some comp => Some (comp, all_file_annotations)
        | None => None
        end
    end.

(** [main_path] of [supplement_annotations_from_files] *)
Definition main_path_of (st : BatchStepParser) : option pystr :=
  match main_assembly_file st with
  | Some (c :: r) => Some (path_join (input_directory st) (c :: r))
  | _ => None
  end.

Definition supplement_annotations_from_files (step_files : list pystr)
    (st : BatchStepParser) : BatchStepParser :=
  let main_path := main_path_of st in
  foldl (λ st filename, supplement_from_file main_path filename st) st step_files.

(** The inner loop of [build_assembly_tree]: the last component whose
    [original_product_id] is [orig_id]. *)
Definition find_component (heap : list ComponentNode)
    (all_components : list (pystr * loc)) (orig_id : pystr) : option loc :=
  foldl (λ found '(_, comp),
           match heap !! comp with
           | Some node =>
               if bool_decide (original_product_id node = orig_id)
               then Some comp else found
           | None => found
           end)
        None all_components.

(** [comp.product_id] *)
Definition product_id_at (heap : list ComponentNode) (comp : loc) : pystr :=
  default [] (product_id <$> heap !! comp).

(** One round of the [for rel in self.assembly_relationships] loop. *)
Definition link_relationship (all_components : list (pystr * loc))
    (acc : list ComponentNode * gset pystr * gset pystr) (rel : Relationship)
    : list ComponentNode * gset pystr * gset pystr :=
  let '(heap, parent_components, child_components) := acc in
  match find_component heap all_components (parent_product_id rel),
        find_component heap all_components (child_product_id rel) with
  | Some parent_comp, Some child_comp =>
      (add_child parent_comp child_comp heap,
       {[product_id_at heap parent_comp]} ∪ parent_components,
       {[product_id_at heap child_comp]} ∪ child_components)
  | _, _ => acc
  end.

Definition virtual_root : ComponentNode :=
  new_ComponentNode (str "SSI_Anlage_Root") (str "root_assembly") (str "virtual") ASSEMBLY.

(** A new virtual root with [comps] as its children, in order. *)
Definition attach_to_virtual_root (comps : list loc) (st : BatchStepParser) : BatchStepParser :=
  let root := length (heap st) in
  let heap := heap st ++ [virtual_root] in
  let heap := foldl (λ heap comp, add_child root comp heap) heap comps in
  with_assembly_tree (Some root) (with_heap heap st).

Definition build_assembly_tree (st : BatchStepParser) : BatchStepParser :=
  match assembly_relationships st with
  | [] => attach_to_virtual_root (snd <$> all_components st) st
  | _ =>
      let '(heap, parent_components, child_components) :=
        foldl (link_relationship (all_components st)) (heap st, ∅, ∅)
              (assembly_relationships st) in
      let root_candidates :=
        filter (λ kv, kv.1 ∈ parent_components ∧ kv.1 ∉ child_components)
               (all_components st) in
      match root_candidates with
      | (_, comp) :: _ => with_assembly_tree (Some comp) (with_heap heap st)
      | [] =>
          let orphaned :=
            filter (λ kv, kv.1 ∉ child_components) (all_components st) in
          attach_to_virtual_root (snd <$> orphaned) (with_heap heap st)
      end
  end.

(** [extract_geometry_info_for_component] *)
Definition extract_geometry_info_for_component (comp : loc)
    (heap : list ComponentNode) : list ComponentNode :=
  match heap !! comp with
  | Some node =>
      if negb (path_exists (source_file node))
         || bool_decide (source_file node = str "virtual")
      then heap
      else
        match measure_geometry (source_file node) with
        | Some g => alter (set_geometry_info (Some g)) comp heap
        | None => heap
        end
  | None => heap
  end.

(** Lines 438 to 446 of [parse_batch]: the primary document, then the
    auxiliary ones. *)
Definition process_and_supplement (step_files : list pystr) (st : BatchStepParser)
    : bool * BatchStepParser :=
  match main_assembly_file st with
  | Some (c :: r) =>
      let main_path := path_join (input_directory st) (c :: r) in
      if path_exists main_path then
        let '(success, st) := process_main_assembly main_path st in
        if success then (true, supplement_annotations_from_files step_files st)
        else (false, st)
      else (false, st)
  | _ => (false, st)
  end.

(** Lines 452 to 454 of [parse_batch]: the geometry of the root. *)
Definition root_geometry (st : BatchStepParser) : BatchStepParser :=
  match assembly_tree st with
  | Some root =>
      if extract_root_geometry st
         && negb (bool_decide
                    (default [] (source_file <$> heap st !! root) = str "virtual"))
      then with_heap (extract_geometry_info_for_component root (heap st)) st
      else st
  | None => st
  end.

Definition parse_batch (st : BatchStepParser) : bool * BatchStepParser :=
  let step_files := find_step_files st in
  match step_files with
  | [] => (false, st)
  | _ =>
      let '(success, st) := process_and_supplement step_files st in
      if negb success then (false, st)
      else (true, root_geometry (build_assembly_tree st))
  end.

End WithRuntime.

(** ** Vocabulary for the properties of the tree *)

Definition product_id_of (index : nat) : pystr := str "P" ++ decimal_05 index.

(** The edges of [assembly_relationships] whose two ends are found among the
    components, as pairs (parent, child) of heap locations, in order: the
    pairs [build_assembly_tree] calls [add_child] on. *)
Definition resolved_edges (st : BatchStepParser) : list (loc * loc) :=
  omap (λ rel,
          match find_component (heap st) (all_components st) (parent_product_id rel),
                find_component (heap st) (all_components st) (child_product_id rel) with
          | Some parent_comp, Some child_comp => Some (parent_comp, child_comp)
          | _, _ => None
          end)
       (assembly_relationships st).

(** The children and the parent that a list of [add_child] calls gives a
    component. *)
Definition children_from (edges : list (loc * loc)) (comp : loc) : list loc :=
  snd <$> filter (λ e, e.1 = comp) edges.

Definition parent_from (edges : list (loc * loc)) (comp : loc) : option loc :=
  last (fst <$> filter (λ e, e.2 = comp) edges).

(** A component without its links. *)
Definition unlink (node : ComponentNode) : ComponentNode :=
  set_parent None (set_children [] node).

(** [add_child] along a list of edges, in order. *)
Definition add_children (edges : list (loc * loc)) (heap : list ComponentNode)
    : list ComponentNode :=
  foldl (λ heap e, add_child e.1 e.2 heap) heap edges.

(** A component that is a parent in an edge and a child in none. *)
Definition root_candidate (edges : list (loc * loc)) (comp : loc) : Prop :=
  comp ∈ (fst <$> edges) ∧ comp ∉ (snd <$> edges).

#[global] Instance root_candidate_dec edges comp : Decision (root_candidate edges comp).
Proof. unfold root_candidate. apply _. Defined.

(** The state of a parser after [process_main_assembly] and the
    supplementer, before the tree is built: the components are the objects
    of the heap, in order, under their own [product_id]; identifiers do not
    repeat; no component is linked. *)
Record registered (st : BatchStepParser) : Prop := {
  registered_components :
    all_components st =
    (λ comp, (product_id_of (S comp), comp)) <$> seq 0 (length (heap st));
  registered_product_ids :
    product_id <$> heap st = product_id_of <$> seq 1 (length (heap st));
  registered_original_ids : NoDup (original_product_id <$> heap st);
  registered_unlinked :
    Forall (λ node, children node = [] ∧ parent node = None) (heap st);
  registered_no_tree : assembly_tree st = None;
  registered_resolved :
    Forall (λ rel,
              parent_product_id rel ∈ (original_product_id <$> heap st) ∧
              child_product_id rel ∈ (original_product_id <$> heap st))
           (assembly_relationships st);
}.

(** Edges without a cycle: some ranking grows along every edge. *)
Definition acyclic_edges (edges : list (loc * loc)) : Prop :=
  ∃ rank : loc → nat, ∀ p c, (p, c) ∈ edges → rank p < rank c.

(** The objects of [heap] form a tree under [root]: finite (children are
    objects of the heap), every object reachable from the root, no object
    its own ancestor, no object in the children lists of two parents or
    twice in one, and the root the one object without a parent. *)
Record tree_shaped (heap : list ComponentNode) (root : loc) : Prop := {
  tree_root : root < length heap;
  tree_closed : ∀ p c, child_of heap p c → p < length heap ∧ c < length heap;
  tree_reachable : ∀ comp, comp < length heap → rtc (child_of heap) root comp;
  tree_acyclic : ∀ comp, ¬ tc (child_of heap) comp comp;
  tree_one_parent : ∀ p p' c, child_of heap p c → child_of heap p' c → p = p';
  tree_once : ∀ p, NoDup (children_at heap p);
  tree_root_no_parent : ∀ p, ¬ child_of heap p root;
  tree_one_root :
    ∀ comp, comp < length heap → (∀ p, ¬ child_of heap p comp) → comp = root;
}.

(** A parser as [__init__] leaves it, whatever its configuration. *)
Definition fresh (st : BatchStepParser) : Prop :=
  heap st = [] ∧ all_components st = [] ∧ assembly_relationships st = [] ∧
  assembly_tree st = None.

End Parser.

(* ====================================================================== *)
(** * batch_aas_from_stp.py: serializing the tree *)
(* ====================================================================== *)

Module Serializer.
Import Parser Allocator.

(** Submodel elements, as far as identifiers go: values, value types and
    semantic ids (the taxonomy lookups of [MapEClass]) are left out. *)
#[local] Set Warnings "-register-all".
Inductive Element :=
  | Property (id_short : pystr)
  | Collection (id_short : pystr) (value : list Element)
  | File (id_short : pystr).

(** Computations on the ledger [self.used_ids]. *)
Definition M (A : Type) : Type := gset pystr → Result (A * gset pystr).

#[global] Instance M_ret : MRet M := λ A a used_ids, Ok (a, used_ids).

#[global] Instance M_bind : MBind M := λ A B k m used_ids,
  rbind (m used_ids) (λ '(a, used_ids'), k a used_ids').

Definition raise {A} (e : Exn) : M A := λ _, Raise e.

Section WithRuntime.
Context `{Runtime}.

Definition create_property (id_short : pystr) : M Element :=
  unique_id ← get_unique_id id_short None ;
  mret (Property unique_id).

Definition create_smc (id_short : pystr) (value : list Element)
    (context_suffix : option pystr) : M Element :=
  unique_id ← get_unique_id id_short context_suffix ;
  mret (Collection unique_id value).

(** The files of [component.annotation_files] that exist, as
    [AnnotationFile_<idx>]. *)
Definition file_elements (annotation_files : list pystr) : list Element :=
  omap (λ '(idx, filename),
          if path_exists filename
          then Some (File (str "AnnotationFile_" ++ decimal idx)) else None)
       (zip (seq 0 (length annotation_files)) annotation_files).

(** The [Geometry] collection of the root; the arguments of a call are
    evaluated before the call allocates its own identifier. *)
Definition geometry_elements (geom : GeometryInfo) : M Element :=
  volume ← (if volume_positive geom
            then (p ← create_property (str "Volume") ; mret [p]) else mret []) ;
  surface ← (if surface_area_positive geom
             then (p ← create_property (str "Surface_Area") ; mret [p]) else mret []) ;
  com ← mapM create_property [str "X"; str "Y"; str "Z"] ;
  com_smc ← create_smc (str "Center_of_Mass") com None ;
  bmin ← mapM create_property [str "X"; str "Y"; str "Z"] ;
  min_smc ← create_smc (str "Min") bmin None ;
  bmax ← mapM create_property [str "X"; str "Y"; str "Z"] ;
  max_smc ← create_smc (str "Max") bmax None ;
  brange ← mapM create_property [str "Length"; str "Width"; str "Height"] ;
  range_smc ← create_smc (str "Range") brange None ;
  bbox_smc ← create_smc (str "Bounding_Box") [min_smc; max_smc; range_smc] None ;
  create_smc (str "Geometry") (volume ++ surface ++ [com_smc; bbox_smc]) None.

Definition create_component_elements (standard_parts : list (pystr * (pystr * pystr)))
    (component : ComponentNode) (level : nat) : M (list Element) :=
  e1 ← create_property (str "Product_ID") ;
  e2 ← create_property (str "Type") ;
  e3 ← create_property (str "Level") ;
  e4 ← create_property (str "Source_File") ;
  standard ← (if dict_mem (product_id component) standard_parts
              then (p ← create_property (str "Standard_Type") ; mret [p])
              else mret []) ;
  ann_elements ←
    mapM (λ ann, create_property (ann_name ann))
         (filter (λ ann, ann_name ann ≠ [] ∧ ann_description ann ≠ [])
                 (annotations component)) ;
  annotations_smc ←
    (match ann_elements with
     | [] => mret []
     | _ => (smc ← create_smc (str "Annotations") ann_elements
                     (Some (product_id component)) ; mret [smc])
     end) ;
  files_smc ←
    (match file_elements (annotation_files component) with
     | [] => mret []
     | fs => (smc ← create_smc (str "Files") fs (Some (product_id component)) ;
              mret [smc])
     end) ;
  geometry ←
    (match level, geometry_info component with
     | O, Some geom => (smc ← geometry_elements geom ; mret [smc])
     | _, _ => mret []
     end) ;
  mret ([e1; e2; e3; e4] ++ standard ++ annotations_smc ++ files_smc ++ geometry).

(** [create_component_smc]; [depth] is the number of nested calls the
    interpreter still allows ([RecursionError] beyond it). Locations come
    from the heap, so the lookup of [comp] does not fail on a parser's state;
    the model gives [Loops] to the case that cannot arise. *)
Fixpoint create_component_smc (depth : nat) (st : BatchStepParser)
    (comp : loc) (level : nat) : M Element :=
  match depth with
  | O => raise RecursionError
  | S depth' =>
      match heap st !! comp with
      | None => λ _, Loops
      | Some component =>
          elements ← create_component_elements (standard_parts st) component level ;
          children_smc ←
            (match children component with
             | [] => mret []
             | cs =>
                 (child_elements ←
                    mapM (λ child, create_component_smc depth' st child (S level)) cs ;
                  smc ← create_smc (str "Components") child_elements
                          (Some (product_id component)) ;
                  mret [smc])
             end) ;
          unique_name ← get_unique_id (name component) (Some (product_id component)) ;
          mret (Collection unique_name (elements ++ children_smc))
      end
  end.

(** [create_assembly_submodel]: the [Main_Assembly] collection of the
    submodel, or [None] without a tree. *)
Definition create_assembly_submodel (depth : nat) (st : BatchStepParser)
    : M (option Element) :=
  match assembly_tree st with
  | None => mret None
  | Some root =>
      match heap st !! root with
      | None => λ _, Loops
      | Some tree =>
          root_elements ← create_component_elements (standard_parts st) tree 0 ;
          main_info ←
            (match processed_files st with
             | [] => mret []
             | _ =>
                 (n ← create_property (str "Main_Assembly_Name") ;
                  a ← (match fi_author (file_info tree) with
                       | [] => mret []
                       | _ => (p ← create_property (str "Main_Assembly_Author") ; mret [p])
                       end) ;
                  o ← (match fi_organization (file_info tree) with
                       | [] => mret []
                       | _ => (p ← create_property (str "Main_Assembly_Organization") ;
                               mret [p])
                       end) ;
                  mret (n :: a ++ o))
             end) ;
          children_smc ←
            (match children tree with
             | [] => mret []
             | cs =>
                 (child_elements ←
                    mapM (λ child, create_component_smc depth st child 1) cs ;
                  smc ← create_smc (str "Components") child_elements
                          (Some (product_id tree)) ;
                  mret [smc])
             end) ;
          main_assembly_smc ←
            create_smc (str "Main_Assembly") (root_elements ++ main_info ++ children_smc)
              (Some (product_id tree)) ;
          mret (Some main_assembly_smc)
      end
  end.

End WithRuntime.
End Serializer.

(* ====================================================================== *)
(** * A runtime for worked examples *)
(* ====================================================================== *)

(** A directory given as a list of files with their records; text functions
    that agree with Python's on ASCII text (on Latin-1 for [isalpha]); paths
    relative to the working directory [/]. The worked examples below use no
    other text. *)
Module Demo.

Definition latin1_isalpha (c : N) : bool :=
  ((c =? 170) || (c =? 181) || (c =? 186) || (192 <=? c) && (c <=? 214)
   || (216 <=? c) && (c <=? 246) || (248 <=? c) && (c <=? 255))%N.

Definition ascii_upper (s : pystr) : pystr :=
  (λ c, if ascii_lower_letter c then (c - 32)%N else c) <$> s.

Definition ascii_lower (s : pystr) : pystr :=
  (λ c, if ascii_upper_letter c then (c + 32)%N else c) <$> s.

Fixpoint drop_digits (s : pystr) : pystr :=
  match s with
  | c :: s' => if ascii_digit c then drop_digits s' else s
  | [] => []
  end.

(** [-\d+$] removed from the end *)
Definition drop_dash_digits (s : pystr) : pystr :=
  let r := reverse s in
  match drop_digits r with
  | 45%N :: r' => if bool_decide (S (length r') < length r) then reverse r' else s
  | _ => s
  end.

Definition manufacturers : list pystr :=
  [ str "festo"; str "balluff"; str "hbm"; str "siemens"; str "bosch";
    str "parker"; str "smc"; str "omron"; str "keyence"; str "sick"; str "ifm" ].

(** [[A-Z]{2,}-\d+] *)
Fixpoint upper2_dash_digit (s : pystr) : bool :=
  match s with
  | a :: ((b :: 45%N :: d :: _) as s') =>
      ascii_upper_letter a && ascii_upper_letter b && ascii_digit d
      || upper2_dash_digit s'
  | _ :: s' => upper2_dash_digit s'
  | [] => false
  end.

(** [\b[A-Z]\d{4,}\b] *)
Fixpoint upper_digits4 (prev_word : bool) (s : pystr) : bool :=
  match s with
  | [] => false
  | c :: s' =>
      (negb prev_word && ascii_upper_letter c
       && bool_decide (length (drop_digits s') + 4 ≤ length s')
       && match drop_digits s' with [] => true | d :: _ => negb (id_char d) end)
      || upper_digits4 (id_char c) s'
  end.

Definition search_manufacturer (text : pystr) : bool :=
  existsb (λ m, contains m (ascii_lower text)) manufacturers
  || upper2_dash_digit text || upper_digits4 false text.

(** The part of [s] after the last [sep], and the part before it. *)
Fixpoint split_last (sep : N) (s : pystr) : option (pystr * pystr) :=
  match s with
  | [] => None
  | c :: s' =>
      match split_last sep s' with
      | Some (before, after) => Some (c :: before, after)
      | None => if bool_decide (c = sep) then Some ([], s') else None
      end
  end.

Definition basename (p : pystr) : pystr :=
  match split_last 47%N p with Some (_, b) => b | None => p end.

Definition splitext (p : pystr) : pystr * pystr :=
  match split_last 46%N p with
  | Some (c :: root, ext) => (c :: root, 46%N :: ext)
  | _ => (p, [])
  end.

Definition runtime (files : list (pystr * Document)) : Runtime :=
  {| unicode_isalpha := latin1_isalpha;
     str_upper := ascii_upper;
     str_lower := ascii_lower;
     re_sub_dash_digits := drop_dash_digits;
     manufacturer_pattern_search := search_manufacturer;
     path_join := λ d f, d ++ str "/" ++ f;
     path_abspath := λ p, str "/" ++ p;
     path_exists := λ p, dict_mem p files;
     path_basename := basename;
     path_splitext := splitext;
     glob_step_files := λ _, fst <$> files;
     load_file_content := λ p, default empty_document (dict_get p files);
     measure_geometry := λ _, None |}.

End Demo.

(* ====================================================================== *)
(** * Documents for worked examples *)
(* ====================================================================== *)

Module Examples.
Import Parser.

(** [#id = PRODUCT('name', '', ...);] *)
Definition product (id name : string) : pystr * pystr * pystr :=
  (str id, str name, []).

(** [#id = PRODUCT_DEFINITION('design', '', #formation, #9);] *)
Definition product_definition (id formation : string)
    : pystr * pystr * pystr * pystr * pystr :=
  (str id, str "design", [], str formation, str "9").

(** [#id = PRODUCT_DEFINITION_FORMATION_WITH_SPECIFIED_SOURCE('', '', #product, .NOT_KNOWN.);] *)
Definition formation (id product : string) : pystr * pystr * pystr * pystr :=
  (str id, [], [], str product).

(** [#id = NEXT_ASSEMBLY_USAGE_OCCURRENCE('id', '', #relating, #related, $);] *)
Definition usage (id relating related : string)
    : pystr * pystr * pystr * pystr * pystr :=
  (str id, str id, [], str relating, str related).

(** [#id = DESCRIPTIVE_REPRESENTATION_ITEM('name', 'description');] *)
Definition annotation (id name description : string) : pystr * pystr * pystr :=
  (str id, str name, str description).

(** A document with these products, definitions and usages and no
    annotation. *)
Definition structure_document (products : list (pystr * pystr * pystr))
    (prod_defs : list (pystr * pystr * pystr * pystr * pystr))
    (formations : list (pystr * pystr * pystr * pystr))
    (usages : list (pystr * pystr * pystr * pystr * pystr)) : Document :=
  {| doc_nonempty := true; doc_has_annotation_token := false;
     doc_products := products; doc_annotations := [];
     doc_representations := []; doc_prop_def_reprs := []; doc_prop_defs := [];
     doc_prod_defs := prod_defs; doc_formations := formations;
     doc_usages := usages; doc_author := []; doc_organization := [] |}.

(** A document with one product [#1] (definition [#11], formation [#21])
    that carries the given annotations through one representation [#50],
    linked by the property definition [#80]. *)
Definition annotated_document (name : string)
    (annotations : list (pystr * pystr * pystr)) : Document :=
  {| doc_nonempty := true; doc_has_annotation_token := true;
     doc_products := [product "1" name];
     doc_annotations := annotations;
     doc_representations := [(str "50", [], (λ a, a.1.1) <$> annotations, str "60")];
     doc_prop_def_reprs := [(str "70", str "80", str "50")];
     doc_prop_defs := [(str "80", [], [], str "11")];
     doc_prod_defs := [product_definition "11" "21"];
     doc_formations := [formation "21" "1"];
     doc_usages := []; doc_author := []; doc_organization := [] |}.

(** Products A, B, C with the usages A -> B and C -> B. *)
Definition two_parents : Document :=
  structure_document
    [product "1" "A"; product "2" "B"; product "3" "C"]
    [product_definition "11" "21"; product_definition "12" "22";
     product_definition "13" "23"]
    [formation "21" "1"; formation "22" "2"; formation "23" "3"]
    [usage "31" "11" "12"; usage "32" "13" "12"].

(** Products A, B, C, D with the usages A -> B, A -> C and B -> D. *)
Definition small_assembly : Document :=
  structure_document
    [product "1" "A"; product "2" "B"; product "3" "C"; product "4" "D"]
    [product_definition "11" "21"; product_definition "12" "22";
     product_definition "13" "23"; product_definition "14" "24"]
    [formation "21" "1"; formation "22" "2"; formation "23" "3";
     formation "24" "4"]
    [usage "31" "11" "12"; usage "32" "11" "13"; usage "33" "12" "14"].

(** Products A, B, C, D with the usages A -> B and C -> D. *)
Definition two_assemblies : Document :=
  structure_document
    [product "1" "A"; product "2" "B"; product "3" "C"; product "4" "D"]
    [product_definition "11" "21"; product_definition "12" "22";
     product_definition "13" "23"; product_definition "14" "24"]
    [formation "21" "1"; formation "22" "2"; formation "23" "3";
     formation "24" "4"]
    [usage "31" "11" "12"; usage "32" "13" "14"].

(** Products A and B with the usages A -> B and B -> A. *)
Definition two_cycle : Document :=
  structure_document
    [product "1" "A"; product "2" "B"]
    [product_definition "11" "21"; product_definition "12" "22"]
    [formation "21" "1"; formation "22" "2"]
    [usage "31" "11" "12"; usage "32" "12" "11"].

(** One product Bracket, no usage. *)
Definition single_part : Document :=
  structure_document [product "1" "Bracket"] [product_definition "11" "21"]
    [formation "21" "1"] [].

(** A text with a header and no PRODUCT statement. *)
Definition no_products : Document := structure_document [] [] [] [].

(** A product without a name over a product B, and under a product A. *)
Definition unnamed_root : Document :=
  structure_document
    [product "1" ""; product "2" "B"]
    [product_definition "11" "21"; product_definition "12" "22"]
    [formation "21" "1"; formation "22" "2"]
    [usage "31" "11" "12"].

Definition unnamed_child : Document :=
  structure_document
    [product "1" "A"; product "2" ""]
    [product_definition "11" "21"; product_definition "12" "22"]
    [formation "21" "1"; formation "22" "2"]
    [usage "31" "11" "12"].

Definition torque : Annotation := mkAnnotation (str "Torque") (str "10 Nm").

(** A product Bracket with two annotation items of one text. *)
Definition bracket_twice : Document :=
  annotated_document "Bracket"
    [annotation "10" "Torque" "10 Nm"; annotation "11" "Torque" "10 Nm"].

(** A product with the annotation item Torque = 10 Nm. *)
Definition torque_document (name : string) : Document :=
  annotated_document name [annotation "10" "Torque" "10 Nm"].

(** The parser of [main.py] for the directory [in] and the primary document
    [main.stp]. *)
Definition parser : BatchStepParser :=
  {| input_directory := str "in";
     main_assembly_file := Some (str "main.stp");
     enable_annotation_fallback := false;
     extract_root_geometry := true;
     heap := []; all_components := []; standard_parts := [];
     assembly_relationships := []; processed_files := [];
     annotation_files_seen := []; assembly_tree := None;
     component_name_index := [] |}.

(** The directory [in] with the primary document [main] alone. *)
Definition only (main : Document) : Runtime :=
  Demo.runtime [(str "in/main.stp", main)].

(** The directory [in] with a primary document over Bracket and two
    auxiliary documents that both offer Torque = 10 Nm to it. *)
Definition bracket_files (main : Document) : Runtime :=
  Demo.runtime
    [ (str "in/main.stp", main);
      (str "in/Bracket.stp", torque_document "Bracket");
      (str "in/Bracket-1.stp", torque_document "Bracket") ].

(** The directory [in] with the primary document [small_assembly] and an
    auxiliary document named after its root A. *)
Definition root_files : Runtime :=
  Demo.runtime
    [ (str "in/main.stp", small_assembly);
      (str "in/A.stp", torque_document "A") ].

(** The parser after [parse_batch] over the files of a runtime, and what
    [parse_batch] returned. *)
Definition run (files : Runtime) : BatchStepParser := (@parse_batch files parser).2.

Definition succeeded (files : Runtime) : bool := (@parse_batch files parser).1.

End Examples.

(* ====================================================================== *)
(** * Further vocabulary *)
(* ====================================================================== *)

Module Registry.
Import Parser.

Section WithRuntime.
Context `{Runtime}.

(** [node_type] as the loop of [process_main_assembly] chooses it (lines
    258 to 263). *)
Definition node_type_of (rels : list Relationship) (product_id : pystr)
    (product_info : ProductInfo) (component_annotations : list Annotation) : NodeType :=
  let has_children :=
    existsb (λ rel, bool_decide (parent_product_id rel = product_id)) rels in
  if has_children then ASSEMBLY
  else identify_component_type product_info component_annotations has_children.

(** The component the loop of [process_main_assembly] makes of the product
    number [index] (lines 264 to 273). *)
Definition component_of_product (main_path : pystr) (file_info : FileInfo)
    (product_annotations : list (pystr * list Annotation))
    (rels : list Relationship) (index : nat)
    (product : pystr * ProductInfo) : ComponentNode :=
  let component_annotations := default [] (dict_get product.1 product_annotations) in
  {| name := pi_name product.2;
     product_id := str "P" ++ decimal_05 index;
     source_file := main_path;
     node_type := node_type_of rels product.1 product.2 component_annotations;
     children := []; parent := None;
     annotations := component_annotations;
     geometry_info := None;
     file_info := file_info;
     original_product_id := product.1;
     annotation_files := [] |}.

End WithRuntime.
End Registry.

Module Ledger.
Import Parser Allocator Serializer.

(** The identifiers of an element that came from the allocator, in the
    order the serializer asked for them: those of the held elements before
    the one of the collection. The identifier of a file element is no
    allocator's ([AnnotationFile_<idx>]). *)
Fixpoint allocated_ids (e : Element) : list pystr :=
  match e with
  | Property id_short => [id_short]
  | Collection id_short value => flat_map allocated_ids value ++ [id_short]
  | File _ => []
  end.

(** The identifiers [ids] were handed out on the way from the ledger
    [used_ids] to the ledger [used_ids']: the ones that are not reserved
    labels were not in the ledger before, no two of them are equal, all of
    them are in the ledger afterwards, and the ledger gained nothing else
    than identifiers of [ids]. *)
Definition allocated (used_ids used_ids' : gset pystr) (ids : list pystr) : Prop :=
  NoDup (filter (λ id, id ∉ common_props) ids) ∧
  (∀ id, id ∈ ids → id ∉ common_props → id ∉ used_ids) ∧
  (∀ id, id ∈ used_ids → id ∈ used_ids') ∧
  (∀ id, id ∈ ids → id ∉ common_props → id ∈ used_ids') ∧
  (∀ id, id ∈ used_ids' → id ∈ used_ids ∨ id ∈ ids).

End Ledger.

(* ====================================================================== *)
(** * base/create_ent.py *)
(* ====================================================================== *)

Module Entities.

Definition max_length : nat := 1023.

(** [range(0, stop, step)] for a positive [step]. *)
Definition range_step (stop step : nat) : list nat :=
  (λ k, k * step) <$> seq 0 ((stop + step - 1) / step).

(** [s[i:j]] for [i <= j]. *)
Definition slice (i j : nat) (s : pystr) : pystr := take (j - i) (drop i s).

(** [create_description]: the text under ['en'] of the [LangStringSet] it
    returns, or [None]. The argument is [Some] text for a [str] and [None]
    for any other value; the serializer passes [None]. *)
Definition create_description (description_text : option pystr) : option pystr :=
  match description_text with
  | Some text =>
      match strip text with
      | [] => None
      | _ =>
          if bool_decide (max_length < length text) then
            let parts :=
              (λ i, slice i (i + max_length) text)
                <$> range_step (length text) max_length in
            Some (Parser.join_space parts)
          else Some text
      end
  | None => None
  end.

End Entities.

(* ====================================================================== *)
(** * base/eClass.py *)
(* ====================================================================== *)

Module EClass.

(** The columns of a row of [get_classes] that [get_IrdiCC_descr] reads. *)
Record ClassRow := mkClassRow {
  PreferredName : pystr;
  Definition_ : pystr;
  IrdiCC : pystr;
}.

(** The second component of what [get_IrdiCC_descr] returns: the list
    [[name, definition]] or the text that no identifier was found. *)
Inductive Descr :=
  | Described (name definition : pystr)
  | NotFound (message : pystr).

Section WithRuntime.
Context `{Runtime}.
(** [enchant.utils.levenshtein] *)
Variable levenshtein : pystr → pystr → nat.

(** The first loop of [get_IrdiCC_descr]: the row it returns from, or the
    rows of [index_similar_name] when it runs to its end. *)
Fixpoint scan_classes (class_name : pystr) (classes : list ClassRow)
    (index_similar_name : list ClassRow) : ClassRow + list ClassRow :=
  match classes with
  | [] => inr index_similar_name
  | row :: rest =>
      if bool_decide (str_lower class_name = str_lower (PreferredName row))
      then inl row
      else scan_classes class_name rest
             (if contains (str_lower class_name) (str_lower (PreferredName row))
              then index_similar_name ++ [row] else index_similar_name)
  end.

(** [l[np.argmin(distances)]]: the first element of least distance. *)
Fixpoint argmin_from (distance : ClassRow → nat) (best : ClassRow)
    (l : list ClassRow) : ClassRow :=
  match l with
  | [] => best
  | row :: rest =>
      argmin_from distance
        (if bool_decide (distance row < distance best) then row else best) rest
  end.

Definition get_IrdiCC_descr (classes : list ClassRow) (class_name : pystr)
    : pystr * Descr :=
  match scan_classes class_name classes [] with
  | inl row => (IrdiCC row, Described (PreferredName row) (Definition_ row))
  | inr [] =>
      (str "0000", NotFound (str "No semantic ID is found, please add it manually."))
  | inr (first :: others) =>
      let row :=
        argmin_from (λ row, levenshtein class_name (PreferredName row)) first others in
      (IrdiCC row, Described (PreferredName row) (Definition_ row))
  end.

End WithRuntime.
End EClass.

(* ====================================================================== *)
(** * Further worked examples *)
(* ====================================================================== *)

Module MoreExamples.
Import Parser Examples.

(** A product Motor Unit over the products M6 Screw and Bracket. *)
Definition drive_unit : Document :=
  structure_document
    [product "1" "Motor Unit"; product "2" "M6 Screw"; product "3" "Bracket"]
    [product_definition "11" "21"; product_definition "12" "22";
     product_definition "13" "23"]
    [formation "21" "1"; formation "22" "2"; formation "23" "3"]
    [usage "31" "11" "12"; usage "32" "11" "13"].

(** The path of the primary document of [parser]. *)
Definition main_path : pystr := str "in/main.stp".

(** [parser] after [process_main_assembly] alone. *)
Definition registered_parser (files : Runtime) : BatchStepParser :=
  (@process_main_assembly files main_path parser).2.

(** The directory [in] with the primary document [main] alone, and a
    geometry service that measures every file. *)
Definition measured (main : Document) : Runtime :=
  {| unicode_isalpha := Demo.latin1_isalpha;
     str_upper := Demo.ascii_upper;
     str_lower := Demo.ascii_lower;
     re_sub_dash_digits := Demo.drop_dash_digits;
     manufacturer_pattern_search := Demo.search_manufacturer;
     path_join := λ d f, d ++ str "/" ++ f;
     path_abspath := λ p, str "/" ++ p;
     path_exists := λ p, dict_mem p [(main_path, main)];
     path_basename := Demo.basename;
     path_splitext := Demo.splitext;
     glob_step_files := λ _, [main_path];
     load_file_content := λ p, default empty_document (dict_get p [(main_path, main)]);
     measure_geometry := λ _, Some (mkGeometryInfo true true) |}.

(** The nesting depth allowed in the examples. *)
Definition depth : nat := 8.

End MoreExamples.

(* ====================================================================== *)
(** * The identifier allocator: facts *)
(* ====================================================================== *)

Section AllocatorFacts.
Context `{Runtime}.
Import Allocator.

Lemma uint_digits_inj u v : uint_digits u = uint_digits v → u = v.
Proof.
  revert v. induction u; intros [] Heq; simpl in Heq; try discriminate;
    try reflexivity; f_equal; apply IHu; congruence.
Qed.

Lemma decimal_inj n m : decimal n = decimal m → n = m.
Proof.
  intros Heq. apply uint_digits_inj in Heq.
  rewrite <- (Unsigned.of_to n), <- (Unsigned.of_to m). by rewrite Heq.
Qed.

Lemma numbered_inj clean_id n m : numbered clean_id n = numbered clean_id m → n = m.
Proof.
  unfold numbered. intros Heq. apply app_inv_head in Heq.
  apply app_inv_head in Heq. by apply decimal_inj.
Qed.

Lemma uint_digits_id_char u : Forall (λ c, id_char c = true) (uint_digits u).
Proof. induction u; simpl; constructor; done. Qed.

Lemma while_used_spec fuel used_ids clean_id unique_id counter r :
  while_used fuel used_ids clean_id unique_id counter = Some r →
  (r ∉ used_ids) ∧
  (((unique_id ∉ used_ids) ∧ r = unique_id) ∨
   (unique_id ∈ used_ids ∧
    ∃ n, counter ≤ n ∧ r = numbered clean_id n ∧
         ∀ m, counter ≤ m < n → numbered clean_id m ∈ used_ids)).
Proof.
  revert unique_id counter. induction fuel as [|fuel IH]; intros unique_id counter; simpl.
  - case_bool_decide as Hin; [done|]. intros [= <-]. auto.
  - case_bool_decide as Hin.
    + intros Hr. apply IH in Hr as [Hfree Hr]. split; [done|]. right. split; [done|].
      destruct Hr as [[Hn ->]|[Hn (n & Hle & -> & Hbelow)]].
      * exists counter. split; [lia|]. split; [done|]. intros m ?. lia.
      * exists n. split; [lia|]. split; [done|]. intros m Hm.
        destruct (decide (m = counter)) as [->|]; [done|]. apply Hbelow. lia.
    + intros [= <-]. auto.
Qed.

Lemma while_used_None fuel used_ids clean_id unique_id counter :
  while_used fuel used_ids clean_id unique_id counter = None →
  ∀ m, counter ≤ m < counter + fuel → numbered clean_id m ∈ used_ids.
Proof.
  revert unique_id counter. induction fuel as [|fuel IH]; intros unique_id counter; simpl.
  - intros _ m ?. lia.
  - case_bool_decide as Hin; [|done]. intros Hnone m Hm.
    destruct fuel as [|fuel'].
    + simpl in Hnone. case_bool_decide; [|done]. by replace m with counter by lia.
    + destruct (decide (m = counter)) as [->|Hne].
      * simpl in Hnone. by case_bool_decide.
      * eapply IH; [exact Hnone|lia].
Qed.

(** The loop of [get_unique_id] ends within the bound the model gives it. *)
Lemma while_used_total used_ids clean_id unique_id counter :
  is_Some (while_used (S (size used_ids)) used_ids clean_id unique_id counter).
Proof.
  destruct (while_used _ _ _ _ _) eqn:Hw; [by eexists|]. exfalso.
  pose proof (while_used_None _ _ _ _ _ Hw) as Hall.
  set (l := numbered clean_id <$> seq counter (S (size used_ids))).
  assert (NoDup l) as Hnd.
  { apply NoDup_fmap_2; [|apply NoDup_seq]. intros n m. apply numbered_inj. }
  assert (list_to_set l ⊆ used_ids) as Hsub.
  { intros x Hx. apply elem_of_list_to_set in Hx. unfold l in Hx.
    apply list_elem_of_fmap in Hx as (n & -> & Hn). apply elem_of_seq in Hn.
    apply Hall. lia. }
  apply subseteq_size in Hsub. rewrite size_list_to_set in Hsub; [|done].
  unfold l in Hsub. rewrite length_fmap, length_seq in Hsub. lia.
Qed.


Lemma check_id_short_nonempty c s :
  ∃ r, check_id_short (c :: s) = Ok r.
Proof. simpl. by eexists. Qed.

Lemma check_id_short_empty : check_id_short [] = Raise IndexError.
Proof. done. Qed.

Lemma check_id_short_id_char s r :
  check_id_short s = Ok r → Forall (λ c, id_char c = true) r.
Proof.
  destruct s as [|c s]; [done|]. simpl. intros [= <-].
  unfold re_sub_non_id. apply Forall_fmap, Forall_forall. intros x _. simpl.
  destruct (id_char x) eqn:Hx; done.
Qed.

Lemma sanitized_inv base_id l :
  sanitized base_id = Ok l →
  ∃ clean_id, check_id_short base_id = Ok clean_id ∧
    l = match clean_id with [] => str "Component" | _ => clean_id end.
Proof.
  unfold sanitized. destruct (check_id_short base_id); simpl; [|done..].
  intros [= <-]. by eexists.
Qed.

Lemma sanitized_id_char base_id l :
  sanitized base_id = Ok l → Forall (λ c, id_char c = true) l.
Proof.
  intros (clean_id & Hc & ->)%sanitized_inv. destruct clean_id.
  - repeat constructor.
  - by eapply check_id_short_id_char.
Qed.

Lemma sanitized_nonempty c s : ∃ l, sanitized (c :: s) = Ok l.
Proof. unfold sanitized. simpl. by eexists. Qed.

Lemma sanitized_empty : sanitized [] = Raise IndexError.
Proof. done. Qed.

(** A request whose sanitized label is reserved. *)
Lemma get_unique_id_reserved base_id context_suffix used_ids l :
  sanitized base_id = Ok l → l ∈ common_props →
  get_unique_id base_id context_suffix used_ids = Ok (l, used_ids).
Proof.
  intros Hl Hin. unfold get_unique_id. rewrite Hl. cbn [rbind].
  by rewrite bool_decide_eq_true_2.
Qed.

Lemma retry_with_context_spec l context_suffix used_ids :
  ∃ unique_id,
    retry_with_context l context_suffix used_ids = Ok unique_id ∧
    (l ∉ used_ids → unique_id = l) ∧
    (∀ candidate, retry_candidate l context_suffix = Some candidate →
       candidate ∉ used_ids → l ∈ used_ids → unique_id = candidate) ∧
    ((∀ candidate, retry_candidate l context_suffix = Some candidate →
       candidate ∈ used_ids) → unique_id = l) ∧
    (unique_id = l ∨ retry_candidate l context_suffix = Some unique_id).
Proof.
  unfold retry_with_context, retry_candidate.
  case_bool_decide as Hin; simpl; [|naive_solver].
  destruct context_suffix as [[|c r]|]; simpl; [naive_solver| |naive_solver].
  case_bool_decide as Hcand.
  - eexists. split; [done|]. split; [done|]. split; [naive_solver|].
    split; [|by right]. intros Hall. exfalso. apply Hcand. by apply Hall.
  - exists l. split; [done|]. split; [done|]. split; [|by auto].
    by intros ? [= <-] ?.
Qed.

(** A request whose sanitized label is not reserved. *)
Lemma get_unique_id_fresh base_id context_suffix used_ids l :
  sanitized base_id = Ok l → l ∉ common_props →
  ∃ id, get_unique_id base_id context_suffix used_ids = Ok (id, {[id]} ∪ used_ids) ∧
    (id ∉ used_ids) ∧
    (l ∉ used_ids → id = l) ∧
    (l ∈ used_ids → ∀ candidate, retry_candidate l context_suffix = Some candidate →
       candidate ∉ used_ids → id = candidate) ∧
    (l ∈ used_ids →
       (∀ candidate, retry_candidate l context_suffix = Some candidate →
          candidate ∈ used_ids) →
       ∃ n, 1 ≤ n ∧ id = numbered l n ∧ ∀ m, 1 ≤ m < n → numbered l m ∈ used_ids) ∧
    (id = l ∨ retry_candidate l context_suffix = Some id ∨ ∃ n, id = numbered l n).
Proof.
  intros Hl Hres. unfold get_unique_id. rewrite Hl. cbn [rbind].
  rewrite bool_decide_eq_false_2 by done.
  destruct (retry_with_context_spec l context_suffix used_ids)
    as (unique_id & -> & Hfree & Hretry & Hnoretry & Hshape).
  cbn [rbind]. destruct (while_used_total used_ids l unique_id 1) as [id Hw].
  rewrite Hw. exists id. split; [done|].
  apply while_used_spec in Hw as [Hnew Hw]. split; [done|].
  split; [|split; [|split]].
  - intros Hl'. specialize (Hfree Hl'). subst unique_id. naive_solver.
  - intros Hin candidate Hcand Hcfree. specialize (Hretry _ Hcand Hcfree Hin).
    subst unique_id. naive_solver.
  - intros Hin Hall. specialize (Hnoretry Hall). subst unique_id.
    destruct Hw as [[? _]|[_ Hn]]; [done|]. done.
  - destruct Hw as [[_ ->]|[_ (n & _ & -> & _)]]; [|eauto]. naive_solver.
Qed.

Lemma get_unique_id_empty context_suffix used_ids :
  get_unique_id [] context_suffix used_ids = Raise IndexError.
Proof. done. Qed.

(** The identifiers the allocator returns use the safe characters only. *)
Lemma get_unique_id_id_char base_id context_suffix used_ids id used_ids' :
  get_unique_id base_id context_suffix used_ids = Ok (id, used_ids') →
  Forall (λ c, id_char c = true) id.
Proof.
  intros Hget. destruct base_id as [|c s]; [done|].
  destruct (sanitized_nonempty c s) as [l Hl].
  pose proof (sanitized_id_char _ _ Hl) as Hsafe.
  destruct (decide (l ∈ common_props)) as [Hres|Hres].
  - rewrite (get_unique_id_reserved _ _ _ _ Hl Hres) in Hget. by simplify_eq.
  - destruct (get_unique_id_fresh _ context_suffix used_ids _ Hl Hres)
      as (id' & Hget' & _ & _ & _ & _ & Hshape).
    rewrite Hget' in Hget. assert (id = id') as -> by congruence.
    destruct Hshape as [->|[Hretry|[n ->]]]; [done| |].
    + unfold retry_candidate in Hretry.
      destruct context_suffix as [[|c' r]|]; [done| |done].
      destruct (check_id_short (c' :: r)) eqn:Hsuf; [|done..].
      assert (id' = l ++ str "_" ++ a) as -> by congruence.
      apply Forall_app. split; [done|]. apply Forall_app. split; [by repeat constructor|].
      by eapply check_id_short_id_char.
    + unfold numbered. apply Forall_app. split; [done|]. apply Forall_app.
      split; [by repeat constructor|]. apply uint_digits_id_char.
Qed.


Lemma allocate_all_cons base_id context_suffix calls used_ids ids used_ids' :
  allocate_all ((base_id, context_suffix) :: calls) used_ids = Ok (ids, used_ids') →
  ∃ id used1 ids',
    get_unique_id base_id context_suffix used_ids = Ok (id, used1) ∧
    allocate_all calls used1 = Ok (ids', used_ids') ∧ ids = id :: ids'.
Proof.
  simpl. destruct (get_unique_id _ _ _) as [[id used1]| |]; simpl; [|done..].
  destruct (allocate_all calls used1) as [[ids' used2]| |] eqn:Hrest; simpl; [|done..].
  intros [= <- <-]. by exists id, used1, ids'.
Qed.

(** One call, by the kind of its request. *)
Lemma get_unique_id_by_kind base_id context_suffix used_ids id used_ids' :
  get_unique_id base_id context_suffix used_ids = Ok (id, used_ids') →
  if reserved_request base_id
  then sanitized base_id = Ok id ∧ used_ids' = used_ids
  else (id ∉ used_ids) ∧ used_ids' = {[id]} ∪ used_ids.
Proof.
  intros Hget. unfold reserved_request.
  destruct (sanitized base_id) as [l| |] eqn:Hl.
  - case_bool_decide as Hres.
    + rewrite (get_unique_id_reserved _ _ _ _ Hl Hres) in Hget.
      split; congruence.
    + destruct (get_unique_id_fresh _ context_suffix used_ids _ Hl Hres)
        as (id' & Hget' & Hnew & _).
      rewrite Hget' in Hget. split; congruence.
  - unfold get_unique_id in Hget. by rewrite Hl in Hget.
  - unfold get_unique_id in Hget. by rewrite Hl in Hget.
Qed.

Lemma allocate_all_spec calls used_ids ids used_ids' :
  allocate_all calls used_ids = Ok (ids, used_ids') →
  length ids = length calls ∧
  used_ids ⊆ used_ids' ∧
  (∀ i base_id context_suffix id,
     calls !! i = Some (base_id, context_suffix) → ids !! i = Some id →
     if reserved_request base_id then sanitized base_id = Ok id
     else (id ∉ used_ids) ∧ id ∈ used_ids') ∧
  (∀ x, x ∈ used_ids' →
     x ∈ used_ids ∨
     ∃ i base_id context_suffix,
       calls !! i = Some (base_id, context_suffix) ∧
       reserved_request base_id = false ∧ ids !! i = Some x) ∧
  (∀ i j bi ci bj cj idi idj,
     i < j →
     calls !! i = Some (bi, ci) → calls !! j = Some (bj, cj) →
     reserved_request bi = false → reserved_request bj = false →
     ids !! i = Some idi → ids !! j = Some idj → idi ≠ idj).
Proof.
  revert used_ids ids used_ids'.
  induction calls as [|[base_id context_suffix] calls IH]; intros used_ids ids used_ids'.
  - simpl. intros [= <- <-]. split; [done|]. split; [done|].
    split; [by intros ? ? ? ? [=]|]. split; [by left|]. by intros ? ? ? ? ? ? ? ? ? [=].
  - intros (id & used1 & ids' & Hget & Hrest & ->)%allocate_all_cons.
    apply IH in Hrest as (Hlen & Hsub & Hidx & Hledger & Hdist).
    pose proof (get_unique_id_by_kind _ _ _ _ _ Hget) as Hkind.
    assert (used_ids ⊆ used1) as Hsub1.
    { destruct (reserved_request base_id); destruct Hkind as [_ ->]; set_solver. }
    split; [simpl; by rewrite Hlen|]. split; [set_solver|].
    split; [|split].
    + intros [|i] b c x; simpl.
      * intros [= <- <-] [= <-]. destruct (reserved_request base_id); [tauto|].
        destruct Hkind as [Hnew ->]. split; [done|]. set_solver.
      * intros Hc Hi. specialize (Hidx _ _ _ _ Hc Hi).
        destruct (reserved_request b); [done|]. set_solver.
    + intros x Hx. apply Hledger in Hx as [Hx|(i & b & c & Hc & Hb & Hi)].
      * destruct (reserved_request base_id) eqn:Hr.
        -- destruct Hkind as [_ ->]. by left.
        -- destruct Hkind as [_ ->]. apply elem_of_union in Hx as [Hx|Hx]; [|by left].
           apply elem_of_singleton in Hx as ->. right.
           exists 0, base_id, context_suffix. done.
      * right. by exists (S i), b, c.
    + intros [|i] [|j] bi ci bj cj idi idj Hlt; simpl; try lia.
      * intros [= <- <-] Hcj Hri Hrj [= <-] Hj. rewrite Hri in Hkind.
        destruct Hkind as [_ ->]. specialize (Hidx _ _ _ _ Hcj Hj).
        rewrite Hrj in Hidx. destruct Hidx as [Hnotin _]. set_solver.
      * intros. eapply (Hdist i j); eauto. lia.
Qed.

Lemma common_props_sanitized l : l ∈ common_props → sanitized l = Ok l.
Proof.
  unfold common_props. rewrite !elem_of_cons, elem_of_nil.
  intros [->|[->|[->|[->|[->|[->|[]]]]]]]; reflexivity.
Qed.


(** C8 (as amended). Calls are told apart by their sanitized label. A call
    whose sanitized label is reserved (a reserved label is its own sanitized
    label) returns that label and leaves the ledger as it was. A call whose
    sanitized label is not reserved returns an identifier that was not in the
    ledger and enters it: the sanitized label itself when free; else the
    label with the sanitized context token appended, when there is a context
    token and that candidate is free; else the label with the least numeric
    suffix, counted from 1, that is free. In a run, any two calls whose
    sanitized labels are not reserved return distinct identifiers, and the
    ledger after the run holds the ledger before it and the identifiers of
    exactly those calls. *)
Theorem get_unique_id_distinct_per_sanitized_label :
  (∀ l, l ∈ common_props → sanitized l = Ok l) ∧
  (∀ base_id context_suffix used_ids l,
     sanitized base_id = Ok l →
     (l ∈ common_props →
        get_unique_id base_id context_suffix used_ids = Ok (l, used_ids)) ∧
     (l ∉ common_props →
        ∃ id,
          get_unique_id base_id context_suffix used_ids
            = Ok (id, {[id]} ∪ used_ids) ∧
          (id ∉ used_ids) ∧
          (l ∉ used_ids → id = l) ∧
          (l ∈ used_ids →
             ∀ candidate, retry_candidate l context_suffix = Some candidate →
                          candidate ∉ used_ids → id = candidate) ∧
          (l ∈ used_ids →
             (∀ candidate, retry_candidate l context_suffix = Some candidate →
                           candidate ∈ used_ids) →
             ∃ n, 1 ≤ n ∧ id = numbered l n ∧
                  ∀ m, 1 ≤ m < n → numbered l m ∈ used_ids))) ∧
  (∀ calls used_ids ids used_ids',
     allocate_all calls used_ids = Ok (ids, used_ids') →
     length ids = length calls ∧
     (∀ i j bi ci bj cj idi idj,
        i ≠ j →
        calls !! i = Some (bi, ci) → calls !! j = Some (bj, cj) →
        reserved_request bi = false → reserved_request bj = false →
        ids !! i = Some idi → ids !! j = Some idj → idi ≠ idj) ∧
     (∀ i base_id context_suffix id,
        calls !! i = Some (base_id, context_suffix) →
        reserved_request base_id = true →
        ids !! i = Some id → sanitized base_id = Ok id) ∧
     (∀ x, x ∈ used_ids' ↔
           x ∈ used_ids ∨
           ∃ i base_id context_suffix,
             calls !! i = Some (base_id, context_suffix) ∧
             reserved_request base_id = false ∧ ids !! i = Some x)).
Proof.
  split; [exact common_props_sanitized|]. split.
  - intros base_id context_suffix used_ids l Hl. split.
    + by apply get_unique_id_reserved.
    + intros Hres.
      destruct (get_unique_id_fresh _ context_suffix used_ids _ Hl Hres)
        as (id & Hget & Hnew & Hfree & Hretry & Hnum & _).
      by exists id.
  - intros calls used_ids ids used_ids' Hrun.
    destruct (allocate_all_spec _ _ _ _ Hrun) as (Hlen & Hsub & Hidx & Hledger & Hdist).
    split; [done|]. split; [|split].
    + intros i j bi ci bj cj idi idj Hne Hci Hcj Hri Hrj Hi Hj.
      destruct (decide (i < j)).
      * eapply (Hdist i j); eauto.
      * intros ->. eapply (Hdist j i); eauto. lia.
    + intros i base_id context_suffix id Hc Hr Hi.
      specialize (Hidx _ _ _ _ Hc Hi). by rewrite Hr in Hidx.
    + intros x. split; [apply Hledger|].
      intros [Hx|(i & b & c & Hc & Hr & Hi)]; [by apply Hsub|].
      specialize (Hidx _ _ _ _ Hc Hi). rewrite Hr in Hidx. tauto.
Qed.

(** C9. In one run, on any ledger and with any context tokens, the labels
    "Außenring-1" and "Aussenring" (in either order) both get an identifier,
    the two identifiers differ, and both consist of characters of
    [[A-Za-z0-9_]] only; on a fresh ledger they are "Au_enring_1" and
    "Aussenring". *)
Theorem aussenring_identifiers_distinct_and_safe :
  let aussenring_1 := str "Au" ++ [223%N] ++ str "enring-1" in
  let aussenring := str "Aussenring" in
  (∀ used_ids c1 c2,
     ∃ id1 id2 used_ids',
       allocate_all [(aussenring_1, c1); (aussenring, c2)] used_ids
         = Ok ([id1; id2], used_ids') ∧
       id1 ≠ id2 ∧
       Forall (λ c, id_char c = true) id1 ∧ Forall (λ c, id_char c = true) id2) ∧
  (∀ used_ids c1 c2,
     ∃ id1 id2 used_ids',
       allocate_all [(aussenring, c1); (aussenring_1, c2)] used_ids
         = Ok ([id1; id2], used_ids') ∧
       id1 ≠ id2 ∧
       Forall (λ c, id_char c = true) id1 ∧ Forall (λ c, id_char c = true) id2) ∧
  (∀ c1 c2,
     ∃ used_ids',
       allocate_all [(aussenring_1, c1); (aussenring, c2)] ∅
         = Ok ([str "Au_enring_1"; str "Aussenring"], used_ids')).
Proof.
  intros aussenring_1 aussenring.
  assert (sanitized aussenring_1 = Ok (str "Au_enring_1")) as Hs1 by reflexivity.
  assert (sanitized aussenring = Ok (str "Aussenring")) as Hs2 by reflexivity.
  assert (str "Au_enring_1" ∉ common_props) as Hr1
    by (apply (bool_decide_unpack _); by vm_compute).
  assert (str "Aussenring" ∉ common_props) as Hr2
    by (apply (bool_decide_unpack _); by vm_compute).
  assert (∀ b1 b2 l1 l2 c1 c2 used_ids,
    sanitized b1 = Ok l1 → sanitized b2 = Ok l2 →
    l1 ∉ common_props → l2 ∉ common_props →
    ∃ id1 id2 used_ids',
      allocate_all [(b1, c1); (b2, c2)] used_ids = Ok ([id1; id2], used_ids') ∧
      id1 ≠ id2 ∧
      Forall (λ c, id_char c = true) id1 ∧ Forall (λ c, id_char c = true) id2 ∧
      (l1 ∉ used_ids → id1 = l1) ∧ (l2 ∉ {[id1]} ∪ used_ids → id2 = l2)) as Hpair.
  { intros b1 b2 l1 l2 c1 c2 used_ids Hl1 Hl2 Hn1 Hn2.
    destruct (get_unique_id_fresh _ c1 used_ids _ Hl1 Hn1)
      as (id1 & Hget1 & Hnew1 & Hfree1 & _).
    destruct (get_unique_id_fresh _ c2 ({[id1]} ∪ used_ids) _ Hl2 Hn2)
      as (id2 & Hget2 & Hnew2 & Hfree2 & _).
    exists id1, id2, ({[id2]} ∪ ({[id1]} ∪ used_ids)).
    split; [simpl; rewrite Hget1; simpl; rewrite Hget2; done|].
    split; [set_solver|].
    split; [by eapply get_unique_id_id_char|].
    split; [by eapply get_unique_id_id_char|]. done. }
  split; [|split].
  - intros used_ids c1 c2.
    destruct (Hpair _ _ _ _ c1 c2 used_ids Hs1 Hs2 Hr1 Hr2)
      as (id1 & id2 & u & ? & ? & ? & ? & _). by exists id1, id2, u.
  - intros used_ids c1 c2.
    destruct (Hpair _ _ _ _ c1 c2 used_ids Hs2 Hs1 Hr2 Hr1)
      as (id1 & id2 & u & ? & ? & ? & ? & _). by exists id1, id2, u.
  - intros c1 c2.
    destruct (Hpair _ _ _ _ c1 c2 ∅ Hs1 Hs2 Hr1 Hr2)
      as (id1 & id2 & u & Hrun & _ & _ & _ & H1 & H2).
    rewrite H1 in * by set_solver.
    rewrite H2 in Hrun.
    + by exists u.
    + rewrite elem_of_union, elem_of_singleton. intros [Heq|Hin]; [|set_solver].
      by apply (f_equal length) in Heq.
Qed.

End AllocatorFacts.

(** C8, a run that meets the hypotheses: a label asked for three times, with
    and without a context token, and a reserved label in between. *)
Lemma get_unique_id_distinct_per_sanitized_label_witness :
  ∃ used_ids',
    @Allocator.allocate_all (Demo.runtime [])
      [ (str "Torque", None); (str "Torque", Some (str "P00001"));
        (str "Level", None); (str "Torque", Some (str "P00001")) ] ∅
    = Ok ([str "Torque"; str "Torque_P00001"; str "Level"; str "Torque_1"], used_ids')
    ∧ str "Torque" ≠ str "Torque_P00001"
    ∧ str "Torque_P00001" ≠ str "Torque_1".
Proof.
  eexists. split; [vm_compute; reflexivity|].
  destruct (@get_unique_id_distinct_per_sanitized_label (Demo.runtime []))
    as (_ & _ & Hrun).
  edestruct (Hrun [ (str "Torque", None); (str "Torque", Some (str "P00001"));
                    (str "Level", None); (str "Torque", Some (str "P00001")) ] ∅)
    as (_ & Hdistinct & _); [vm_compute; reflexivity|].
  split.
  - apply (Hdistinct 0 1 (str "Torque") None (str "Torque") (Some (str "P00001")));
      [lia|reflexivity..].
  - apply (Hdistinct 1 3 (str "Torque") (Some (str "P00001"))
             (str "Torque") (Some (str "P00001"))); [lia|reflexivity..].
Defined.

(** C8 as stated fails: "Product ID" is not a reserved label, and two calls
    for it return one identifier, the reserved "Product_ID". *)
Lemma get_unique_id_unreserved_label_repeats :
  str "Product ID" ∉ Allocator.common_props ∧
  @Allocator.allocate_all (Demo.runtime [])
    [ (str "Product ID", None); (str "Product ID", None) ] ∅
  = Ok ([str "Product_ID"; str "Product_ID"], ∅).
Proof.
  split; [apply (bool_decide_unpack _); by vm_compute|].
  vm_compute. reflexivity.
Qed.

(* ====================================================================== *)
(** * Serializing a component without a name *)
(* ====================================================================== *)

Section SerializerFacts.
Context `{Runtime}.
Import Parser Allocator Serializer.

Lemma bind_is_ok {A B} (m : M A) (k : A → M B) used_ids :
  is_ok ((m ≫= k) used_ids) = true →
  ∃ a used_ids', m used_ids = Ok (a, used_ids') ∧ is_ok (k a used_ids') = true.
Proof.
  unfold mbind, M_bind. destruct (m used_ids) as [[a used_ids']| |]; simpl; [|done..].
  intros Hk. by exists a, used_ids'.
Qed.

Lemma bind_Ok {A B} (m : M A) (k : A → M B) used_ids r :
  (m ≫= k) used_ids = Ok r →
  ∃ a used_ids', m used_ids = Ok (a, used_ids') ∧ k a used_ids' = Ok r.
Proof.
  unfold mbind, M_bind. destruct (m used_ids) as [[a used_ids']| |]; simpl; [|done..].
  intros Hk. by exists a, used_ids'.
Qed.

Lemma mapM_Ok {A B} (f : A → M B) l used_ids r x :
  mapM f l used_ids = Ok r → x ∈ l →
  ∃ used_ids', is_ok (f x used_ids') = true.
Proof.
  revert used_ids r. induction l as [|a l IH]; intros used_ids r Hok Hx.
  - by apply elem_of_nil in Hx.
  - simpl in Hok. apply bind_Ok in Hok as (b & used1 & Hb & Hok).
    apply elem_of_cons in Hx as [->|Hx].
    + exists used_ids. by rewrite Hb.
    + apply bind_Ok in Hok as (bs & used2 & Hbs & _). by apply (IH used1 _ Hbs).
Qed.

Lemma replace_from_0_head old new c s :
  (∃ c' s', replace_from 0 old new (c :: s) = c' :: s' ∧
    (c' = c ∨ (is_prefix old (c :: s) = true ∧ head new = Some c'))) ∨
  (is_prefix old (c :: s) = true ∧ new = []).
Proof.
  simpl (replace_from _ _ _ _).
  destruct (is_prefix old (c :: s)) eqn:Hp.
  - destruct new as [|n new']; [by right|]. left. eexists _, _.
    split; [done|]. right. done.
  - left. eexists _, _. split; [done|]. by left.
Qed.

Lemma is_prefix_singleton a c s : is_prefix [a] (c :: s) = bool_decide (a = c).
Proof. simpl. by rewrite andb_true_r. Qed.

(** A replacement keeps the first character out of the deleted ones when it
    writes a text that starts with none of them, or deletes one of them. *)
Definition keeps_head (entry : pystr * pystr) : bool :=
  match entry.2, entry.1 with
  | n :: _, _ => negb (deleted_char n)
  | [], [a] => deleted_char a
  | [], _ => false
  end.

Lemma str_replace_head old new c s :
  keeps_head (old, new) = true → deleted_char c = false →
  ∃ c' s', str_replace old new (c :: s) = c' :: s' ∧ deleted_char c' = false.
Proof.
  intros Hkeep Hc. unfold str_replace.
  destruct (replace_from_0_head old new c s) as [(c' & s' & -> & Hc')|[Hp ->]].
  - exists c', s'. split; [done|].
    destruct Hc' as [->|[_ Hh]]; [done|].
    destruct new as [|n new']; [done|]. simpl in Hh.
    assert (n = c') as <- by congruence.
    unfold keeps_head in Hkeep. simpl in Hkeep. by destruct (deleted_char n).
  - unfold keeps_head in Hkeep. simpl in Hkeep.
    destruct old as [|a [|]]; [done| |done]. rewrite is_prefix_singleton in Hp.
    apply bool_decide_eq_true_1 in Hp as ->. congruence.
Qed.

Lemma foldl_replace_head dict c s :
  forallb keeps_head dict = true → deleted_char c = false →
  ∃ c' s',
    foldl (λ result '(word, replacement), str_replace word replacement result)
          (c :: s) dict = c' :: s' ∧ deleted_char c' = false.
Proof.
  revert c s. induction dict as [|[old new] dict IH]; intros c s Hall Hc.
  - by exists c, s.
  - simpl in Hall. apply andb_true_iff in Hall as [Hkeep Hall].
    destruct (str_replace_head old new c s Hkeep Hc) as (c1 & s1 & Heq & Hc1).
    cbn [foldl]. rewrite Heq. by apply IH.
Qed.

Lemma replace_str_head c s :
  deleted_char c = false →
  ∃ c' s', replace_str (c :: s) = c' :: s' ∧ deleted_char c' = false.
Proof. intros Hc. by apply foldl_replace_head. Qed.

Lemma check_id_short_not_empty s r : check_id_short s = Ok r → r ≠ [].
Proof.
  destruct s as [|c s]; [done|]. simpl. intros [= <-].
  destruct (isalpha c) eqn:Halpha.
  - assert (deleted_char c = false) as Hc.
    { destruct (deleted_char c) eqn:Hdel; [exfalso|done].
      unfold deleted_char in Hdel. apply bool_decide_eq_true_1 in Hdel.
      rewrite !elem_of_cons, elem_of_nil in Hdel.
      destruct Hdel as [->|[->|[->|[->|[->|[->|[->|[->|[]]]]]]]]]; done. }
    destruct (replace_str_head c s Hc) as (c' & s' & -> & _). done.
  - done.
Qed.


Lemma create_component_smc_unnamed depth st comp level used_ids :
  name_at (heap st) comp = [] →
  is_ok (create_component_smc depth st comp level used_ids) = false.
Proof.
  intros Hname. destruct depth as [|depth]; [done|]. simpl.
  unfold name_at in Hname.
  destruct (heap st !! comp) as [component|] eqn:Hcomp; [|done].
  simpl in Hname. apply not_true_is_false. intros Hok.
  apply bind_is_ok in Hok as (elements & used1 & _ & Hok).
  apply bind_is_ok in Hok as (children_smc & used2 & _ & Hok).
  apply bind_is_ok in Hok as (unique_name & used3 & Hget & _).
  by rewrite Hname in Hget.
Qed.

(** A component fails to serialize when one of its children does. *)
Lemma create_component_smc_child st p c :
  child_of (heap st) p c →
  (∀ depth level used_ids,
     is_ok (create_component_smc depth st c level used_ids) = false) →
  ∀ depth level used_ids,
    is_ok (create_component_smc depth st p level used_ids) = false.
Proof.
  intros Hchild Hc depth level used_ids. destruct depth as [|depth]; [done|].
  simpl. unfold child_of, children_at in Hchild.
  destruct (heap st !! p) as [component|] eqn:Hcomp; [|done].
  simpl in Hchild. apply not_true_is_false. intros Hok.
  apply bind_is_ok in Hok as (elements & used1 & _ & Hok).
  apply bind_is_ok in Hok as (children_smc & used2 & Hchildren & _).
  destruct (children component) as [|c0 cs]; [by apply elem_of_nil in Hchild|].
  apply bind_Ok in Hchildren as (child_elements & used3 & Hmap & _).
  destruct (mapM_Ok (λ child, create_component_smc depth st child (S level))
              (c0 :: cs) used1 _ c Hmap Hchild) as [used4 Hok4].
  by rewrite Hc in Hok4.
Qed.

Lemma create_component_smc_descendant st a b :
  rtc (child_of (heap st)) a b → name_at (heap st) b = [] →
  ∀ depth level used_ids,
    is_ok (create_component_smc depth st a level used_ids) = false.
Proof.
  induction 1 as [b|a c b Hchild _ IH]; intros Hname.
  - intros. by apply create_component_smc_unnamed.
  - apply (create_component_smc_child st a c Hchild). by apply IH.
Qed.

(** The tree does not serialize when a component below its root has no
    name. *)
Lemma create_assembly_submodel_unnamed st root comp depth used_ids :
  assembly_tree st = Some root →
  tc (child_of (heap st)) root comp → name_at (heap st) comp = [] →
  is_ok (create_assembly_submodel depth st used_ids) = false.
Proof.
  intros Htree Hpath Hname. unfold create_assembly_submodel. rewrite Htree.
  assert (∃ c, child_of (heap st) root c ∧ rtc (child_of (heap st)) c comp)
    as (c & Hchild & Hrest).
  { inversion Hpath as [? ? Hstep|? c ? Hstep Hrest]; subst.
    - by exists comp.
    - exists c. split; [done|]. by apply tc_rtc. }
  pose proof (create_component_smc_descendant st c comp Hrest Hname) as Hc.
  unfold child_of, children_at in Hchild.
  destruct (heap st !! root) as [tree|] eqn:Hroot; [|done].
  simpl in Hchild. apply not_true_is_false. intros Hok.
  apply bind_is_ok in Hok as (root_elements & used1 & _ & Hok).
  apply bind_is_ok in Hok as (main_info & used2 & _ & Hok).
  apply bind_is_ok in Hok as (children_smc & used3 & Hchildren & _).
  destruct (children tree) as [|c0 cs]; [by apply elem_of_nil in Hchild|].
  apply bind_Ok in Hchildren as (child_elements & used4 & Hmap & _).
  destruct (mapM_Ok (λ child, create_component_smc depth st child 1)
              (c0 :: cs) used2 _ c Hmap Hchild) as [used5 Hok5].
  by rewrite Hc in Hok5.
Qed.

End SerializerFacts.

(* ====================================================================== *)
(** * Merging annotations *)
(* ====================================================================== *)

Section MergeFacts.
Import Parser.

Lemma same_pair_elem_of (ann : Annotation) (existing : list Annotation) :
  existsb (λ existing_ann,
             bool_decide (ann_name existing_ann = ann_name ann)
             && bool_decide (ann_description existing_ann = ann_description ann))
          existing
  = bool_decide (ann ∈ existing).
Proof.
  induction existing as [|e existing IH]; [done|]. cbn [existsb]. rewrite IH.
  assert (bool_decide (ann_name e = ann_name ann)
          && bool_decide (ann_description e = ann_description ann)
          = bool_decide (ann = e)) as ->.
  { destruct e as [n d], ann as [n' d']; simpl.
    repeat case_bool_decide; simplify_eq; done. }
  repeat case_bool_decide; simpl; try done; exfalso; set_solver.
Qed.

Lemma merge_annotations_cons existing ann rest :
  merge_annotations existing (ann :: rest) =
  if bool_decide (ann ∈ existing) then merge_annotations existing rest
  else merge_annotations (existing ++ [ann]) rest.
Proof. simpl. by rewrite same_pair_elem_of. Qed.

(** The merge appends to the list, and what it appends is new, taken from
    the candidates, and holds no annotation twice. *)
Lemma merge_annotations_appends existing candidates :
  ∃ added,
    merge_annotations existing candidates = existing ++ added ∧
    NoDup added ∧
    (∀ ann, ann ∈ added ↔ ann ∈ candidates ∧ ann ∉ existing).
Proof.
  revert existing. induction candidates as [|ann rest IH]; intros existing.
  - exists []. rewrite app_nil_r. split; [done|]. split; [constructor|].
    intros x. rewrite !elem_of_nil. tauto.
  - rewrite merge_annotations_cons. case_bool_decide as Hin.
    + destruct (IH existing) as (added & -> & Hnd & Hadded).
      exists added. split; [done|]. split; [done|]. intros x.
      rewrite Hadded, elem_of_cons. split; [tauto|].
      intros [[->|Hx] Hnot]; tauto.
    + destruct (IH (existing ++ [ann])) as (added & -> & Hnd & Hadded).
      exists (ann :: added). rewrite <- app_assoc. split; [done|]. split.
      * constructor; [|done]. intros [_ Hnot]%Hadded. apply Hnot.
        apply elem_of_app. right. by apply list_elem_of_singleton.
      * intros x. rewrite !elem_of_cons, Hadded, elem_of_app, list_elem_of_singleton.
        destruct (decide (x = ann)) as [->|Hne]; tauto.
Qed.

Lemma elem_of_merge_annotations existing candidates ann :
  ann ∈ merge_annotations existing candidates ↔ ann ∈ existing ∨ ann ∈ candidates.
Proof.
  destruct (merge_annotations_appends existing candidates) as (added & -> & _ & Hadded).
  rewrite elem_of_app, Hadded. destruct (decide (ann ∈ existing)); tauto.
Qed.

(** Candidates that are all present change nothing. *)
Lemma merge_annotations_absorbed existing candidates :
  (∀ ann, ann ∈ candidates → ann ∈ existing) →
  merge_annotations existing candidates = existing.
Proof.
  induction candidates as [|ann rest IH]; intros Hall; [done|].
  rewrite merge_annotations_cons, bool_decide_eq_true_2 by set_solver.
  apply IH. set_solver.
Qed.

Lemma merge_annotations_idempotent existing candidates :
  merge_annotations (merge_annotations existing candidates) candidates
  = merge_annotations existing candidates.
Proof.
  apply merge_annotations_absorbed. intros ann Hin.
  apply elem_of_merge_annotations. by right.
Qed.

Lemma count_occ_NoDup (l : list Annotation) ann :
  NoDup l → count_occ Annotation_eq_dec l ann = if bool_decide (ann ∈ l) then 1 else 0.
Proof.
  induction 1 as [|x l Hx Hnd IH]; [done|]. simpl.
  destruct (Annotation_eq_dec x ann) as [->|Hne].
  - rewrite bool_decide_eq_true_2 by set_solver. rewrite IH.
    by rewrite bool_decide_eq_false_2.
  - rewrite IH. repeat case_bool_decide; set_solver.
Qed.

(** The number of copies of an annotation after a merge. *)
Lemma count_occ_merge_annotations existing candidates ann :
  count_occ Annotation_eq_dec (merge_annotations existing candidates) ann =
  if bool_decide (ann ∈ existing) then count_occ Annotation_eq_dec existing ann
  else if bool_decide (ann ∈ candidates) then 1 else 0.
Proof.
  destruct (merge_annotations_appends existing candidates) as (added & -> & Hnd & Hadded).
  rewrite count_occ_app, (count_occ_NoDup added) by done.
  destruct (decide (ann ∈ existing)) as [Hex|Hex].
  - rewrite (bool_decide_eq_true_2 (ann ∈ existing)) by done.
    rewrite bool_decide_eq_false_2; [lia|]. rewrite Hadded. tauto.
  - rewrite (bool_decide_eq_false_2 (ann ∈ existing)) by done.
    assert (count_occ Annotation_eq_dec existing ann = 0) as ->.
    { apply count_occ_not_In. by rewrite <- list_elem_of_In. }
    destruct (decide (ann ∈ candidates)) as [Hc|Hc].
    + rewrite !bool_decide_eq_true_2; [done..|]. by apply Hadded.
    + rewrite !bool_decide_eq_false_2; [done..|]. rewrite Hadded. tauto.
Qed.

Lemma merge_annotations_NoDup existing candidates :
  NoDup existing → NoDup (merge_annotations existing candidates).
Proof.
  intros Hnd.
  destruct (merge_annotations_appends existing candidates) as (added & -> & Hnd' & Hadded).
  apply NoDup_app. split; [done|]. split; [|done].
  intros x Hx Hx'. apply Hadded in Hx'. tauto.
Qed.

End MergeFacts.

(* ====================================================================== *)
(** * The annotation supplementer *)
(* ====================================================================== *)

Section SupplementFacts.
Context `{Runtime}.
Import Parser.

(** One round of the supplementer, by what the file contributes. *)
Lemma supplement_from_file_heap main_path filename st :
  heap (supplement_from_file main_path filename st) =
  match contribution main_path filename st with
  | Some (comp, all_file_annotations) =>
      alter (merge_file filename all_file_annotations) comp (heap st)
  | None => heap st
  end.
Proof.
  unfold supplement_from_file, contribution.
  destruct (match main_path with Some (c :: r) => _ | _ => false end); [done|].
  destruct (file_annotations _ _) as [anns|]; [|done].
  destruct (matching_component st filename) as [comp|]; [|done].
  simpl. by rewrite list_alter_alter_eq.
Qed.

(** The supplementer reads and writes no field of the parser but [heap] and
    [annotation_files]. *)
Lemma supplement_from_file_frame main_path filename st :
  let st' := supplement_from_file main_path filename st in
  input_directory st' = input_directory st ∧
  main_assembly_file st' = main_assembly_file st ∧
  enable_annotation_fallback st' = enable_annotation_fallback st ∧
  extract_root_geometry st' = extract_root_geometry st ∧
  all_components st' = all_components st ∧
  standard_parts st' = standard_parts st ∧
  assembly_relationships st' = assembly_relationships st ∧
  processed_files st' = processed_files st ∧
  assembly_tree st' = assembly_tree st ∧
  component_name_index st' = component_name_index st.
Proof.
  unfold supplement_from_file.
  destruct (match main_path with Some (c :: r) => _ | _ => false end); [done|].
  destruct (file_annotations _ _) as [anns|]; [|done].
  destruct (matching_component st filename) as [comp|]; done.
Qed.

Lemma contribution_supplement_from_file main_path filename filename' st :
  contribution main_path filename' (supplement_from_file main_path filename st)
  = contribution main_path filename' st.
Proof.
  destruct (supplement_from_file_frame main_path filename st)
    as (_ & _ & Hfb & _ & _ & _ & _ & _ & Htree & Hidx).
  unfold contribution, matching_component. by rewrite Hfb, Htree, Hidx.
Qed.

Lemma skeleton_merge_file filename anns node :
  skeleton (merge_file filename anns node) = skeleton node.
Proof. unfold merge_file. by case_bool_decide. Qed.

(** The supplementer changes nothing of a component but its annotations
    and its annotation files. *)
Lemma supplement_from_file_skeleton main_path filename st :
  skeleton <$> heap (supplement_from_file main_path filename st)
  = skeleton <$> heap st.
Proof.
  rewrite supplement_from_file_heap.
  destruct (contribution main_path filename st) as [[comp anns]|]; [|done].
  apply list_eq. intros i. rewrite !list_lookup_fmap.
  destruct (decide (i = comp)) as [->|Hne].
  - rewrite list_lookup_alter_eq.
    destruct (heap st !! comp); simpl; [|done]. by rewrite skeleton_merge_file.
  - by rewrite list_lookup_alter_ne.
Qed.

(** A file is absorbed by a component that holds all its annotations and
    lists it among its annotation files. *)
Definition absorbed (filename : pystr) (anns : list Annotation) (node : ComponentNode) : Prop :=
  (∀ ann, ann ∈ anns → ann ∈ annotations node) ∧ filename ∈ annotation_files node.

Lemma merge_file_absorbed filename anns node :
  absorbed filename anns node → merge_file filename anns node = node.
Proof.
  intros [Hanns Hfile]. destruct node. unfold merge_file. simpl in *.
  rewrite bool_decide_eq_true_2 by done.
  by rewrite merge_annotations_absorbed.
Qed.

Lemma absorbed_merge_file filename anns node :
  absorbed filename anns (merge_file filename anns node).
Proof.
  unfold absorbed, merge_file. simpl. case_bool_decide as Hin; simpl.
  - split; [|done]. intros ann Hann. apply elem_of_merge_annotations. by right.
  - split.
    + intros ann Hann. apply elem_of_merge_annotations. by right.
    + apply elem_of_app. right. by apply list_elem_of_singleton.
Qed.

Lemma absorbed_merge_file_other filename anns filename' anns' node :
  absorbed filename anns node →
  absorbed filename anns (merge_file filename' anns' node).
Proof.
  intros [Hanns Hfile]. unfold absorbed, merge_file. simpl.
  case_bool_decide; simpl.
  - split; [|done]. intros ann Hann. apply elem_of_merge_annotations. auto.
  - split.
    + intros ann Hann. apply elem_of_merge_annotations. auto.
    + apply elem_of_app. by left.
Qed.

(** The state has absorbed a file when the component it contributes to has. *)
Definition absorbed_in (main_path : option pystr) (filename : pystr)
    (st : BatchStepParser) : Prop :=
  ∀ comp anns node,
    contribution main_path filename st = Some (comp, anns) →
    heap st !! comp = Some node → absorbed filename anns node.

Lemma supplement_from_file_absorbed main_path filename st :
  absorbed_in main_path filename st →
  heap (supplement_from_file main_path filename st) = heap st.
Proof.
  intros Habs. rewrite supplement_from_file_heap.
  destruct (contribution main_path filename st) as [[comp anns]|] eqn:Hc; [|done].
  apply list_eq. intros i. destruct (decide (i = comp)) as [->|Hne].
  - rewrite list_lookup_alter_eq. destruct (heap st !! comp) as [node|] eqn:Hn; [|done].
    simpl. f_equal. apply merge_file_absorbed. by eapply Habs.
  - by rewrite list_lookup_alter_ne.
Qed.

Lemma absorbed_in_supplement_from_file main_path filename st :
  absorbed_in main_path filename (supplement_from_file main_path filename st).
Proof.
  intros comp anns node. rewrite contribution_supplement_from_file.
  rewrite supplement_from_file_heap. intros ->.
  rewrite list_lookup_alter_eq. destruct (heap st !! comp); [|done]. simpl.
  intros [= <-]. apply absorbed_merge_file.
Qed.

Lemma absorbed_in_supplement_from_file_other main_path filename filename' st :
  absorbed_in main_path filename st →
  absorbed_in main_path filename (supplement_from_file main_path filename' st).
Proof.
  intros Habs comp anns node. rewrite contribution_supplement_from_file.
  rewrite supplement_from_file_heap. intros Hc.
  destruct (contribution main_path filename' st) as [[comp' anns']|]; [|by apply Habs].
  destruct (decide (comp = comp')) as [->|Hne].
  - rewrite list_lookup_alter_eq. destruct (heap st !! comp') as [node0|] eqn:Hn; [|done].
    simpl. intros [= <-]. apply absorbed_merge_file_other. by eapply Habs.
  - rewrite list_lookup_alter_ne by done. by apply Habs.
Qed.

Lemma absorbed_in_foldl main_path filename files st :
  absorbed_in main_path filename st →
  absorbed_in main_path filename
    (foldl (λ st filename, supplement_from_file main_path filename st) st files).
Proof.
  revert st. induction files as [|f files IH]; intros st Habs; [done|].
  simpl. apply IH. by apply absorbed_in_supplement_from_file_other.
Qed.

Lemma main_path_of_foldl main_path files st :
  main_path_of (foldl (λ st filename, supplement_from_file main_path filename st) st files)
  = main_path_of st.
Proof.
  revert st. induction files as [|f files IH]; intros st; [done|].
  simpl. rewrite IH. unfold main_path_of.
  destruct (supplement_from_file_frame main_path f st) as (-> & -> & _). done.
Qed.

(** Processing a file once more, right away or after other files, leaves
    every component as it was. *)
Lemma supplement_again files1 filename files2 st :
  heap (supplement_annotations_from_files (files1 ++ filename :: files2 ++ [filename]) st)
  = heap (supplement_annotations_from_files (files1 ++ filename :: files2) st).
Proof.
  unfold supplement_annotations_from_files.
  set (mp := main_path_of st).
  rewrite (app_comm_cons files2 [filename]), (app_assoc files1), foldl_app. simpl.
  apply supplement_from_file_absorbed.
  rewrite foldl_app. simpl. apply absorbed_in_foldl.
  apply absorbed_in_supplement_from_file.
Qed.

End SupplementFacts.

(* ====================================================================== *)
(** * Registering the components of the primary document *)
(* ====================================================================== *)

Section Numbering.

(** The number a string of decimal digits stands for. *)
Definition digit_step (acc : nat) (c : N) : nat := N.to_nat c - 48 + 10 * acc.

Lemma foldl_digit_step_uint u acc :
  foldl digit_step acc (uint_digits u) = Nat.of_uint_acc u acc.
Proof.
  revert acc. induction u; intros acc; cbn [uint_digits foldl Nat.of_uint_acc];
    [done|rewrite IHu; f_equal; rewrite Nat.tail_mul_spec; unfold digit_step..].
  all: match goal with
       | |- N.to_nat ?c - 48 + _ = _ =>
           let v := eval vm_compute in (N.to_nat c - 48) in
           change (N.to_nat c - 48) with v
       end; lia.
Qed.

Lemma foldl_digit_step_zeros k : foldl digit_step 0 (replicate k 48%N) = 0.
Proof.
  induction k; [done|]. cbn [replicate foldl].
  by change (digit_step 0 48%N) with 0.
Qed.

Lemma decimal_05_value n : foldl digit_step 0 (decimal_05 n) = n.
Proof.
  unfold decimal_05, decimal. rewrite foldl_app, foldl_digit_step_zeros.
  rewrite foldl_digit_step_uint. apply Unsigned.of_to.
Qed.

Lemma decimal_05_inj n m : decimal_05 n = decimal_05 m → n = m.
Proof.
  intros Heq. rewrite <- (decimal_05_value n), <- (decimal_05_value m).
  by rewrite Heq.
Qed.

Lemma product_id_of_inj n m :
  Parser.product_id_of n = Parser.product_id_of m → n = m.
Proof.
  unfold Parser.product_id_of. intros Heq. apply app_inv_head in Heq.
  by apply decimal_05_inj.
Qed.

End Numbering.

Section DictFacts.
Context {V : Type}.
Implicit Types (d : list (pystr * V)) (k : pystr) (v : V).

Lemma dict_get_None k d : dict_get k d = None ↔ k ∉ d.*1.
Proof.
  induction d as [|[k' v'] d IH]; simpl.
  - split; [intros _; apply not_elem_of_nil|done].
  - destruct (decide (k' = k)) as [->|Hne].
    + split; [done|]. intros Hn. exfalso. apply Hn. apply elem_of_cons. by left.
    + rewrite IH, not_elem_of_cons. naive_solver.
Qed.

Lemma dict_mem_true k d : dict_mem k d = true ↔ k ∈ d.*1.
Proof.
  unfold dict_mem. destruct (dict_get k d) eqn:Hget.
  - split; [|done]. intros _. destruct (decide (k ∈ d.*1)) as [|Hn]; [done|].
    apply dict_get_None in Hn. congruence.
  - split; [done|]. intros Hin. by apply dict_get_None in Hget.
Qed.

Lemma dict_set_fresh k v d : k ∉ d.*1 → dict_set k v d = d ++ [(k, v)].
Proof.
  induction d as [|[k' v'] d IH]; simpl; [done|].
  rewrite not_elem_of_cons. intros [Hne Hk]. rewrite decide_False by done.
  by rewrite IH.
Qed.

Lemma dict_set_keys k v d :
  (dict_set k v d).*1 = if bool_decide (k ∈ d.*1) then d.*1 else d.*1 ++ [k].
Proof.
  induction d as [|[k' v'] d IH]; [done|]. cbn [dict_set].
  destruct (decide (k' = k)) as [->|Hne].
  - rewrite bool_decide_eq_true_2; [done|]. apply elem_of_cons. by left.
  - rewrite !fmap_cons, IH. cbn [fst]. destruct (decide (k ∈ d.*1)) as [Hin|Hin].
    + rewrite !bool_decide_eq_true_2; [done| |done]. apply elem_of_cons. by right.
    + rewrite !bool_decide_eq_false_2; [done| |done].
      rewrite not_elem_of_cons. done.
Qed.

Lemma dict_set_keys_NoDup k v d : NoDup d.*1 → NoDup (dict_set k v d).*1.
Proof.
  intros Hnd. rewrite dict_set_keys. case_bool_decide as Hin; [done|].
  apply NoDup_app. split; [done|]. split; [|apply NoDup_singleton].
  intros x Hx ->%list_elem_of_singleton. done.
Qed.

Lemma dict_get_Some_elem_of k v d : dict_get k d = Some v → (k, v) ∈ d.
Proof.
  induction d as [|[k' v'] d IH]; simpl; [done|].
  destruct (decide (k' = k)) as [->|Hne].
  - intros [= ->]. apply elem_of_cons. by left.
  - intros Hget. apply elem_of_cons. right. by apply IH.
Qed.

End DictFacts.

Section RegisterFacts.
Context `{Runtime}.
Import Parser.

Lemma extract_products_keys_NoDup content :
  NoDup (extract_products_from_content content).*1.
Proof.
  unfold extract_products_from_content.
  assert (∀ l (d : list (pystr * ProductInfo)),
    NoDup d.*1 →
    NoDup (foldl (λ products '(product_id, product_name, product_desc),
                    dict_set product_id
                      (mkProductInfo (strip product_name) (strip product_desc) product_id)
                      products) d l).*1) as Hgen.
  { induction l as [|[[pid pname] pdesc] l IH]; intros d Hd; [done|].
    simpl. apply IH. by apply dict_set_keys_NoDup. }
  apply Hgen. constructor.
Qed.

Lemma resolve_product_from_definition_known pd_to_f f_to_p products prod_def_id product_ref :
  resolve_product_from_definition pd_to_f f_to_p products prod_def_id = Some product_ref →
  product_ref ∈ products.*1.
Proof.
  unfold resolve_product_from_definition.
  destruct (dict_get prod_def_id pd_to_f) as [formation_ref|]; [|done].
  destruct (dict_get formation_ref f_to_p) as [ref|]; [|done].
  destruct (dict_mem ref products) eqn:Hmem; [|done].
  intros [= <-]. by apply dict_mem_true.
Qed.

(** Every edge the extractor emits joins two products of the document. *)
Lemma extract_assembly_relationships_known content products rel :
  rel ∈ extract_assembly_relationships_from_content content products →
  parent_product_id rel ∈ products.*1 ∧ child_product_id rel ∈ products.*1.
Proof.
  unfold extract_assembly_relationships_from_content.
  intros Hin. apply list_elem_of_omap in Hin as ([[[[uid uname] udesc] relating] related] & _ & Hrel).
  destruct (resolve_product_from_definition _ _ products relating)
    as [[|c1 r1]|] eqn:Hp; [done| |done].
  destruct (resolve_product_from_definition _ _ products related)
    as [[|c2 r2]|] eqn:Hc; [done| |done].
  injection Hrel as <-. simpl.
  split; by eapply resolve_product_from_definition_known.
Qed.

Definition unlinked (node : ComponentNode) : Prop :=
  children node = [] ∧ parent node = None.

Lemma register_components_spec main_path file_info product_annotations products st :
  all_components st =
    (λ comp, (product_id_of (S comp), comp)) <$> seq 0 (length (heap st)) →
  product_id <$> heap st = product_id_of <$> seq 1 (length (heap st)) →
  Forall unlinked (heap st) →
  let st' := register_components main_path file_info product_annotations
               (S (length (heap st))) products st in
  length (heap st') = length (heap st) + length products ∧
  all_components st' =
    (λ comp, (product_id_of (S comp), comp)) <$> seq 0 (length (heap st')) ∧
  product_id <$> heap st' = product_id_of <$> seq 1 (length (heap st')) ∧
  original_product_id <$> heap st' = (original_product_id <$> heap st) ++ products.*1 ∧
  Forall unlinked (heap st') ∧
  assembly_relationships st' = assembly_relationships st ∧
  assembly_tree st' = assembly_tree st ∧
  input_directory st' = input_directory st ∧
  main_assembly_file st' = main_assembly_file st ∧
  enable_annotation_fallback st' = enable_annotation_fallback st ∧
  extract_root_geometry st' = extract_root_geometry st.
Proof.
  revert st. induction products as [|[pid info] products IH]; intros st Hcomps Hpids Hunl.
  - simpl. rewrite Nat.add_0_r, app_nil_r. done.
  - cbn [register_components].
    set (st1 := register_component main_path file_info product_annotations
                  (S (length (heap st))) pid info st).
    assert (length (heap st1) = S (length (heap st))) as Hlen1.
    { unfold st1, register_component. simpl. rewrite length_app. simpl. lia. }
    assert (all_components st1 =
      (λ comp, (product_id_of (S comp), comp)) <$> seq 0 (length (heap st1))) as Hcomps1.
    { rewrite Hlen1, seq_S, fmap_app. simpl.
      unfold st1, register_component. cbn [all_components heap].
      fold (product_id_of (S (length (heap st)))).
      rewrite dict_set_fresh; [by rewrite Hcomps|].
      rewrite Hcomps, <- list_fmap_compose. intros Hin.
      apply list_elem_of_fmap in Hin as (i & Heq & Hi). simpl in Heq.
      apply product_id_of_inj in Heq. apply elem_of_seq in Hi. lia. }
    assert (product_id <$> heap st1 = product_id_of <$> seq 1 (length (heap st1))) as Hpids1.
    { rewrite Hlen1, seq_S, fmap_app. simpl.
      unfold st1, register_component. cbn [heap]. rewrite fmap_app, Hpids. done. }
    assert (Forall unlinked (heap st1)) as Hunl1.
    { unfold st1, register_component. cbn [heap]. apply Forall_app. split; [done|].
      by repeat constructor. }
    specialize (IH st1 Hcomps1 Hpids1 Hunl1). rewrite Hlen1 in IH.
    destruct IH as (Hlen & Hc & Hp & Ho & Hu & Hr & Ht & Hd & Hm & Hf & Hg).
    split; [rewrite Hlen; simpl; lia|]. split; [done|]. split; [done|].
    split; [|done].
    rewrite Ho. unfold st1, register_component. cbn [heap].
    by rewrite fmap_app, <- app_assoc.
Qed.

(** After the primary document, the parser is [registered]. *)
Lemma process_main_assembly_registered main_path st st' :
  fresh st → process_main_assembly main_path st = (true, st') →
  registered st' ∧
  doc_nonempty (load_file_content main_path) = true ∧
  length (heap st') = length (extract_products_from_content (load_file_content main_path)) ∧
  input_directory st' = input_directory st ∧
  main_assembly_file st' = main_assembly_file st ∧
  enable_annotation_fallback st' = enable_annotation_fallback st ∧
  extract_root_geometry st' = extract_root_geometry st.
Proof.
  intros (Hheap & Hcomps & Hrels & Htree). unfold process_main_assembly.
  destruct (doc_nonempty (load_file_content main_path)) eqn:Hne; [|done].
  cbn [negb]. intros [= <-].
  set (content := load_file_content main_path).
  set (products := extract_products_from_content content).
  set (st1 := with_assembly_relationships _ st).
  assert (heap st1 = []) as Hheap1 by done.
  assert (all_components st1 = []) as Hcomps1 by done.
  pose proof (register_components_spec main_path (extract_file_info content)
    (link_annotations_to_products_in_content (enable_annotation_fallback st)
       content products (extract_annotations_from_content content))
    products st1) as Hspec.
  rewrite Hheap1, Hcomps1 in Hspec. cbn [length] in Hspec.
  destruct (Hspec eq_refl eq_refl ltac:(constructor))
    as (Hlen & Hc & Hp & Ho & Hu & Hr & Ht & Hd & Hm & Hf & Hg).
  split; [|by cbn [heap input_directory main_assembly_file
                    enable_annotation_fallback extract_root_geometry]].
  constructor; cbn [heap all_components assembly_tree assembly_relationships].
  - done.
  - done.
  - rewrite Ho. simpl. apply extract_products_keys_NoDup.
  - done.
  - by rewrite Ht.
  - rewrite Hr, Ho. simpl. unfold st1. cbn [assembly_relationships].
    rewrite Hrels. simpl. apply Forall_forall. intros rel Hrel.
    by apply extract_assembly_relationships_known in Hrel.
Qed.

End RegisterFacts.

Section RegisteredSupplement.
Context `{Runtime}.
Import Parser.

Lemma fmap_through_skeleton {B} (f : ComponentNode → B)
    (heap heap' : list ComponentNode) :
  (∀ node, f (skeleton node) = f node) →
  skeleton <$> heap = skeleton <$> heap' → f <$> heap = f <$> heap'.
Proof.
  intros Hf Heq.
  assert (∀ h : list ComponentNode, f <$> h = f <$> (skeleton <$> h)) as Hthrough.
  { intros h. rewrite <- list_fmap_compose. apply list_fmap_ext. intros _ node _.
    simpl. by rewrite Hf. }
  by rewrite (Hthrough heap), (Hthrough heap'), Heq.
Qed.

Lemma registered_skeleton st st' :
  registered st →
  skeleton <$> heap st' = skeleton <$> heap st →
  all_components st' = all_components st →
  assembly_relationships st' = assembly_relationships st →
  assembly_tree st' = assembly_tree st →
  registered st'.
Proof.
  intros [Hc Hp Ho Hu Ht Hr] Hsk Hcomps Hrels Htree.
  assert (length (heap st') = length (heap st)) as Hlen.
  { apply (f_equal length) in Hsk. by rewrite !length_fmap in Hsk. }
  assert (product_id <$> heap st' = product_id <$> heap st) as Hp'
    by (by apply fmap_through_skeleton).
  assert (original_product_id <$> heap st' = original_product_id <$> heap st) as Ho'
    by (by apply fmap_through_skeleton).
  assert ((λ node, (children node, parent node)) <$> heap st'
          = (λ node, (children node, parent node)) <$> heap st) as Hu'
    by (by apply fmap_through_skeleton).
  constructor.
  - by rewrite Hcomps, Hlen.
  - by rewrite Hp', Hlen.
  - by rewrite Ho'.
  - apply Forall_forall. intros node Hnode.
    apply (list_elem_of_fmap_2 (λ node, (children node, parent node))) in Hnode.
    rewrite Hu' in Hnode. apply list_elem_of_fmap in Hnode as (node' & Heq & Hnode').
    rewrite Forall_forall in Hu. destruct (Hu _ Hnode') as [Hch Hpa].
    simpl in Heq. injection Heq as -> ->. done.
  - by rewrite Htree.
  - by rewrite Hrels, Ho'.
Qed.

Lemma supplement_from_file_registered main_path filename st :
  registered st → registered (supplement_from_file main_path filename st).
Proof.
  intros Hreg.
  destruct (supplement_from_file_frame main_path filename st)
    as (_ & _ & _ & _ & Hcomps & _ & Hrels & _ & Htree & _).
  apply (registered_skeleton st); [done| |done..].
  apply supplement_from_file_skeleton.
Qed.

(** The supplementer as a whole: what it leaves alone. *)
Lemma supplement_annotations_from_files_frame files st :
  let st' := supplement_annotations_from_files files st in
  skeleton <$> heap st' = skeleton <$> heap st ∧
  all_components st' = all_components st ∧
  assembly_relationships st' = assembly_relationships st ∧
  assembly_tree st' = assembly_tree st ∧
  component_name_index st' = component_name_index st ∧
  standard_parts st' = standard_parts st ∧
  processed_files st' = processed_files st ∧
  extract_root_geometry st' = extract_root_geometry st.
Proof.
  unfold supplement_annotations_from_files. generalize (main_path_of st) as mp.
  intros mp. revert st. induction files as [|f files IH]; intros st; [done|].
  cbn [foldl]. specialize (IH (supplement_from_file mp f st)).
  destruct IH as (Hsk & Hc & Hr & Ht & Hi & Hs & Hp & Hg).
  destruct (supplement_from_file_frame mp f st)
    as (_ & _ & _ & Hg' & Hc' & Hs' & Hr' & Hp' & Ht' & Hi').
  rewrite Hsk, Hc, Hr, Ht, Hi, Hs, Hp, Hg.
  by rewrite supplement_from_file_skeleton.
Qed.

Lemma supplement_annotations_from_files_registered files st :
  registered st → registered (supplement_annotations_from_files files st).
Proof.
  intros Hreg.
  destruct (supplement_annotations_from_files_frame files st)
    as (Hsk & Hc & Hr & Ht & _).
  by apply (registered_skeleton st).
Qed.

End RegisteredSupplement.

(* ====================================================================== *)
(** * Linking components *)
(* ====================================================================== *)

Section LinkFacts.
Import Parser.
Implicit Types (heap : list ComponentNode) (edges : list (loc * loc)).

Lemma length_add_child p c heap : length (add_child p c heap) = length heap.
Proof. unfold add_child. by rewrite !length_alter. Qed.

Lemma unlink_add_child p c heap : unlink <$> add_child p c heap = unlink <$> heap.
Proof.
  unfold add_child. apply list_eq. intros i. rewrite !list_lookup_fmap.
  rewrite !list_lookup_alter. repeat case_decide; subst;
    destruct (heap !! _) as [[]|]; done.
Qed.

Lemma children_at_add_child p c heap comp :
  p < length heap →
  children_at (add_child p c heap) comp =
  children_at heap comp ++ (if decide (comp = p) then [c] else []).
Proof.
  intros Hp. unfold children_at, add_child. rewrite !list_lookup_alter.
  destruct (lookup_lt_is_Some_2 heap p Hp) as [node Hnode].
  repeat case_decide; subst; try done; rewrite ?Hnode, ?app_nil_r; try done.
  by destruct (heap !! comp).
Qed.

Lemma parent_at_add_child p c heap comp :
  c < length heap →
  parent_at (add_child p c heap) comp =
  if decide (comp = c) then Some p else parent_at heap comp.
Proof.
  intros Hc. unfold parent_at, add_child. rewrite !list_lookup_alter.
  destruct (lookup_lt_is_Some_2 heap c Hc) as [node Hnode].
  repeat case_decide; subst; try done; rewrite ?Hnode; try done.
  by destruct (heap !! comp).
Qed.

Lemma children_from_cons p c edges comp :
  children_from ((p, c) :: edges) comp =
  (if decide (comp = p) then [c] else []) ++ children_from edges comp.
Proof.
  unfold children_from. rewrite filter_cons. simpl.
  destruct (decide (p = comp)) as [->|Hne].
  - by rewrite decide_True.
  - by rewrite decide_False.
Qed.

Lemma parent_from_cons p c edges comp :
  parent_from ((p, c) :: edges) comp =
  match parent_from edges comp with
  | Some q => Some q
  | None => if decide (comp = c) then Some p else None
  end.
Proof.
  unfold parent_from. rewrite filter_cons. simpl.
  destruct (decide (c = comp)) as [->|Hne].
  - rewrite decide_True by done. rewrite fmap_cons, last_cons. done.
  - rewrite decide_False by done. by destruct (last _).
Qed.

(** The links after [add_child] along a list of edges between objects of
    the heap. *)
Lemma add_children_spec edges heap :
  Forall (λ e, e.1 < length heap ∧ e.2 < length heap) edges →
  length (add_children edges heap) = length heap ∧
  unlink <$> add_children edges heap = unlink <$> heap ∧
  ∀ comp,
    children_at (add_children edges heap) comp
      = children_at heap comp ++ children_from edges comp ∧
    parent_at (add_children edges heap) comp
      = match parent_from edges comp with
        | Some p => Some p
        | None => parent_at heap comp
        end.
Proof.
  revert heap. induction edges as [|[p c] edges IH]; intros heap Hvalid.
  - split; [done|]. split; [done|]. intros comp. unfold children_from, parent_from.
    simpl. by rewrite app_nil_r.
  - apply Forall_cons in Hvalid as [[Hp Hc] Hvalid]. simpl in Hp, Hc.
    unfold add_children. cbn [foldl fst snd]. fold (add_children edges (add_child p c heap)).
    destruct (IH (add_child p c heap)) as (Hlen & Hunl & Hlinks).
    { by rewrite length_add_child. }
    split; [by rewrite Hlen, length_add_child|].
    split; [by rewrite Hunl, unlink_add_child|].
    intros comp. destruct (Hlinks comp) as [-> ->].
    rewrite children_at_add_child, parent_at_add_child by done.
    rewrite children_from_cons, parent_from_cons, <- app_assoc.
    split; [done|]. destruct (parent_from edges comp); [done|]. by case_decide.
Qed.

End LinkFacts.

Section FindFacts.
Import Parser.
Implicit Types (heap : list ComponentNode) (comps : list (pystr * loc)).

Lemma fmap_through_unlink {B} (f : ComponentNode → B)
    (heap heap' : list ComponentNode) :
  (∀ node, f (unlink node) = f node) →
  unlink <$> heap = unlink <$> heap' → f <$> heap = f <$> heap'.
Proof.
  intros Hf Heq.
  assert (∀ h : list ComponentNode, f <$> h = f <$> (unlink <$> h)) as Hthrough.
  { intros h. rewrite <- list_fmap_compose. apply list_fmap_ext. intros _ node _.
    simpl. by rewrite Hf. }
  by rewrite (Hthrough heap), (Hthrough heap'), Heq.
Qed.

(** The inner loop of [build_assembly_tree], from any value of [found]. *)
Definition find_from heap (oid : pystr) (found : option loc) comps : option loc :=
  foldl (λ found '(_, comp),
           match heap !! comp with
           | Some node =>
               if bool_decide (original_product_id node = oid)
               then Some comp else found
           | None => found
           end)
        found comps.

Lemma find_from_cons heap oid found k comp comps :
  find_from heap oid found ((k, comp) :: comps) =
  find_from heap oid
    (if bool_decide (original_product_id <$> heap !! comp = Some oid)
     then Some comp else found) comps.
Proof.
  unfold find_from. cbn [foldl]. f_equal.
  destruct (heap !! comp) as [node|]; simpl.
  - repeat case_bool_decide; simplify_eq; done.
  - done.
Qed.

Lemma find_from_Some heap oid found comps comp :
  find_from heap oid found comps = Some comp →
  found = Some comp ∨
  (comp ∈ comps.*2 ∧ original_product_id <$> heap !! comp = Some oid).
Proof.
  revert found. induction comps as [|[k c] comps IH]; intros found.
  - unfold find_from. simpl. auto.
  - rewrite find_from_cons. intros [Hf|[Hin Hoid]]%IH.
    + case_bool_decide as Hc; [|by left]. injection Hf as <-. right.
      split; [|done]. rewrite fmap_cons. apply elem_of_cons. by left.
    + right. split; [|done]. rewrite fmap_cons. apply elem_of_cons. by right.
Qed.

Lemma find_from_None heap oid found comps :
  find_from heap oid found comps = None →
  found = None ∧
  ∀ comp, comp ∈ comps.*2 → original_product_id <$> heap !! comp ≠ Some oid.
Proof.
  revert found. induction comps as [|[k c] comps IH]; intros found.
  - unfold find_from. simpl. intros ->. split; [done|]. intros comp Hin.
    by apply elem_of_nil in Hin.
  - rewrite find_from_cons. intros [Hf Hall]%IH.
    case_bool_decide as Hc; [done|]. split; [done|].
    intros comp. rewrite fmap_cons, elem_of_cons. intros [->|Hin]; [done|].
    by apply Hall.
Qed.

Lemma find_component_Some heap comps oid comp :
  find_component heap comps oid = Some comp →
  comp ∈ comps.*2 ∧ original_product_id <$> heap !! comp = Some oid.
Proof.
  intros Hfind. by apply (find_from_Some heap oid None) in Hfind as [?|?].
Qed.

(** With identifiers that do not repeat, the loop finds the component that
    carries the identifier. *)
Lemma find_component_unique heap comps oid comp :
  NoDup (original_product_id <$> heap) →
  comp ∈ comps.*2 → original_product_id <$> heap !! comp = Some oid →
  find_component heap comps oid = Some comp.
Proof.
  intros Hnd Hin Hoid.
  destruct (find_component heap comps oid) as [comp'|] eqn:Hfind.
  - apply find_component_Some in Hfind as [_ Hoid']. f_equal.
    rewrite <- list_lookup_fmap in Hoid, Hoid'.
    by eapply NoDup_lookup.
  - apply (find_from_None heap oid None) in Hfind as [_ Hall].
    by apply Hall in Hin.
Qed.

Lemma find_component_ext heap heap' comps oid :
  original_product_id <$> heap = original_product_id <$> heap' →
  find_component heap comps oid = find_component heap' comps oid.
Proof.
  intros Heq. change (find_from heap oid None comps = find_from heap' oid None comps).
  generalize (@None loc). induction comps as [|[k c] comps IH]; intros found; [done|].
  rewrite !find_from_cons, <- !list_lookup_fmap, Heq. apply IH.
Qed.

Lemma product_id_at_ext heap heap' comp :
  product_id <$> heap = product_id <$> heap' →
  product_id_at heap comp = product_id_at heap' comp.
Proof.
  intros Heq. unfold product_id_at. by rewrite <- !list_lookup_fmap, Heq.
Qed.

End FindFacts.

(* ====================================================================== *)
(** * What [build_assembly_tree] builds *)
(* ====================================================================== *)

Section BuildFacts.
Import Parser.
Implicit Types (heap : list ComponentNode) (comps : list (pystr * loc))
  (edges : list (loc * loc)).

(** One relationship, resolved on the heap. *)
Definition resolve heap comps (rel : Relationship) : option (loc * loc) :=
  match find_component heap comps (parent_product_id rel),
        find_component heap comps (child_product_id rel) with
  | Some parent_comp, Some child_comp => Some (parent_comp, child_comp)
  | _, _ => None
  end.

Lemma resolved_edges_resolve st :
  resolved_edges st = omap (resolve (heap st) (all_components st)) (assembly_relationships st).
Proof. done. Qed.

Lemma resolve_ext heap heap' comps rel :
  unlink <$> heap = unlink <$> heap' → resolve heap comps rel = resolve heap' comps rel.
Proof.
  intros Heq. unfold resolve.
  by rewrite !(find_component_ext heap heap') by (by apply fmap_through_unlink).
Qed.

(** The loop over the relationships is [add_child] along the resolved
    edges; the two sets collect the [product_id]s of their ends. *)
Lemma link_loop heap0 comps rels heap parent_components child_components :
  unlink <$> heap = unlink <$> heap0 →
  let edges := omap (resolve heap0 comps) rels in
  foldl (link_relationship comps) (heap, parent_components, child_components) rels =
  (add_children edges heap,
   list_to_set (product_id_at heap0 <$> edges.*1) ∪ parent_components,
   list_to_set (product_id_at heap0 <$> edges.*2) ∪ child_components).
Proof.
  revert heap parent_components child_components.
  induction rels as [|rel rels IH]; intros heap P C Hunl edges; subst edges.
  - simpl. unfold add_children. simpl. f_equal; [f_equal|]; set_solver.
  - cbn [foldl].
    assert (link_relationship comps (heap, P, C) rel =
            match resolve heap0 comps rel with
            | Some (p, c) =>
                (add_child p c heap, {[product_id_at heap0 p]} ∪ P,
                 {[product_id_at heap0 c]} ∪ C)
            | None => (heap, P, C)
            end) as ->.
    { unfold link_relationship, resolve.
      rewrite !(find_component_ext heap heap0) by (by apply fmap_through_unlink).
      destruct (find_component heap0 comps (parent_product_id rel)); [|done].
      destruct (find_component heap0 comps (child_product_id rel)); [|done].
      by rewrite !(product_id_at_ext heap heap0) by (by apply fmap_through_unlink). }
    change (omap (resolve heap0 comps) (rel :: rels))
      with (match resolve heap0 comps rel with
            | Some e => e :: omap (resolve heap0 comps) rels
            | None => omap (resolve heap0 comps) rels
            end).
    destruct (resolve heap0 comps rel) as [[p c]|]; [|by apply IH].
    rewrite IH by (by rewrite unlink_add_child).
    rewrite !fmap_cons. cbn [fst snd list_to_set].
    unfold add_children. cbn [foldl fst snd].
    f_equal; [f_equal|]; set_solver.
Qed.

Lemma filter_ext_in {A} (P Q : A → Prop) `{!∀ x, Decision (P x), !∀ x, Decision (Q x)}
    (l : list A) :
  (∀ x, x ∈ l → P x ↔ Q x) → filter P l = filter Q l.
Proof.
  induction l as [|a l IH]; intros Hiff; [done|].
  rewrite !filter_cons. rewrite IH by (intros x Hx; apply Hiff; by right).
  destruct (decide (P a)) as [HP|HP], (decide (Q a)) as [HQ|HQ]; try done;
    exfalso; apply (Hiff a) in HP || apply (Hiff a) in HQ; try done; by left.
Qed.

Lemma filter_fmap_pair {A B} (g : A → B) (Q : B → Prop) `{!∀ y, Decision (Q y)}
    (l : list A) :
  filter Q (g <$> l) = g <$> filter (λ x, Q (g x)) l.
Proof.
  induction l as [|a l IH]; [done|]. rewrite fmap_cons, !filter_cons, IH.
  by destruct (decide (Q (g a))).
Qed.


Lemma registered_components_snd st :
  registered st → (all_components st).*2 = seq 0 (length (heap st)).
Proof.
  intros [Hc _ _ _ _ _]. rewrite Hc, <- list_fmap_compose.
  rewrite <- (list_fmap_id (seq _ _)) at 2. by apply list_fmap_ext.
Qed.

Lemma registered_product_id_at st comp :
  registered st → comp < length (heap st) →
  product_id_at (heap st) comp = product_id_of (S comp).
Proof.
  intros [_ Hp _ _ _ _] Hlt. unfold product_id_at.
  rewrite <- list_lookup_fmap, Hp, list_lookup_fmap, lookup_seq_lt by done.
  done.
Qed.

(** The resolved edges join objects of the heap. *)
Lemma resolved_edges_valid st :
  registered st →
  Forall (λ e, e.1 < length (heap st) ∧ e.2 < length (heap st)) (resolved_edges st).
Proof.
  intros Hreg. apply Forall_forall. intros [p c] Hin.
  unfold resolved_edges in Hin. apply list_elem_of_omap in Hin as (rel & _ & Hres).
  destruct (find_component _ _ (parent_product_id rel)) as [p'|] eqn:Hp; [|done].
  destruct (find_component _ _ (child_product_id rel)) as [c'|] eqn:Hc; [|done].
  injection Hres as -> ->.
  apply find_component_Some in Hp as [Hp _], Hc as [Hc _].
  rewrite registered_components_snd in Hp, Hc by done.
  apply elem_of_seq in Hp, Hc. simpl. lia.
Qed.

(** Every relationship of a registered parser resolves. *)
Lemma resolved_edges_all st :
  registered st →
  Forall2 (λ rel e,
             original_product_id <$> heap st !! e.1 = Some (parent_product_id rel) ∧
             original_product_id <$> heap st !! e.2 = Some (child_product_id rel))
          (assembly_relationships st) (resolved_edges st).
Proof.
  intros Hreg. pose proof (registered_resolved st Hreg) as Hres.
  pose proof (registered_original_ids st Hreg) as Hnd.
  pose proof (registered_components_snd st Hreg) as Hsnd.
  unfold resolved_edges.
  induction (assembly_relationships st) as [|rel rels IH]; [constructor|].
  apply Forall_cons in Hres as [[Hp Hc] Hres].
  apply list_elem_of_fmap in Hp as (pn & Hpn & Hp), Hc as (cn & Hcn & Hc).
  apply list_elem_of_lookup in Hp as [p Hp], Hc as [c Hc].
  assert (find_component (heap st) (all_components st) (parent_product_id rel) = Some p)
    as Hfp.
  { apply find_component_unique; [done| |by rewrite Hp, Hpn].
    rewrite Hsnd. apply elem_of_seq. apply lookup_lt_Some in Hp. lia. }
  assert (find_component (heap st) (all_components st) (child_product_id rel) = Some c)
    as Hfc.
  { apply find_component_unique; [done| |by rewrite Hc, Hcn].
    rewrite Hsnd. apply elem_of_seq. apply lookup_lt_Some in Hc. lia. }
  change (omap ?f (rel :: rels)) with
    (match f rel with Some e => e :: omap f rels | None => omap f rels end).
  cbn beta. rewrite Hfp, Hfc. constructor; [|by apply IH].
  simpl. by rewrite Hp, Hc, Hpn, Hcn.
Qed.

Lemma foldl_add_child_root root (cs : list loc) heap :
  foldl (λ heap comp, add_child root comp heap) heap cs
  = add_children ((λ comp, (root, comp)) <$> cs) heap.
Proof.
  revert heap. induction cs as [|c cs IH]; intros heap; [done|].
  unfold add_children. cbn [foldl fmap list_fmap fst snd]. apply IH.
Qed.

Lemma with_heap_same st : with_heap (heap st) st = st.
Proof. by destruct st. Qed.

(** [build_assembly_tree] on a registered parser: the first root candidate
    when there is one, a virtual root over the components that are nobody's
    child when there is none. *)
Lemma build_assembly_tree_spec st :
  registered st →
  let n := length (heap st) in
  let edges := resolved_edges st in
  build_assembly_tree st =
  match filter (root_candidate edges) (seq 0 n) with
  | root :: _ =>
      with_assembly_tree (Some root) (with_heap (add_children edges (heap st)) st)
  | [] =>
      attach_to_virtual_root (filter (λ comp, comp ∉ edges.*2) (seq 0 n))
        (with_heap (add_children edges (heap st)) st)
  end.
Proof.
  intros Hreg n edges. unfold build_assembly_tree.
  pose proof (registered_components_snd st Hreg) as Hsnd.
  destruct (assembly_relationships st) as [|rel rels] eqn:Hrels.
  - assert (edges = []) as -> by (unfold edges, resolved_edges; by rewrite Hrels).
    assert (filter (root_candidate []) (seq 0 n) = []) as ->.
    { induction (seq 0 n) as [|x l IH]; [done|]. rewrite filter_cons_False; [done|].
      intros [Hin _]. by apply elem_of_nil in Hin. }
    assert (filter (λ comp, comp ∉ ([] : list (loc * loc)).*2) (seq 0 n) = seq 0 n) as ->.
    { induction (seq 0 n) as [|x l IH]; [done|]. rewrite filter_cons_True, IH; [done|].
      apply not_elem_of_nil. }
    unfold add_children. cbn [foldl]. by rewrite with_heap_same, Hsnd.
  - rewrite <- Hrels.
    rewrite (link_loop (heap st) (all_components st) (assembly_relationships st)) by done.
    fold (resolve (heap st) (all_components st)).
    rewrite <- resolved_edges_resolve. fold edges.
    pose proof (resolved_edges_valid st Hreg) as Hvalid. fold edges in Hvalid.
    assert (∀ (l : list loc) comp,
      Forall (λ x, x < n) l → comp < n →
      product_id_of (S comp) ∈@{gset pystr} list_to_set (product_id_at (heap st) <$> l) ∪ ∅
      ↔ comp ∈ l) as Hmem.
    { intros l comp Hl Hcomp. rewrite union_empty_r_L, elem_of_list_to_set.
      rewrite list_elem_of_fmap. split.
      - intros (x & Heq & Hx). rewrite Forall_forall in Hl.
        rewrite registered_product_id_at in Heq by auto.
        apply product_id_of_inj in Heq. by simplify_eq.
      - intros Hin. exists comp. split; [|done].
        by rewrite registered_product_id_at. }
    assert (Forall (λ x, x < n) edges.*1 ∧ Forall (λ x, x < n) edges.*2) as [Hv1 Hv2].
    { split; apply Forall_fmap; eapply Forall_impl; try exact Hvalid;
        simpl; intros ? []; done. }
    assert ((filter (λ kv : pystr * loc,
                       kv.1 ∈ list_to_set (product_id_at (heap st) <$> edges.*1) ∪ ∅ ∧
                       kv.1 ∉ list_to_set (product_id_at (heap st) <$> edges.*2) ∪ ∅)
                    (all_components st))
            = (λ comp, (product_id_of (S comp), comp))
                <$> filter (root_candidate edges) (seq 0 n)) as ->.
    { rewrite (registered_components st Hreg), filter_fmap_pair. f_equal.
      apply filter_ext_in. intros comp Hcomp%elem_of_seq. simpl.
      unfold root_candidate. rewrite !Hmem by (done || lia). done. }
    destruct (filter (root_candidate edges) (seq 0 n)) as [|root rest]; [|done].
    simpl. f_equal.
    rewrite (registered_components st Hreg), filter_fmap_pair, <- list_fmap_compose.
    transitivity (id <$> filter (λ comp, comp ∉ edges.*2) (seq 0 n));
      [|apply list_fmap_id].
    f_equal. apply filter_ext_in.
    intros comp Hcomp%elem_of_seq. simpl. rewrite Hmem by (done || lia). done.
Qed.

End BuildFacts.

Section TreeLinks.
Import Parser.
Implicit Types (heap : list ComponentNode) (edges : list (loc * loc)).

Lemma elem_of_children_from edges p c : c ∈ children_from edges p ↔ (p, c) ∈ edges.
Proof.
  unfold children_from. rewrite list_elem_of_fmap. split.
  - intros ([p' c'] & -> & [Hp Hin]%list_elem_of_filter). simpl in *. by subst.
  - intros Hin. exists (p, c). split; [done|]. by apply list_elem_of_filter.
Qed.

Lemma parent_from_None edges c : parent_from edges c = None ↔ c ∉ edges.*2.
Proof.
  unfold parent_from. rewrite last_None. split.
  - intros Hnil%fmap_nil_inv Hin. apply list_elem_of_fmap in Hin as ([p c'] & -> & Hin).
    by eapply (filter_nil_not_elem_of _ _ (p, c')) in Hnil.
  - intros Hnot. destruct (filter _ edges) as [|[p c'] l] eqn:Hf; [done|]. exfalso.
    assert ((p, c') ∈ filter (λ e : loc * loc, e.2 = c) edges) as Hin
      by (rewrite Hf; by left).
    apply list_elem_of_filter in Hin as [Heq Hin]. simpl in Heq. subst.
    apply Hnot. apply list_elem_of_fmap. by exists (p, c).
Qed.

Lemma parent_from_Some edges c p : parent_from edges c = Some p → (p, c) ∈ edges.
Proof.
  unfold parent_from. intros Hlast. apply last_Some_elem_of in Hlast.
  apply list_elem_of_fmap in Hlast as ([p' c'] & -> & [Hc Hin]%list_elem_of_filter).
  simpl in *. by subst.
Qed.

Lemma children_from_root root (cs : list loc) comp :
  children_from ((λ c, (root, c)) <$> cs) comp = if decide (comp = root) then cs else [].
Proof.
  induction cs as [|c cs IH]; [by case_decide|].
  rewrite fmap_cons, children_from_cons, IH. by case_decide.
Qed.

Lemma parent_from_root root (cs : list loc) comp :
  parent_from ((λ c, (root, c)) <$> cs) comp =
  if decide (comp ∈ cs) then Some root else None.
Proof.
  destruct (parent_from _ comp) as [p|] eqn:Hp.
  - apply parent_from_Some in Hp.
    apply list_elem_of_fmap in Hp as (c & [= -> ->] & Hin). by rewrite decide_True.
  - apply parent_from_None in Hp. rewrite decide_False; [done|]. intros Hin.
    apply Hp. rewrite <- list_fmap_compose. apply list_elem_of_fmap. by exists comp.
Qed.

Lemma registered_unlinked_at st comp :
  registered st →
  children_at (heap st) comp = [] ∧ parent_at (heap st) comp = None.
Proof.
  intros Hreg. pose proof (registered_unlinked st Hreg) as Hunl.
  unfold children_at, parent_at. destruct (heap st !! comp) as [node|] eqn:Hn; [|done].
  rewrite Forall_forall in Hunl. apply list_elem_of_lookup_2 in Hn.
  destruct (Hunl _ Hn) as [Hch Hpa]. simpl. by rewrite Hch, Hpa.
Qed.

(** The links when a root candidate exists. *)
Lemma build_assembly_tree_candidate st root rest :
  registered st →
  filter (root_candidate (resolved_edges st)) (seq 0 (length (heap st))) = root :: rest →
  let st' := build_assembly_tree st in
  assembly_tree st' = Some root ∧
  length (heap st') = length (heap st) ∧
  unlink <$> heap st' = unlink <$> heap st ∧
  ∀ comp,
    children_at (heap st') comp = children_from (resolved_edges st) comp ∧
    parent_at (heap st') comp = parent_from (resolved_edges st) comp.
Proof.
  intros Hreg Hcand. cbn zeta. rewrite build_assembly_tree_spec by done.
  cbn zeta. rewrite Hcand. cbn [assembly_tree heap with_assembly_tree with_heap].
  destruct (add_children_spec _ _ (resolved_edges_valid st Hreg)) as (Hlen & Hunl & Hlinks).
  split; [done|]. split; [done|]. split; [done|]. intros comp.
  destruct (Hlinks comp) as [-> ->].
  destruct (registered_unlinked_at st comp Hreg) as [-> ->].
  split; [done|]. by destruct (parent_from _ _).
Qed.

(** The links when there is no root candidate. *)
Lemma build_assembly_tree_virtual st :
  registered st →
  filter (root_candidate (resolved_edges st)) (seq 0 (length (heap st))) = [] →
  let st' := build_assembly_tree st in
  let n := length (heap st) in
  let orphaned := filter (λ comp, comp ∉ (resolved_edges st).*2) (seq 0 n) in
  assembly_tree st' = Some n ∧
  length (heap st') = S n ∧
  unlink <$> heap st' = unlink <$> (heap st ++ [virtual_root]) ∧
  ∀ comp,
    children_at (heap st') comp
      = children_from (resolved_edges st) comp
        ++ (if decide (comp = n) then orphaned else []) ∧
    parent_at (heap st') comp
      = match parent_from (resolved_edges st) comp with
        | Some p => Some p
        | None => if decide (comp ∈ orphaned) then Some n else None
        end.
Proof.
  intros Hreg Hcand. cbn zeta. rewrite build_assembly_tree_spec by done.
  cbn zeta. rewrite Hcand. unfold attach_to_virtual_root.
  cbn [assembly_tree heap with_assembly_tree with_heap].
  set (edges := resolved_edges st). set (n := length (heap st)).
  set (orphaned := filter (λ comp, comp ∉ edges.*2) (seq 0 n)).
  pose proof (resolved_edges_valid st Hreg) as Hvalid. fold edges n in Hvalid.
  destruct (add_children_spec _ _ Hvalid) as (Hlen & Hunl & Hlinks). fold n in Hlen.
  rewrite foldl_add_child_root, Hlen.
  set (heap1 := add_children edges (heap st)) in *.
  assert (Forall (λ e : loc * loc, e.1 < length (heap1 ++ [virtual_root])
                                   ∧ e.2 < length (heap1 ++ [virtual_root]))
                 ((λ comp, (n, comp)) <$> orphaned)) as Hvalid'.
  { rewrite length_app, Hlen. simpl. apply Forall_fmap, Forall_forall.
    intros comp [_ Hcomp%elem_of_seq]%list_elem_of_filter. simpl. lia. }
  destruct (add_children_spec _ _ Hvalid') as (Hlen' & Hunl' & Hlinks').
  split; [done|]. split; [rewrite Hlen', length_app, Hlen; simpl; lia|].
  split; [by rewrite Hunl', !fmap_app, Hunl|].
  intros comp. destruct (Hlinks' comp) as [-> ->].
  rewrite children_from_root, parent_from_root.
  destruct (Hlinks comp) as [Hch Hpa].
  destruct (registered_unlinked_at st comp Hreg) as [Hch0 Hpa0].
  rewrite Hch0 in Hch. rewrite Hpa0 in Hpa. simpl in Hch.
  assert (children_at (heap1 ++ [virtual_root]) comp = children_from edges comp) as ->.
  { unfold children_at in *. destruct (decide (comp < n)) as [Hlt|Hge].
    - by rewrite lookup_app_l by lia.
    - assert (children_from edges comp = []) as ->.
      { destruct (children_from edges comp) as [|c cs] eqn:Hcf; [done|].
        assert (c ∈ children_from edges comp) as Hin by (rewrite Hcf; by left).
        apply elem_of_children_from in Hin. rewrite Forall_forall in Hvalid.
        apply Hvalid in Hin. simpl in Hin. lia. }
      rewrite lookup_app_r by lia. rewrite Hlen.
      destruct (comp - n) as [|[|k]]; done. }
  assert (parent_at (heap1 ++ [virtual_root]) comp = parent_from edges comp) as ->.
  { unfold parent_at in *. destruct (decide (comp < n)) as [Hlt|Hge].
    - rewrite lookup_app_l by lia. rewrite Hpa. by destruct (parent_from edges comp).
    - assert (parent_from edges comp = None) as ->.
      { apply parent_from_None. intros Hin.
        apply list_elem_of_fmap in Hin as ([p c] & -> & Hin).
        rewrite Forall_forall in Hvalid. apply Hvalid in Hin. simpl in *. lia. }
      rewrite lookup_app_r by lia. rewrite Hlen.
      destruct (comp - n) as [|[|k]]; done. }
  split; [done|].
  destruct (decide (comp ∈ orphaned)) as [Hin|Hnot]; [|by destruct (parent_from edges comp)].
  apply list_elem_of_filter in Hin as [Hnc _].
  apply parent_from_None in Hnc. by rewrite Hnc.
Qed.

End TreeLinks.

(* ====================================================================== *)
(** * The run as a whole *)
(* ====================================================================== *)

Section PipelineFacts.
Context `{Runtime}.
Import Parser.

(** A component without its measurements. *)
Definition no_geometry (node : ComponentNode) : ComponentNode :=
  set_geometry_info None node.

Lemma fmap_through_no_geometry {B} (f : ComponentNode → B)
    (heap heap' : list ComponentNode) :
  (∀ node, f (no_geometry node) = f node) →
  no_geometry <$> heap = no_geometry <$> heap' → f <$> heap = f <$> heap'.
Proof.
  intros Hf Heq.
  assert (∀ h : list ComponentNode, f <$> h = f <$> (no_geometry <$> h)) as Hthrough.
  { intros h. rewrite <- list_fmap_compose. apply list_fmap_ext. intros _ node _.
    simpl. by rewrite Hf. }
  by rewrite (Hthrough heap), (Hthrough heap'), Heq.
Qed.

Lemma extract_geometry_info_no_geometry comp heap :
  no_geometry <$> extract_geometry_info_for_component comp heap = no_geometry <$> heap.
Proof.
  unfold extract_geometry_info_for_component.
  destruct (heap !! comp) as [node|] eqn:Hn; [|done].
  destruct (_ || _); [done|]. destruct (measure_geometry _); [|done].
  apply list_eq. intros i. rewrite !list_lookup_fmap, list_lookup_alter.
  case_decide; subst; [|done]. by rewrite Hn.
Qed.

(** The geometry step touches the measurements of the root and nothing
    else. *)
Lemma root_geometry_frame st :
  let st' := root_geometry st in
  no_geometry <$> heap st' = no_geometry <$> heap st ∧
  all_components st' = all_components st ∧
  assembly_relationships st' = assembly_relationships st ∧
  assembly_tree st' = assembly_tree st ∧
  component_name_index st' = component_name_index st ∧
  standard_parts st' = standard_parts st ∧
  processed_files st' = processed_files st.
Proof.
  unfold root_geometry. destruct (assembly_tree st) as [root|] eqn:Ht; [|done].
  destruct (_ && _); [|by rewrite Ht].
  cbn [heap with_heap all_components assembly_relationships assembly_tree
       component_name_index standard_parts processed_files].
  by rewrite extract_geometry_info_no_geometry.
Qed.

Lemma root_geometry_links st comp :
  children_at (heap (root_geometry st)) comp = children_at (heap st) comp ∧
  parent_at (heap (root_geometry st)) comp = parent_at (heap st) comp ∧
  name_at (heap (root_geometry st)) comp = name_at (heap st) comp ∧
  annotations_at (heap (root_geometry st)) comp = annotations_at (heap st) comp.
Proof.
  destruct (root_geometry_frame st) as (Hg & _).
  unfold children_at, parent_at, name_at, annotations_at.
  assert (∀ {B} (f : ComponentNode → B), (∀ node, f (no_geometry node) = f node) →
            f <$> heap (root_geometry st) !! comp = f <$> heap st !! comp) as Hf.
  { intros B f Hnode. rewrite <- !list_lookup_fmap.
    by rewrite (fmap_through_no_geometry f _ (heap st)). }
  rewrite !Hf by done. split; [done|]. split; [|done].
  specialize (Hf _ parent (λ _, eq_refl)).
  by destruct (heap (root_geometry st) !! comp), (heap st !! comp); simplify_eq.
Qed.

Lemma process_and_supplement_inv step_files st0 st :
  process_and_supplement step_files st0 = (true, st) →
  ∃ main_path st1,
    main_path_of st0 = Some main_path ∧
    path_exists main_path = true ∧
    process_main_assembly main_path st0 = (true, st1) ∧
    st = supplement_annotations_from_files step_files st1.
Proof.
  unfold process_and_supplement, main_path_of.
  destruct (main_assembly_file st0) as [[|c r]|]; [done| |done].
  destruct (path_exists _) eqn:Hex; [|done].
  destruct (process_main_assembly _ st0) as [[] st1] eqn:Hmain; [|done].
  intros [= <-]. eauto 10.
Qed.

(** A run that succeeds: the primary document, the auxiliary documents,
    the tree, the geometry of the root, in this order. *)
Lemma parse_batch_true st0 st :
  parse_batch st0 = (true, st) →
  ∃ main_path st1,
    find_step_files st0 ≠ [] ∧
    main_path_of st0 = Some main_path ∧
    path_exists main_path = true ∧
    process_main_assembly main_path st0 = (true, st1) ∧
    st = root_geometry (build_assembly_tree
           (supplement_annotations_from_files (find_step_files st0) st1)).
Proof.
  unfold parse_batch. destruct (find_step_files st0) as [|f fs] eqn:Hfiles; [done|].
  destruct (process_and_supplement (f :: fs) st0) as [[] st2] eqn:Hps; [|done].
  simpl. intros [= <-].
  apply process_and_supplement_inv in Hps as (mp & st1 & Hmp & Hex & Hmain & ->).
  exists mp, st1. done.
Qed.

(** A run that fails hands the parser back as it was. *)
Lemma parse_batch_false st0 st : parse_batch st0 = (false, st) → st = st0.
Proof.
  unfold parse_batch. destruct (find_step_files st0) as [|f fs]; [congruence|].
  unfold process_and_supplement.
  destruct (main_assembly_file st0) as [[|c r]|]; simpl; [congruence| |congruence].
  destruct (path_exists _); simpl; [|congruence].
  unfold process_main_assembly.
  destruct (doc_nonempty _); simpl; congruence.
Qed.

(** When a run fails. *)
Lemma parse_batch_fails_iff st0 :
  (parse_batch st0).1 = false ↔
  find_step_files st0 = [] ∨
  main_path_of st0 = None ∨
  ∃ main_path, main_path_of st0 = Some main_path ∧
    (path_exists main_path = false ∨
     doc_nonempty (load_file_content main_path) = false).
Proof.
  unfold parse_batch, main_path_of.
  destruct (find_step_files st0) as [|f fs]; [simpl; tauto|].
  unfold process_and_supplement.
  destruct (main_assembly_file st0) as [[|c r]|]; simpl; [tauto| |tauto].
  destruct (path_exists _) eqn:Hex; simpl.
  - unfold process_main_assembly.
    destruct (doc_nonempty _) eqn:Hne; simpl.
    + split; [done|]. intros [?|[?|(mp & [= <-] & [?|?])]]; congruence.
    + split; [|done]. intros _. right. right. eexists. split; [done|]. by right.
  - split; [|done]. intros _. right. right. eexists. split; [done|]. by left.
Qed.

(** A successful run of a fresh parser goes through a registered state. *)
Lemma parse_batch_registered st0 st :
  fresh st0 → parse_batch st0 = (true, st) →
  ∃ st2, registered st2 ∧ st = root_geometry (build_assembly_tree st2).
Proof.
  intros Hfresh (mp & st1 & _ & _ & _ & Hmain & ->)%parse_batch_true.
  eexists. split; [|done].
  apply supplement_annotations_from_files_registered.
  by eapply process_main_assembly_registered.
Qed.

End PipelineFacts.

Section PipelineTree.
Context `{Runtime}.
Import Parser.

Lemma find_component_ext_on (heap heap' : list ComponentNode)
    (comps : list (pystr * loc)) oid :
  (∀ comp, comp ∈ comps.*2 →
     original_product_id <$> heap !! comp = original_product_id <$> heap' !! comp) →
  find_component heap comps oid = find_component heap' comps oid.
Proof.
  intros Hon. change (find_from heap oid None comps = find_from heap' oid None comps).
  revert Hon. generalize (@None loc).
  induction comps as [|[k c] comps IH]; intros found Hon; [done|].
  rewrite !find_from_cons. rewrite Hon by (rewrite fmap_cons; by left).
  apply IH. intros comp Hin. apply Hon. rewrite fmap_cons. by right.
Qed.

Lemma omap_ext_all {A B} (f g : A → option B) (l : list A) :
  (∀ x, f x = g x) → omap f l = omap g l.
Proof.
  intros Hfg. induction l as [|a l IH]; [done|].
  change (omap ?h (a :: l)) with
    (match h a with Some e => e :: omap h l | None => omap h l end).
  by rewrite Hfg, IH.
Qed.

Lemma registered_length_components st :
  registered st → length (all_components st) = length (heap st).
Proof.
  intros Hreg. by rewrite (registered_components st Hreg), length_fmap, length_seq.
Qed.

(** The tree of a registered parser, whichever branch builds it: the root,
    the size of the heap, and the links of every object. *)
Lemma build_assembly_tree_links st :
  registered st →
  let st' := build_assembly_tree st in
  let n := length (heap st) in
  let edges := resolved_edges st in
  let orphaned := filter (λ comp, comp ∉ edges.*2) (seq 0 n) in
  ∃ root extra,
    assembly_tree st' = Some root ∧
    unlink <$> heap st' = (unlink <$> heap st) ++ extra ∧
    (match filter (root_candidate edges) (seq 0 n) with
     | candidate :: _ => root = candidate ∧ extra = []
     | [] => root = n ∧ extra = [unlink virtual_root]
     end) ∧
    ∀ comp,
      children_at (heap st') comp
        = children_from edges comp
          ++ (if decide (comp = n ∧ root = n) then orphaned else []) ∧
      parent_at (heap st') comp
        = match parent_from edges comp with
          | Some p => Some p
          | None => if decide (comp ∈ orphaned ∧ root = n) then Some n else None
          end.
Proof.
  intros Hreg. cbn zeta.
  destruct (filter (root_candidate (resolved_edges st)) (seq 0 (length (heap st))))
    as [|candidate rest] eqn:Hcand.
  - destruct (build_assembly_tree_virtual st Hreg Hcand) as (Ht & Hlen & Hunl & Hlinks).
    exists (length (heap st)), [unlink virtual_root].
    split; [done|]. split; [by rewrite Hunl, fmap_app|]. split; [done|].
    intros comp. destruct (Hlinks comp) as [-> ->]. split.
    + f_equal. repeat case_decide; try done; tauto.
    + destruct (parent_from _ comp); [done|]. repeat case_decide; try done; tauto.
  - destruct (build_assembly_tree_candidate st candidate rest Hreg Hcand)
      as (Ht & Hlen & Hunl & Hlinks).
    assert (candidate < length (heap st)) as Hlt.
    { assert (candidate ∈ filter (root_candidate (resolved_edges st))
                               (seq 0 (length (heap st)))) as Hin
        by (rewrite Hcand; by left).
      apply list_elem_of_filter in Hin as [_ Hin%elem_of_seq]. lia. }
    exists candidate, []. split; [done|]. split; [by rewrite Hunl, app_nil_r|].
    split; [done|]. intros comp. destruct (Hlinks comp) as [-> ->]. split.
    + rewrite decide_False by lia. by rewrite app_nil_r.
    + destruct (parent_from _ comp); [done|]. rewrite decide_False by lia. done.
Qed.

(** The frame of [build_assembly_tree]. *)
Lemma build_assembly_tree_frame st :
  let st' := build_assembly_tree st in
  all_components st' = all_components st ∧
  assembly_relationships st' = assembly_relationships st ∧
  component_name_index st' = component_name_index st ∧
  standard_parts st' = standard_parts st ∧
  processed_files st' = processed_files st ∧
  annotation_files_seen st' = annotation_files_seen st ∧
  extract_root_geometry st' = extract_root_geometry st.
Proof.
  unfold build_assembly_tree.
  destruct (assembly_relationships st) as [|rel rels] eqn:Hrels; [done|].
  rewrite <- Hrels. destruct (foldl _ _ _) as [[heap' P] C].
  destruct (filter _ _) as [|[k comp] rest]; done.
Qed.

(** The geometry step leaves a virtual root alone. *)
Lemma root_geometry_virtual st :
  (assembly_tree st ≫= λ root, source_file <$> heap st !! root) = Some (str "virtual") →
  root_geometry st = st.
Proof.
  unfold root_geometry. destruct (assembly_tree st) as [root|]; [|done].
  cbn [mbind option_bind]. intros ->. cbn [default].
  rewrite bool_decide_eq_true_2 by done. by rewrite andb_false_r.
Qed.

(** The tree at the end of a successful run of a fresh parser, in terms of
    the final state alone. *)
Lemma parse_batch_links st0 st :
  fresh st0 → parse_batch st0 = (true, st) →
  let n := length (all_components st) in
  let edges := resolved_edges st in
  let orphaned := filter (λ comp, comp ∉ edges.*2) (seq 0 n) in
  Forall (λ e, e.1 < n ∧ e.2 < n) edges ∧
  ∃ root,
    assembly_tree st = Some root ∧
    (match filter (root_candidate edges) (seq 0 n) with
     | candidate :: _ => root = candidate ∧ length (heap st) = n
     | [] => root = n ∧ length (heap st) = S n ∧
             unlink <$> heap st !! n = Some (unlink virtual_root)
     end) ∧
    ∀ comp,
      children_at (heap st) comp
        = children_from edges comp
          ++ (if decide (comp = n ∧ root = n) then orphaned else []) ∧
      parent_at (heap st) comp
        = match parent_from edges comp with
          | Some p => Some p
          | None => if decide (comp ∈ orphaned ∧ root = n) then Some n else None
          end.
Proof.
  intros Hfresh (st2 & Hreg & ->)%parse_batch_registered; [|done]. cbn zeta.
  destruct (root_geometry_frame (build_assembly_tree st2))
    as (Hgeo & Hcomps & Hrels & Htree & _).
  destruct (build_assembly_tree_frame st2) as (Hcomps' & Hrels' & _).
  destruct (build_assembly_tree_links st2 Hreg)
    as (root & extra & Hroot & Hunl & Hextra & Hlinks).
  assert (length (all_components (root_geometry (build_assembly_tree st2)))
          = length (heap st2)) as Hn.
  { by rewrite Hcomps, Hcomps', registered_length_components. }
  assert (original_product_id <$> heap (root_geometry (build_assembly_tree st2))
          = (original_product_id <$> heap st2) ++ (original_product_id <$> extra)) as Hoids.
  { rewrite (fmap_through_no_geometry original_product_id _
               (heap (build_assembly_tree st2))) by done.
    assert (∀ h : list ComponentNode,
              original_product_id <$> h = original_product_id <$> (unlink <$> h)) as Hu.
    { intros h. rewrite <- list_fmap_compose. by apply list_fmap_ext. }
    rewrite Hu, Hunl, fmap_app, <- Hu. done. }
  assert (resolved_edges (root_geometry (build_assembly_tree st2)) = resolved_edges st2)
    as Hedges.
  { unfold resolved_edges. rewrite Hcomps, Hcomps', Hrels, Hrels'.
    assert (∀ oid, find_component (heap (root_geometry (build_assembly_tree st2)))
                     (all_components st2) oid
                   = find_component (heap st2) (all_components st2) oid) as Hfind.
    { intros oid. apply find_component_ext_on. intros comp Hin.
      rewrite registered_components_snd in Hin by done. apply elem_of_seq in Hin.
      rewrite <- !list_lookup_fmap, Hoids, lookup_app_l; [done|].
      rewrite length_fmap. lia. }
    apply omap_ext_all. intros rel. by rewrite !Hfind. }
  rewrite Hn, Hedges, Htree.
  split; [by apply resolved_edges_valid|].
  exists root. split; [done|].
  assert (length (heap (root_geometry (build_assembly_tree st2)))
          = length (heap st2) + length extra) as Hlen.
  { apply (f_equal length) in Hgeo, Hunl.
    rewrite !length_fmap in Hgeo. rewrite length_app, !length_fmap in Hunl. lia. }
  split.
  - destruct (filter _ _) as [|candidate rest].
    + destruct Hextra as [-> ->]. split; [done|]. split; [rewrite Hlen; simpl; lia|].
      assert (unlink <$> heap (build_assembly_tree st2) !! length (heap st2)
              = Some (unlink virtual_root)) as Hvr.
      { rewrite <- list_lookup_fmap, Hunl, lookup_app_r by (by rewrite length_fmap).
        by rewrite length_fmap, Nat.sub_diag. }
      rewrite root_geometry_virtual; [done|].
      rewrite Hroot. cbn [mbind option_bind].
      destruct (heap (build_assembly_tree st2) !! length (heap st2))
        as [[]|]; [|done].
      cbn [fmap option_fmap option_map] in Hvr |- *.
      unfold unlink, virtual_root, new_ComponentNode, set_parent, set_children in Hvr.
      cbn [name product_id source_file node_type children parent annotations
           geometry_info file_info original_product_id annotation_files] in Hvr.
      injection Hvr. intros. subst. done.
    + destruct Hextra as [-> ->]. split; [done|]. rewrite Hlen. simpl. lia.
  - intros comp. destruct (root_geometry_links (build_assembly_tree st2) comp)
      as (-> & -> & _). apply Hlinks.
Qed.

End PipelineTree.

(* ====================================================================== *)
(** * The assembly tree of a successful run *)
(* ====================================================================== *)

Section EdgeFacts.
Import Parser.
Implicit Types (edges : list (loc * loc)) (p c comp : loc).

Lemma parent_from_app edges edges' c :
  parent_from (edges ++ edges') c =
  match parent_from edges' c with
  | Some p => Some p
  | None => parent_from edges c
  end.
Proof.
  unfold parent_from. rewrite filter_app, fmap_app, last_app.
  by destruct (last (_ <$> filter _ edges')).
Qed.

Lemma parent_from_last edges p c :
  c ∉ edges.*2 → parent_from ((p, c) :: edges) c = Some p.
Proof.
  intros Hnot%parent_from_None. rewrite parent_from_cons, Hnot. by rewrite decide_True.
Qed.

Lemma NoDup_snd_one_parent edges p p' c :
  NoDup edges.*2 → (p, c) ∈ edges → (p', c) ∈ edges → p = p'.
Proof.
  induction edges as [|[a b] edges IH]; [by intros _ ?%elem_of_nil|].
  rewrite fmap_cons, NoDup_cons. cbn [snd].
  intros [Hb Hnd] Hp Hp'.
  assert (∀ q, (q, c) ∈ edges → c ∈ edges.*2) as Hin.
  { intros q Hq. apply list_elem_of_fmap. by exists (q, c). }
  apply elem_of_cons in Hp as [Hp|Hp]; apply elem_of_cons in Hp' as [Hp'|Hp'].
  - congruence.
  - destruct Hb. injection Hp as -> ->. eauto.
  - destruct Hb. injection Hp' as -> ->. eauto.
  - eauto.
Qed.

Lemma children_from_NoDup edges p : NoDup edges.*2 → NoDup (children_from edges p).
Proof.
  intros Hnd. unfold children_from.
  eapply sublist_NoDup; [exact Hnd|]. apply fmap_sublist, sublist_filter.
Qed.

Lemma tc_rank (R : relation loc) (rank : loc → nat) a b :
  (∀ p c, R p c → rank p < rank c) → tc R a b → rank a < rank b.
Proof.
  intros Hrank. induction 1 as [a b Hab|a b c Hab _ IH].
  - by apply Hrank.
  - apply Hrank in Hab. lia.
Qed.

(** Edges without a cycle lead from a component that is a parent and not a
    child. *)
Lemma acyclic_edges_candidate edges n :
  acyclic_edges edges → Forall (λ e, e.1 < n ∧ e.2 < n) edges → edges ≠ [] →
  filter (root_candidate edges) (seq 0 n) ≠ [].
Proof.
  intros [rank Hrank] Hbound Hne.
  assert (∀ k p, rank p < k → p ∈ edges.*1 →
            ∃ q, root_candidate edges q ∧ q < n) as Hup.
  { induction k as [|k IH]; intros p Hk Hp; [lia|].
    destruct (decide (p ∈ edges.*2)) as [Hchild|Hnot].
    - apply list_elem_of_fmap in Hchild as ([q c] & -> & Hqc). cbn [snd] in *.
      apply (IH q).
      + apply Hrank in Hqc. lia.
      + apply list_elem_of_fmap. by exists (q, c).
    - exists p. split; [done|].
      apply list_elem_of_fmap in Hp as ([p' c] & -> & Hpc).
      rewrite Forall_forall in Hbound. by destruct (Hbound _ Hpc). }
  destruct edges as [|[p c] edges]; [done|].
  destruct (Hup (S (rank p)) p) as (q & Hq & Hlt); [lia|rewrite fmap_cons; by left|].
  intros Hnil. apply (filter_nil_not_elem_of _ _ q Hnil Hq).
  apply elem_of_seq. lia.
Qed.

(** Every component is under a component that is nobody's child. *)
Lemma acyclic_edges_reachable (R : relation loc) edges n root :
  (∀ p c, (p, c) ∈ edges → R p c) →
  acyclic_edges edges → Forall (λ e, e.1 < n ∧ e.2 < n) edges →
  (∀ comp, comp < n → comp ∉ edges.*2 → comp = root) →
  ∀ comp, comp < n → rtc R root comp.
Proof.
  intros HR [rank Hrank] Hbound Hone.
  assert (∀ k comp, rank comp < k → comp < n → rtc R root comp) as Hup.
  { induction k as [|k IH]; intros comp Hk Hlt; [lia|].
    destruct (decide (comp ∈ edges.*2)) as [Hchild|Hnot].
    - apply list_elem_of_fmap in Hchild as ([q c] & -> & Hqc). cbn [snd] in *.
      eapply rtc_r; [|apply HR; exact Hqc]. apply IH.
      + apply Hrank in Hqc. lia.
      + rewrite Forall_forall in Hbound. by destruct (Hbound _ Hqc).
    - rewrite (Hone comp Hlt Hnot). constructor. }
  intros comp Hlt. apply (Hup (S (rank comp))); [lia|done].
Qed.

End EdgeFacts.

Section TreeClaims.
Context `{Runtime}.
Import Parser.

(** C2 (as the code has it). When the resolved edges of a successful run
    hold an edge (a, b) and later an edge (c, b), [b] is in the children
    list of [a] and in the children list of [c], and the parent of [b] is
    the parent in the last edge whose child is [b]: it is [c] when no later
    edge has the child [b], and then it is not [a] unless [a = c]. *)
Theorem later_parent_wins_and_both_keep_child st0 st edges1 edges2 edges3 a b c :
  fresh st0 → parse_batch st0 = (true, st) →
  resolved_edges st = edges1 ++ (a, b) :: edges2 ++ (c, b) :: edges3 →
  b ∈ children_at (heap st) a ∧
  b ∈ children_at (heap st) c ∧
  parent_at (heap st) b = parent_from ((c, b) :: edges3) b ∧
  (b ∉ edges3.*2 → parent_at (heap st) b = Some c) ∧
  (b ∉ edges3.*2 → a ≠ c → parent_at (heap st) b ≠ Some a).
Proof.
  intros Hfresh Hrun Hedges.
  destruct (parse_batch_links st0 st Hfresh Hrun) as (_ & root & _ & _ & Hlinks).
  cbn zeta in Hlinks. rewrite Hedges in Hlinks.
  assert (b ∈ children_at (heap st) a) as Ha.
  { destruct (Hlinks a) as [-> _]. apply elem_of_app. left.
    apply elem_of_children_from. set_solver. }
  assert (b ∈ children_at (heap st) c) as Hc.
  { destruct (Hlinks c) as [-> _]. apply elem_of_app. left.
    apply elem_of_children_from. set_solver. }
  assert (parent_at (heap st) b = parent_from ((c, b) :: edges3) b) as Hb.
  { destruct (Hlinks b) as [_ ->].
    rewrite parent_from_app.
    change ((a, b) :: edges2 ++ (c, b) :: edges3)
      with (((a, b) :: edges2) ++ (c, b) :: edges3).
    rewrite parent_from_app.
    destruct (parent_from ((c, b) :: edges3) b) as [p|] eqn:Hp; [done|].
    apply parent_from_None in Hp. destruct Hp. rewrite fmap_cons. by left. }
  split; [done|]. split; [done|]. split; [done|].
  split.
  - intros Hlast. by rewrite Hb, parent_from_last.
  - intros Hlast Hne. rewrite Hb, parent_from_last by done. congruence.
Qed.

(** C3 (as the code has it). After a successful run: when no component is a
    parent in a resolved edge and never a child, the tree is a new virtual
    root, placed after the components, whose children are the components
    that are nobody's child, in order, each with the virtual root as its
    parent; when one or more components qualify, the tree is the first of
    them in registration order, no object is added to the components, and
    every component that is nobody's child is left without a parent. *)
Theorem virtual_root_only_without_root_candidate st0 st :
  fresh st0 → parse_batch st0 = (true, st) →
  let n := length (all_components st) in
  let edges := resolved_edges st in
  let candidates := filter (root_candidate edges) (seq 0 n) in
  let orphaned := filter (λ comp, comp ∉ edges.*2) (seq 0 n) in
  (candidates = [] →
     assembly_tree st = Some n ∧ length (heap st) = S n ∧
     unlink <$> heap st !! n = Some (unlink virtual_root) ∧
     children_at (heap st) n = orphaned ∧
     parent_at (heap st) n = None ∧
     ∀ comp, comp ∈ orphaned → parent_at (heap st) comp = Some n) ∧
  (∀ candidate rest, candidates = candidate :: rest →
     assembly_tree st = Some candidate ∧ length (heap st) = n ∧
     ∀ comp, comp < n → comp ∉ edges.*2 → parent_at (heap st) comp = None).
Proof.
  intros Hfresh Hrun n edges candidates orphaned.
  destruct (parse_batch_links st0 st Hfresh Hrun) as (Hbound & root & Htree & Hroot & Hlinks).
  fold n edges in Hbound, Hroot, Hlinks. fold candidates in Hroot. fold orphaned in Hlinks.
  assert (n ∉ edges.*1 ∧ n ∉ edges.*2) as [Hn1 Hn2].
  { rewrite Forall_forall in Hbound.
    split; intros ([p c] & Heq & Hin)%list_elem_of_fmap; cbn in Heq; subst;
      destruct (Hbound _ Hin); cbn in *; lia. }
  split.
  - intros Hnil. rewrite Hnil in Hroot. destruct Hroot as (-> & Hlen & Hvr).
    split; [done|]. split; [done|]. split; [done|].
    split; [|split].
    + destruct (Hlinks n) as [-> _]. rewrite decide_True by done.
      assert (children_from edges n = []) as ->; [|done].
      apply elem_of_nil_inv. intros c Hc%elem_of_children_from.
      apply Hn1. apply list_elem_of_fmap. by exists (n, c).
    + destruct (Hlinks n) as [_ ->].
      apply parent_from_None in Hn2 as ->. rewrite decide_False; [done|].
      intros [[_ Hlt%elem_of_seq]%list_elem_of_filter _]. lia.
    + intros comp Hcomp. destruct (Hlinks comp) as [_ ->].
      pose proof Hcomp as [Hnot _]%list_elem_of_filter.
      apply parent_from_None in Hnot as ->. by rewrite decide_True.
  - intros candidate rest Hcons. rewrite Hcons in Hroot. destruct Hroot as [-> Hlen].
    split; [done|]. split; [done|].
    intros comp Hlt Hnot. destruct (Hlinks comp) as [_ ->].
    apply parent_from_None in Hnot as ->. rewrite decide_False; [done|].
    intros [_ ->].
    assert (n ∈ candidates) as [_ Hin%elem_of_seq]%list_elem_of_filter
      by (rewrite Hcons; by left).
    lia.
Qed.

(** C1 (as the code has it). A successful run designates one root: an
    object of the heap that has no parent and is in no children list, and
    children lists hold objects of the heap only. The objects form a tree
    under that root when no component is the child in two resolved edges,
    the resolved edges have no cycle and, if there is an edge at all, at
    most one component is nobody's child. *)
Theorem assembly_tree_shaped_for_tree_edges st0 st :
  fresh st0 → parse_batch st0 = (true, st) →
  let n := length (all_components st) in
  let edges := resolved_edges st in
  ∃ root,
    assembly_tree st = Some root ∧
    root < length (heap st) ∧
    parent_at (heap st) root = None ∧
    (∀ p, ¬ child_of (heap st) p root) ∧
    (∀ p c, child_of (heap st) p c → p < length (heap st) ∧ c < length (heap st)) ∧
    (NoDup edges.*2 →
     acyclic_edges edges →
     (edges ≠ [] →
      ∀ a b, a < n → b < n → a ∉ edges.*2 → b ∉ edges.*2 → a = b) →
     tree_shaped (heap st) root).
Proof.
  intros Hfresh Hrun n edges.
  destruct (parse_batch_links st0 st Hfresh Hrun)
    as (Hbound & root & Htree & Hroot & Hlinks).
  fold n edges in Hbound, Hroot, Hlinks.
  set (orphaned := filter (λ comp, comp ∉ edges.*2) (seq 0 n)) in *.
  exists root. split; [done|].
  rewrite Forall_forall in Hbound.
  assert (∀ p c, (p, c) ∈ edges → p < n ∧ c < n) as Hlt
    by (intros p c Hin; apply (Hbound _ Hin)).
  assert (∀ p c, (p, c) ∈ edges → c ∈ edges.*2) as Hsnd.
  { intros p c Hin. apply list_elem_of_fmap. by exists (p, c). }
  assert (∀ c, c ∈ orphaned ↔ c < n ∧ c ∉ edges.*2) as Horphan.
  { intros c. unfold orphaned. rewrite list_elem_of_filter, elem_of_seq.
    split; intros []; split; (done || lia). }
  assert (∀ p c, child_of (heap st) p c ↔
                 (p, c) ∈ edges ∨ (p = n ∧ root = n ∧ c ∈ orphaned)) as Hchild.
  { intros p c. unfold child_of. destruct (Hlinks p) as [-> _].
    rewrite elem_of_app, elem_of_children_from. destruct (decide _) as [[-> ->]|Hno].
    - naive_solver.
    - rewrite elem_of_nil. naive_solver. }
  assert (root ≤ n ∧ n ≤ length (heap st) ∧ root < length (heap st) ∧
          root ∉ edges.*2 ∧
          (root < n → root ∈ edges.*1 ∧ length (heap st) = n) ∧
          (root = n → length (heap st) = S n ∧
                      filter (root_candidate edges) (seq 0 n) = []))
    as (Hle & Hlen & Hin & Hnochild & Hcandidate & Hvirtual).
  { destruct (filter (root_candidate edges) (seq 0 n)) as [|candidate rest] eqn:Hf.
    - destruct Hroot as (-> & Hlen & _). rewrite Hlen.
      split; [lia|]. split; [lia|]. split; [lia|]. split; [|split; [lia|done]].
      intros ([p c] & Heq & Hpc)%list_elem_of_fmap. cbn in Heq. subst.
      apply Hlt in Hpc. lia.
    - destruct Hroot as [-> Hlen]. rewrite Hlen.
      assert (candidate ∈ filter (root_candidate edges) (seq 0 n)) as Hc
        by (rewrite Hf; by left).
      apply list_elem_of_filter in Hc as [[Hp Hc] Hseq%elem_of_seq].
      split; [lia|]. split; [lia|]. split; [lia|]. split; [done|].
      split; [done|lia]. }
  split; [done|].
  assert (parent_at (heap st) root = None) as Hnoparent.
  { destruct (Hlinks root) as [_ ->].
    apply parent_from_None in Hnochild as ->. rewrite decide_False; [done|].
    intros [[Hr _]%Horphan ->]. lia. }
  split; [done|].
  assert (∀ p, ¬ child_of (heap st) p root) as Htop.
  { intros p [Hpc|(_ & -> & [Hr _]%Horphan)]%Hchild; [|lia]. by apply Hsnd in Hpc. }
  split; [done|].
  assert (∀ p c, child_of (heap st) p c →
                 p < length (heap st) ∧ c < length (heap st)) as Hclosed.
  { intros p c [Hpc|(-> & -> & [Hc _]%Horphan)]%Hchild; [|lia].
    apply Hlt in Hpc. lia. }
  split; [done|].
  intros Hnd Hacyclic Hone.
  assert (root = n → edges = []) as Hflat.
  { intros Hr. destruct (decide (edges = [])) as [|Hne]; [done|].
    destruct (acyclic_edges_candidate edges n Hacyclic); [|done|by apply Hvirtual].
    by apply Forall_forall. }
  assert (∀ comp, comp < n → comp ∉ edges.*2 → root < n → comp = root) as Hsingle.
  { intros comp Hcomp Hnot Hr. apply Hone; [|done..].
    destruct (Hcandidate Hr) as [Hp _]. intros ->. by apply elem_of_nil in Hp. }
  split; [done|done| | | | |done|].
  - intros comp Hcomp. destruct (decide (root = n)) as [Hr|Hr].
    + destruct (Hvirtual Hr) as [Hlength _]. rewrite Hlength in Hcomp.
      destruct (decide (comp = n)) as [->|Hne]; [by rewrite Hr|].
      apply rtc_once, Hchild. right. split; [done|]. split; [done|].
      apply Horphan. split; [lia|]. rewrite (Hflat Hr). by intros ?%elem_of_nil.
    + destruct (Hcandidate ltac:(lia)) as [_ Hlength]. rewrite Hlength in Hcomp.
      apply (acyclic_edges_reachable _ edges n); [| |by apply Forall_forall| |done].
      * intros p c Hpc. apply Hchild. by left.
      * done.
      * intros c Hc Hnot. apply Hsingle; [done..|lia].
  - intros comp Hcycle. destruct Hacyclic as [rank Hrank].
    apply (tc_rank _ (λ x, if decide (x = n) then 0 else S (rank x))) in Hcycle; [lia|].
    intros p c [Hpc|(-> & _ & [Hc _]%Horphan)]%Hchild.
    + destruct (Hlt _ _ Hpc). rewrite !decide_False by lia.
      apply Hrank in Hpc. lia.
    + rewrite decide_True, decide_False by lia. lia.
  - intros p p' c [Hpc|(-> & _ & [_ Hc]%Horphan)]%Hchild
                  [Hpc'|(-> & _ & [_ Hc']%Horphan)]%Hchild.
    + by apply (NoDup_snd_one_parent edges p p' c).
    + by apply Hsnd in Hpc.
    + by apply Hsnd in Hpc'.
    + done.
  - intros p. destruct (Hlinks p) as [-> _]. apply NoDup_app. split; [|split].
    + by apply children_from_NoDup.
    + intros c Hc%elem_of_children_from%Hsnd. destruct (decide _); [|by intros ?%elem_of_nil].
      by intros [_ ?]%Horphan.
    + destruct (decide _); [|constructor]. apply NoDup_filter, NoDup_seq.
  - intros comp Hcomp Hnone.
    assert (comp ∉ edges.*2) as Hnot.
    { intros ([p c] & Heq & Hpc)%list_elem_of_fmap. cbn in Heq. subst.
      apply (Hnone p), Hchild. by left. }
    destruct (decide (root = n)) as [Hr|Hr].
    + destruct (Hvirtual Hr) as [Hlength _]. rewrite Hlength in Hcomp.
      destruct (decide (comp = n)) as [->|Hne]; [done|].
      destruct (Hnone n). apply Hchild. right. split; [done|]. split; [done|].
      apply Horphan. split; [lia|done].
    + destruct (Hcandidate ltac:(lia)) as [_ Hlength]. rewrite Hlength in Hcomp.
      apply Hsingle; [done..|lia].
Qed.

End TreeClaims.

(** ** Runs over example directories *)

Section TreeExamples.
Import Parser Examples.

(** C2, a run that meets the hypotheses: the usages A -> B and C -> B. *)
Lemma later_parent_wins_and_both_keep_child_witness :
  1 ∈ children_at (heap (run (only two_parents))) 0 ∧
  1 ∈ children_at (heap (run (only two_parents))) 2 ∧
  parent_at (heap (run (only two_parents))) 1 = Some 2.
Proof.
  destruct (@later_parent_wins_and_both_keep_child (only two_parents) parser
              (run (only two_parents)) [] [] [] 0 1 2) as (Ha & Hc & _ & Hp & _).
  - by repeat split.
  - by vm_compute.
  - by vm_compute.
  - split; [done|]. split; [done|]. apply Hp. by intros ?%elem_of_nil.
Defined.

(** C2 as stated fails: with the usages A -> B, then C -> B, the parent of
    B is C, and C keeps B as its child, as A does. *)
Lemma second_parent_wins_and_keeps_child :
  succeeded (only two_parents) = true ∧
  name <$> heap (run (only two_parents)) = [str "A"; str "B"; str "C"] ∧
  resolved_edges (run (only two_parents)) = [(0, 1); (2, 1)] ∧
  parent_at (heap (run (only two_parents))) 1 = Some 2 ∧
  children_at (heap (run (only two_parents))) 2 = [1] ∧
  children_at (heap (run (only two_parents))) 0 = [1].
Proof. by vm_compute. Qed.

(** C3, a run that meets the hypotheses: one product and no usage. *)
Lemma virtual_root_only_without_root_candidate_witness :
  assembly_tree (run (only single_part)) = Some 1 ∧
  name_at (heap (run (only single_part))) 1 = str "SSI_Anlage_Root" ∧
  children_at (heap (run (only single_part))) 1 = [0] ∧
  parent_at (heap (run (only single_part))) 0 = Some 1.
Proof.
  pose proof (@virtual_root_only_without_root_candidate (only single_part) parser
                (run (only single_part))) as Hrun.
  cbn zeta in Hrun. destruct Hrun as [Hvirtual _].
  - by repeat split.
  - by vm_compute.
  - destruct Hvirtual as (Htree & _ & _ & Hchildren & _ & Hparent); [by vm_compute|].
    split; [exact Htree|]. split; [by vm_compute|]. split; [exact Hchildren|].
    apply (Hparent 0). by vm_compute; left.
Defined.

(** C3 as stated fails: with the usages A -> B and C -> D, two components
    are parents and never children; the tree is A, no virtual root is made,
    and C, nobody's child, is left without a parent. *)
Lemma two_root_candidates_no_virtual_root :
  succeeded (only two_assemblies) = true ∧
  name <$> heap (run (only two_assemblies)) = [str "A"; str "B"; str "C"; str "D"] ∧
  resolved_edges (run (only two_assemblies)) = [(0, 1); (2, 3)] ∧
  filter (root_candidate [(0, 1); (2, 3)]) (seq 0 4) = [0; 2] ∧
  assembly_tree (run (only two_assemblies)) = Some 0 ∧
  children_at (heap (run (only two_assemblies))) 0 = [1] ∧
  parent_at (heap (run (only two_assemblies))) 2 = None.
Proof. by vm_compute. Qed.

(** C1, a run that meets the hypotheses: the usages A -> B, A -> C and
    B -> D. *)
Lemma assembly_tree_shaped_for_tree_edges_witness :
  assembly_tree (run (only small_assembly)) = Some 0 ∧
  tree_shaped (heap (run (only small_assembly))) 0.
Proof.
  pose proof (@assembly_tree_shaped_for_tree_edges (only small_assembly) parser
                (run (only small_assembly))) as Hrun.
  cbn zeta in Hrun.
  assert (resolved_edges (run (only small_assembly)) = [(0, 1); (0, 2); (1, 3)])
    as Hedges by (by vm_compute).
  assert (length (all_components (run (only small_assembly))) = 4)
    as Hn by (by vm_compute).
  rewrite Hedges, Hn in Hrun.
  destruct Hrun as (root & Htree & _ & _ & _ & _ & Hshape).
  - by repeat split.
  - by vm_compute.
  - assert (root = 0) as -> by (vm_compute in Htree; congruence).
    split; [done|]. apply Hshape.
    + apply (bool_decide_unpack _). by vm_compute.
    + exists (λ comp, comp). intros p c Hin.
      repeat (apply elem_of_cons in Hin as [Hin|Hin]; [injection Hin as -> ->; lia|]).
      apply elem_of_nil in Hin. destruct Hin.
    + intros _ a b Ha Hb Hna Hnb.
      cbn [fmap list_fmap snd] in Hna, Hnb.
      rewrite !elem_of_cons, elem_of_nil in Hna, Hnb. lia.
Defined.

(** C1 as stated fails: with the usages A -> B and C -> B, B is in the
    children lists of A and of C, and C is not under the root A; with the
    usages A -> B and B -> A, each of A and B is its own ancestor, and
    neither is under the virtual root. *)
Lemma shared_child_and_cycle_are_kept :
  (succeeded (only two_parents) = true ∧
   assembly_tree (run (only two_parents)) = Some 0 ∧
   children_at (heap (run (only two_parents))) 0 = [1] ∧
   children_at (heap (run (only two_parents))) 1 = [] ∧
   children_at (heap (run (only two_parents))) 2 = [1] ∧
   ¬ tree_shaped (heap (run (only two_parents))) 0) ∧
  (succeeded (only two_cycle) = true ∧
   assembly_tree (run (only two_cycle)) = Some 2 ∧
   children_at (heap (run (only two_cycle))) 0 = [1] ∧
   children_at (heap (run (only two_cycle))) 1 = [0] ∧
   children_at (heap (run (only two_cycle))) 2 = [] ∧
   ¬ tree_shaped (heap (run (only two_cycle))) 2).
Proof.
  split.
  - do 5 (split; [by vm_compute|]).
    intros Hshape. pose proof (tree_one_parent _ _ Hshape 0 2 1) as Heq.
    unfold child_of in Heq.
    assert (children_at (heap (run (only two_parents))) 0 = [1]) as Ha by (by vm_compute).
    assert (children_at (heap (run (only two_parents))) 2 = [1]) as Hc by (by vm_compute).
    rewrite Ha, Hc in Heq. discriminate Heq; by left.
  - do 5 (split; [by vm_compute|]).
    intros Hshape. apply (tree_acyclic _ _ Hshape 0).
    assert (children_at (heap (run (only two_cycle))) 0 = [1]) as Ha by (by vm_compute).
    assert (children_at (heap (run (only two_cycle))) 1 = [0]) as Hb by (by vm_compute).
    apply (tc_l _ _ 1); [|apply tc_once]; unfold child_of.
    + rewrite Ha. by left.
    + rewrite Hb. by left.
Qed.

End TreeExamples.

(* ====================================================================== *)
(** * Further properties of batch_step_parser.py *)
(* ====================================================================== *)

Section DictLookup.
Context {V : Type}.
Implicit Types (d : list (pystr * V)) (k : pystr) (v : V).

Lemma dict_get_set k k' v d :
  dict_get k (dict_set k' v d) = if decide (k' = k) then Some v else dict_get k d.
Proof.
  induction d as [|[k0 v0] d IH]; cbn [dict_set dict_get].
  - done.
  - destruct (decide (k0 = k')) as [->|Hne]; cbn [dict_get].
    + by destruct (decide (k' = k)).
    + destruct (decide (k0 = k)) as [->|Hne'].
      * by rewrite decide_False by done.
      * done.
Qed.


End DictLookup.

Section FindStepFiles.
Context `{Runtime}.
Import Parser.

Lemma unique_by_abspath_spec seen_paths step_files :
  unique_by_abspath seen_paths step_files `sublist_of` step_files ∧
  NoDup (path_abspath <$> unique_by_abspath seen_paths step_files) ∧
  (∀ f, f ∈ unique_by_abspath seen_paths step_files → path_abspath f ∉ seen_paths) ∧
  (∀ pre f post, step_files = pre ++ f :: post →
     path_abspath f ∉ seen_paths → path_abspath f ∉ path_abspath <$> pre →
     f ∈ unique_by_abspath seen_paths step_files).
Proof.
  revert seen_paths. induction step_files as [|g rest IH]; intros seen_paths.
  - cbn [unique_by_abspath]. split; [done|]. split; [constructor|].
    split; [by intros f ?%elem_of_nil|]. intros pre f post Heq. by destruct pre.
  - cbn [unique_by_abspath]. case_bool_decide as Hseen.
    + destruct (IH seen_paths) as (Hsub & Hnd & Hnew & Hfirst).
      split; [by apply sublist_cons|]. split; [done|]. split; [done|].
      intros [|g' pre] f post Heq Hf Hpre; simplify_eq/=; [done|].
      apply (Hfirst pre f post); [done..|].
      apply not_elem_of_cons in Hpre. tauto.
    + destruct (IH ({[path_abspath g]} ∪ seen_paths)) as (Hsub & Hnd & Hnew & Hfirst).
      split; [by apply sublist_skip|]. split; [|split].
      * rewrite fmap_cons. apply NoDup_cons. split; [|done].
        intros (f & Heq & Hf)%list_elem_of_fmap. apply (Hnew f Hf). set_solver.
      * intros f [->|Hf]%elem_of_cons; [done|]. specialize (Hnew f Hf). set_solver.
      * intros [|g' pre] f post Heq Hf Hpre; simplify_eq/=; [by left|].
        right. apply not_elem_of_cons in Hpre.
        apply (Hfirst pre f post); [done| |tauto]. set_solver.
Qed.

(** X1. [find_step_files] returns globbed paths in the order they come, no
    two of them with one absolute path; the first globbed path of every
    absolute path is among them, so every globbed file is covered. *)
Theorem find_step_files_one_path_per_absolute_path st :
  find_step_files st `sublist_of` glob_step_files (input_directory st) ∧
  NoDup (path_abspath <$> find_step_files st) ∧
  (∀ pre f post,
     glob_step_files (input_directory st) = pre ++ f :: post →
     path_abspath f ∉ path_abspath <$> pre → f ∈ find_step_files st) ∧
  (∀ f, f ∈ glob_step_files (input_directory st) →
        path_abspath f ∈ path_abspath <$> find_step_files st).
Proof.
  unfold find_step_files.
  destruct (unique_by_abspath_spec ∅ (glob_step_files (input_directory st)))
    as (Hsub & Hnd & _ & Hfirst).
  split; [done|]. split; [done|].
  assert (∀ pre f post,
            glob_step_files (input_directory st) = pre ++ f :: post →
            path_abspath f ∉ path_abspath <$> pre →
            f ∈ unique_by_abspath ∅ (glob_step_files (input_directory st))) as Hkept.
  { intros pre f post Heq Hpre. apply (Hfirst pre f post); [done| |done]. set_solver. }
  split; [done|].
  intros f Hf.
  assert (∀ l, f ∈ l →
            ∃ pre g post, l = pre ++ g :: post ∧ path_abspath g = path_abspath f ∧
                          path_abspath g ∉ path_abspath <$> pre) as Hsplit.
  { clear. induction l as [|g l IH]; [by intros ?%elem_of_nil|].
    intros Hin.
    destruct (decide (path_abspath g = path_abspath f)) as [Heq|Hne].
    - exists [], g, l. split; [done|]. split; [done|]. by intros ?%elem_of_nil.
    - apply elem_of_cons in Hin as [->|Hin]; [done|].
      destruct (IH Hin) as (pre & g' & post & -> & Heq & Hpre).
      exists (g :: pre), g', post. split; [done|]. split; [done|].
      rewrite fmap_cons, not_elem_of_cons. split; [congruence|done]. }
  destruct (Hsplit _ Hf) as (pre & g & post & Heq & Habs & Hpre).
  rewrite <- Habs. apply list_elem_of_fmap_2. by apply (Hkept pre g post).
Qed.

End FindStepFiles.

Section Extraction.
Context `{Runtime}.
Import Parser.







(** The key a component has in the name index. *)
Lemma build_name_index_lookup (heap : list ComponentNode)
    (comps : list (pystr * loc)) (index : list (pystr * loc)) key :
  dict_get key
    (foldl (λ index '(_, comp),
              match heap !! comp with
              | Some node =>
                  let key := str_upper (remove_solidworks_suffix (name node)) in
                  if dict_mem key index then index else dict_set key comp index
              | None => index
              end) index comps)
  = match dict_get key index with
    | Some comp => Some comp
    | None =>
        snd <$> head (filter (λ kv : pystr * loc,
                                (λ node, str_upper (remove_solidworks_suffix (name node)))
                                  <$> heap !! kv.2 = Some key) comps)
    end.
Proof.
  revert index. induction comps as [|[pid comp] comps IH]; intros index.
  - cbn [foldl]. by destruct (dict_get key index).
  - cbn [foldl]. rewrite IH, filter_cons. cbn [snd].
    destruct (heap !! comp) as [node|] eqn:Hnode; cbn [fmap option_fmap option_map].
    + cbn zeta. unfold dict_mem.
      destruct (decide (Some (str_upper (remove_solidworks_suffix (name node))) = Some key))
        as [Heq|Hne].
      * injection Heq as Heq. rewrite Heq.
        destruct (dict_get key index) as [c|] eqn:Hget; [by rewrite Hget|].
        by rewrite dict_get_set, decide_True.
      * destruct (dict_get _ index) eqn:Hget; [done|].
        rewrite dict_get_set, decide_False by congruence. done.
    + rewrite decide_False by done. done.
Qed.

(** X4. In the name index a key stands for the first component, in
    registration order, whose name gives that key (the name stripped, a
    trailing dash with digits removed, in upper case); later components of
    the same key are not in the index, and a key no component has is
    missing. *)
Theorem name_index_holds_first_component_of_a_key
    (heap : list ComponentNode) (comps : list (pystr * loc)) key :
  dict_get key (build_name_index heap comps)
  = snd <$> head (filter (λ kv : pystr * loc,
                            (λ node, str_upper (remove_solidworks_suffix (name node)))
                              <$> heap !! kv.2 = Some key) comps).
Proof. unfold build_name_index. by rewrite build_name_index_lookup. Qed.

End Extraction.

Section LinkedAnnotations.
Context `{Runtime}.
Import Parser.



Lemma dict_get_Some_key {V} k (v : V) d : dict_get k d = Some v → k ∈ d.*1.
Proof.
  intros Hin%dict_get_Some_elem_of. apply list_elem_of_fmap. by exists (k, v).
Qed.






End LinkedAnnotations.

Section Registration.
Context `{Runtime}.
Import Parser Registry.

Lemma register_component_eq main_path file_info product_annotations index pid info st :
  let st' := register_component main_path file_info product_annotations index pid info st in
  let component :=
    component_of_product main_path file_info product_annotations
      (assembly_relationships st) index (pid, info) in
  heap st' = heap st ++ [component] ∧
  assembly_relationships st' = assembly_relationships st ∧
  processed_files st' = processed_files st ∧
  standard_parts st' =
    (if decide (node_type component = STANDARD_PART)
     then dict_set (product_id component) (pi_name info, pi_description info)
            (standard_parts st)
     else standard_parts st).
Proof. done. Qed.

Lemma register_components_heap main_path file_info product_annotations products :
  ∀ index st,
    let st' := register_components main_path file_info product_annotations
                 index products st in
    heap st' =
      heap st ++ imap (λ i, component_of_product main_path file_info product_annotations
                              (assembly_relationships st) (index + i)) products ∧
    assembly_relationships st' = assembly_relationships st ∧
    processed_files st' = processed_files st.
Proof.
  induction products as [|[pid info] products IH]; intros index st.
  - cbn. by rewrite app_nil_r.
  - cbn [register_components imap].
    destruct (register_component_eq main_path file_info product_annotations
                index pid info st) as (Hheap & Hrels & Hfiles & _).
    destruct (IH (S index)
                (register_component main_path file_info product_annotations
                   index pid info st)) as (Hheap' & Hrels' & Hfiles').
    cbn zeta in *. rewrite Hheap', Hrels', Hfiles', Hheap, Hrels, Hfiles, <- app_assoc.
    split; [|done]. f_equal. cbn [app]. f_equal.
    + by rewrite Nat.add_0_r.
    + apply imap_ext. intros i product _. cbn. by rewrite Nat.add_succ_r.
Qed.

Lemma register_components_standard_parts_older main_path file_info product_annotations
    products :
  ∀ index st k,
    k < index →
    dict_get (product_id_of k)
      (standard_parts (register_components main_path file_info product_annotations
                         index products st))
    = dict_get (product_id_of k) (standard_parts st).
Proof.
  induction products as [|[pid info] products IH]; intros index st k Hk; [done|].
  cbn [register_components]. rewrite IH by lia.
  destruct (register_component_eq main_path file_info product_annotations
              index pid info st) as (_ & _ & _ & Hstd).
  cbn zeta in Hstd. rewrite Hstd. destruct (decide _); [|done].
  rewrite dict_get_set, decide_False; [done|].
  change (product_id_of index ≠ product_id_of k).
  intros Heq%product_id_of_inj. lia.
Qed.

Lemma register_components_standard_parts main_path file_info product_annotations
    products :
  ∀ index st i product,
    products !! i = Some product →
    let component :=
      component_of_product main_path file_info product_annotations
        (assembly_relationships st) (index + i) product in
    dict_get (product_id component)
      (standard_parts (register_components main_path file_info product_annotations
                         index products st))
    = if decide (node_type component = STANDARD_PART)
      then Some (pi_name product.2, pi_description product.2)
      else dict_get (product_id component) (standard_parts st).
Proof.
  induction products as [|[pid info] products IH]; intros index st i product Hi; [done|].
  cbn [register_components].
  destruct (register_component_eq main_path file_info product_annotations
              index pid info st) as (_ & Hrels & _ & Hstd).
  cbn zeta in Hrels, Hstd.
  destruct i as [|i].
  - injection Hi as <-. cbn zeta. rewrite Nat.add_0_r.
    change (product_id (component_of_product _ _ _ _ index (pid, info)))
      with (product_id_of index).
    rewrite register_components_standard_parts_older by lia.
    rewrite Hstd. destruct (decide _); [|done].
    by rewrite dict_get_set, decide_True.
  - cbn [lookup list_lookup] in Hi.
    specialize (IH (S index)
                  (register_component main_path file_info product_annotations
                     index pid info st) i product Hi). cbn zeta in IH.
    rewrite Hrels in IH. rewrite Nat.add_succ_r. cbn zeta.
    change (S index + i) with (S (index + i)) in IH. rewrite IH.
    destruct (decide _); [done|].
    rewrite Hstd. destruct (decide _); [|done].
    rewrite dict_get_set, decide_False; [done|].
    change (product_id_of index ≠ product_id_of (S (index + i))).
    intros Heq%product_id_of_inj. lia.
Qed.

Lemma identify_component_type_leaf product_info annotations :
  identify_component_type product_info annotations false ≠ ASSEMBLY.
Proof.
  unfold identify_component_type. destruct (existsb _ _); [done|].
  by destruct (manufacturer_pattern_search _).
Qed.

Lemma node_type_of_ASSEMBLY rels pid info anns :
  node_type_of rels pid info anns = ASSEMBLY ↔
  ∃ rel, rel ∈ rels ∧ parent_product_id rel = pid.
Proof.
  unfold node_type_of.
  destruct (existsb _ rels) eqn:Hex.
  - split; [intros _|done]. apply existsb_exists in Hex as (rel & Hin & Hrel).
    exists rel. split; [by apply list_elem_of_In|]. by apply bool_decide_eq_true in Hrel.
  - split; [by intros ?%identify_component_type_leaf|].
    intros (rel & Hin & Hrel). assert (existsb
      (λ rel, bool_decide (parent_product_id rel = pid)) rels = true) as Htrue; [|congruence].
    apply existsb_exists. exists rel. split; [by apply list_elem_of_In|].
    by apply bool_decide_eq_true.
Qed.

(** What [process_main_assembly] leaves in a parser that was fresh. *)
Lemma process_main_assembly_heap main_path st st' :
  fresh st → process_main_assembly main_path st = (true, st') →
  let content := load_file_content main_path in
  let products := extract_products_from_content content in
  let linked :=
    link_annotations_to_products_in_content (enable_annotation_fallback st) content
      products (extract_annotations_from_content content) in
  assembly_relationships st' = extract_assembly_relationships_from_content content products ∧
  heap st' = imap (λ i, component_of_product main_path (extract_file_info content) linked
                          (assembly_relationships st') (S i)) products ∧
  processed_files st' = processed_files st ++ [main_path] ∧
  component_name_index st' = build_name_index (heap st') (all_components st') ∧
  ∀ i product,
    products !! i = Some product →
    dict_get (str "P" ++ decimal_05 (S i)) (standard_parts st')
    = if decide (node_type_of (assembly_relationships st') product.1 product.2
                   (default [] (dict_get product.1 linked)) = STANDARD_PART)
      then Some (pi_name product.2, pi_description product.2)
      else dict_get (str "P" ++ decimal_05 (S i)) (standard_parts st).
Proof.
  intros (Hheap & Hcomps & Hrels & Htree). unfold process_main_assembly.
  destruct (doc_nonempty (load_file_content main_path)); [|done].
  cbn [negb]. intros [= <-]. cbn zeta.
  set (content := load_file_content main_path).
  set (products := extract_products_from_content content).
  set (linked := link_annotations_to_products_in_content _ content products _).
  set (st1 := with_assembly_relationships _ st).
  destruct (register_components_heap main_path (extract_file_info content) linked
              products 1 st1) as (Hh & Hr & Hf).
  cbn zeta in Hh, Hr, Hf.
  cbn [heap assembly_relationships processed_files component_name_index
       all_components standard_parts].
  assert (assembly_relationships st1
          = extract_assembly_relationships_from_content content products) as Hrels1.
  { unfold st1. cbn [assembly_relationships]. by rewrite Hrels. }
  rewrite Hr, Hrels1, Hf.
  split; [done|]. split; [|split; [done|split; [done|]]].
  - rewrite Hh, Hrels1. change (heap st1) with (heap st). by rewrite Hheap.
  - intros i product Hi.
    pose proof (register_components_standard_parts main_path (extract_file_info content)
                  linked products 1 st1 i product Hi) as Hstd.
    cbn zeta in Hstd. rewrite Hrels1 in Hstd. exact Hstd.
Qed.

(** X6. After the primary document, a fresh parser holds one component per
    product of the product table, in the table's order: the component of
    the product number [i + 1] has the identifier P followed by [i + 1] in
    at least five digits, the product's name, its native identifier as
    original identifier, the primary path as source, the annotations linked
    to the product, and neither children, parent, geometry nor annotation
    files. The table of components finds it under its identifier, and
    different components have different identifiers. *)
Theorem components_follow_the_product_table main_path st st' :
  fresh st → process_main_assembly main_path st = (true, st') →
  let content := load_file_content main_path in
  let products := extract_products_from_content content in
  let linked :=
    link_annotations_to_products_in_content (enable_annotation_fallback st) content
      products (extract_annotations_from_content content) in
  length (heap st') = length products ∧
  (∀ i j, str "P" ++ decimal_05 i = str "P" ++ decimal_05 j → i = j) ∧
  ∀ i product_id product_info,
    products !! i = Some (product_id, product_info) →
    dict_get (str "P" ++ decimal_05 (S i)) (all_components st') = Some i ∧
    ∃ node,
      heap st' !! i = Some node ∧
      Parser.product_id node = str "P" ++ decimal_05 (S i) ∧
      name node = pi_name product_info ∧
      original_product_id node = product_id ∧
      source_file node = main_path ∧
      annotations node = default [] (dict_get product_id linked) ∧
      file_info node = extract_file_info content ∧
      children node = [] ∧ parent node = None ∧
      geometry_info node = None ∧ annotation_files node = [].
Proof.
  intros Hfresh Hmain content products linked.
  destruct (process_main_assembly_heap main_path st st' Hfresh Hmain)
    as (_ & Hheap & _).
  fold content products linked in Hheap.
  destruct (process_main_assembly_registered main_path st st' Hfresh Hmain)
    as (Hreg & _).
  assert (length (heap st') = length products) as Hlen
    by (by rewrite Hheap, length_imap).
  split; [done|]. split; [apply product_id_of_inj|].
  intros i product_id product_info Hi.
  assert (i < length products) as Hlt by (by eapply lookup_lt_Some).
  split.
  - rewrite (registered_components st' Hreg), Hlen.
    destruct (dict_get _ _) as [comp|] eqn:Hget.
    + apply dict_get_Some_elem_of in Hget.
      apply list_elem_of_fmap in Hget as (comp' & [= Heq ->] & _).
      apply decimal_05_inj in Heq. congruence.
    + apply dict_get_None in Hget. destruct Hget.
      rewrite <- list_fmap_compose. apply list_elem_of_fmap. exists i.
      split; [done|]. apply elem_of_seq. lia.
  - eexists. split; [by rewrite Hheap, list_lookup_imap, Hi|]. done.
Qed.

(** X7. After the primary document, a component has the type ASSEMBLY
    exactly when its product is the parent of an assembly relationship,
    whatever its name says; otherwise its type is the one
    [identify_component_type] gives a product without children, STANDARD_PART
    or PART. When the table of standard parts was empty before, it holds
    exactly the components of type STANDARD_PART, with name and description
    of the product. *)
Theorem component_types_follow_relationships main_path st st' :
  fresh st → standard_parts st = [] →
  process_main_assembly main_path st = (true, st') →
  let products := extract_products_from_content (load_file_content main_path) in
  ∀ i product_id product_info node,
    products !! i = Some (product_id, product_info) → heap st' !! i = Some node →
    (node_type node = ASSEMBLY ↔
       ∃ rel, rel ∈ assembly_relationships st' ∧ parent_product_id rel = product_id) ∧
    (node_type node ≠ ASSEMBLY →
       node_type node = identify_component_type product_info (annotations node) false ∧
       (node_type node = STANDARD_PART ∨ node_type node = PART)) ∧
    dict_get (Parser.product_id node) (standard_parts st')
    = if decide (node_type node = STANDARD_PART)
      then Some (pi_name product_info, pi_description product_info) else None.
Proof.
  intros Hfresh Hstd Hmain products i product_id product_info node Hi Hnode.
  destruct (process_main_assembly_heap main_path st st' Hfresh Hmain)
    as (_ & Hheap & _ & _ & Hparts).
  fold products in Hheap, Hparts.
  rewrite Hheap, list_lookup_imap, Hi in Hnode. injection Hnode as <-.
  cbn [node_type annotations Parser.product_id component_of_product fst snd].
  split; [apply node_type_of_ASSEMBLY|]. split.
  - intros Hno. unfold node_type_of in *.
    destruct (existsb _ _); [done|]. split; [done|].
    destruct (identify_component_type _ _ _) eqn:Htype; [done|by right|by left].
  - rewrite (Hparts i (product_id, product_info) Hi). cbn [fst snd].
    destruct (decide _); [done|]. by rewrite Hstd.
Qed.

End Registration.

Section SupplementerExtras.
Context `{Runtime}.
Import Parser.

Lemma merge_file_appends filename anns node :
  annotations node `prefix_of` annotations (merge_file filename anns node) ∧
  annotation_files node `prefix_of` annotation_files (merge_file filename anns node).
Proof.
  unfold merge_file.
  destruct (merge_annotations_appends (annotations node) anns) as (added & Hadd & _).
  cbn [annotations annotation_files set_annotations].
  case_bool_decide; cbn [annotations annotation_files set_annotations set_annotation_files].
  - split; [by exists added|done].
  - split; [by exists added|by eexists].
Qed.

Lemma supplement_from_file_appends main_path filename st comp :
  annotations_at (heap st) comp
    `prefix_of` annotations_at (heap (supplement_from_file main_path filename st)) comp ∧
  default [] (annotation_files <$> heap st !! comp)
    `prefix_of` default [] (annotation_files
                              <$> heap (supplement_from_file main_path filename st) !! comp).
Proof.
  rewrite supplement_from_file_heap. unfold annotations_at.
  destruct (contribution main_path filename st) as [[c anns]|]; [|done].
  destruct (decide (comp = c)) as [->|Hne].
  - rewrite list_lookup_alter_eq. destruct (heap st !! c) as [node|]; [|done].
    apply merge_file_appends.
  - by rewrite list_lookup_alter_ne.
Qed.

Lemma supplement_from_file_seen main_path filename st :
  annotation_files_seen st
    `prefix_of` annotation_files_seen (supplement_from_file main_path filename st).
Proof.
  unfold supplement_from_file.
  destruct (match main_path with Some (c :: r) => _ | _ => false end); [done|].
  destruct (file_annotations _ _) as [anns|]; [|done].
  cbn [annotation_files_seen with_annotation_files_seen].
  destruct (matching_component st filename); by eexists.
Qed.

(** X8. The annotation supplementer only appends: whatever the files, the
    annotations and the annotation files of every component before it are a
    prefix of those after it, and so is the list of files it has read.
    Nothing else changes: the components keep every other field (name,
    identifiers, type, source, links, geometry, header data), none is added
    or removed, and the table of components, the relationships, the tree,
    the name index, the standard parts and the processed files stay as they
    were. *)
Theorem supplementer_only_appends files st :
  (∀ comp,
     annotations_at (heap st) comp
       `prefix_of` annotations_at (heap (supplement_annotations_from_files files st)) comp ∧
     default [] (annotation_files <$> heap st !! comp)
       `prefix_of`
         default [] (annotation_files
                       <$> heap (supplement_annotations_from_files files st) !! comp)) ∧
  annotation_files_seen st
    `prefix_of` annotation_files_seen (supplement_annotations_from_files files st) ∧
  skeleton <$> heap (supplement_annotations_from_files files st) = skeleton <$> heap st ∧
  all_components (supplement_annotations_from_files files st) = all_components st ∧
  assembly_relationships (supplement_annotations_from_files files st)
    = assembly_relationships st ∧
  assembly_tree (supplement_annotations_from_files files st) = assembly_tree st ∧
  component_name_index (supplement_annotations_from_files files st)
    = component_name_index st ∧
  standard_parts (supplement_annotations_from_files files st) = standard_parts st ∧
  processed_files (supplement_annotations_from_files files st) = processed_files st.
Proof.
  split; [|split].
  3: { destruct (supplement_annotations_from_files_frame files st)
         as (Hsk & Hc & Hr & Ht & Hi & Hs & Hp & _). done. }
  - intros comp. unfold supplement_annotations_from_files.
    generalize (main_path_of st) as main_path. intros main_path.
    revert st. induction files as [|f files IH]; intros st; [done|].
    cbn [foldl].
    destruct (IH (supplement_from_file main_path f st)) as [Ha Hf].
    destruct (supplement_from_file_appends main_path f st comp) as [Ha' Hf'].
    split; by etrans.
  - unfold supplement_annotations_from_files.
    generalize (main_path_of st) as main_path. intros main_path.
    revert st. induction files as [|f files IH]; intros st; [done|].
    cbn [foldl]. etrans; [apply (supplement_from_file_seen main_path f)|apply IH].
Qed.

End SupplementerExtras.

Section GeometryExtras.
Context `{Runtime}.
Import Parser Registry.

Lemma fmap_geometry_through {f : ComponentNode → ComponentNode}
    (heap heap' : list ComponentNode) :
  (∀ node, geometry_info (f node) = geometry_info node) →
  f <$> heap = f <$> heap' →
  geometry_info <$> heap = geometry_info <$> heap'.
Proof.
  intros Hf Heq.
  assert (∀ h : list ComponentNode,
            geometry_info <$> h = geometry_info <$> (f <$> h)) as Hthrough.
  { intros h. rewrite <- list_fmap_compose. apply list_fmap_ext. intros _ node _.
    cbn. by rewrite Hf. }
  by rewrite (Hthrough heap), (Hthrough heap'), Heq.
Qed.

(** X9. After a successful run of a fresh parser a component has
    measurements only if it is the root of the tree, root geometry was
    asked for, the root is not the virtual one, its source file exists,
    and the geometry service measured that file: the measurements are the
    ones the service returned. No other component is ever measured. *)
Theorem geometry_only_on_the_measured_root st0 st comp node g :
  fresh st0 → parse_batch st0 = (true, st) →
  heap st !! comp = Some node → geometry_info node = Some g →
  assembly_tree st = Some comp ∧
  extract_root_geometry st0 = true ∧
  source_file node ≠ str "virtual" ∧
  path_exists (source_file node) = true ∧
  measure_geometry (source_file node) = Some g.
Proof.
  intros Hfresh Hrun Hnode Hg.
  destruct (parse_batch_true st0 st Hrun)
    as (main_path & st1 & _ & _ & _ & Hmain & ->).
  set (st2 := supplement_annotations_from_files (find_step_files st0) st1) in *.
  set (st3 := build_assembly_tree st2) in *.
  destruct (process_main_assembly_registered main_path st0 st1 Hfresh Hmain)
    as (Hreg1 & _ & _ & _ & _ & _ & Hflag1).
  destruct (process_main_assembly_heap main_path st0 st1 Hfresh Hmain)
    as (_ & Hheap1 & _).
  destruct (supplement_annotations_from_files_frame (find_step_files st0) st1)
    as (Hsk & _ & _ & _ & _ & _ & _ & Hflag2).
  assert (registered st2) as Hreg2
    by (by apply supplement_annotations_from_files_registered).
  destruct (build_assembly_tree_links st2 Hreg2)
    as (root & extra & Hroot & Hunl & Hextra & _).
  destruct (build_assembly_tree_frame st2) as (_ & _ & _ & _ & _ & _ & Hflag3).
  fold st3 in Hroot, Hunl, Hflag3.
  (* before the geometry step nothing is measured *)
  assert (∀ c n, heap st3 !! c = Some n → geometry_info n = None) as Hnone.
  { assert (Forall (λ x, x = None) (geometry_info <$> heap st1)) as H1.
    { rewrite Hheap1. apply Forall_fmap, Forall_forall. intros n Hn.
      apply list_elem_of_lookup in Hn as (i & Hi).
      rewrite list_lookup_imap in Hi.
      destruct (_ !! i) as [product|]; [|done]. by injection Hi as <-. }
    assert (geometry_info <$> heap st2 = geometry_info <$> heap st1) as H2
      by (by apply (fmap_geometry_through (f := skeleton))).
    assert (geometry_info <$> heap st3
            = (geometry_info <$> heap st2) ++ (geometry_info <$> extra)) as H3.
    { assert (∀ h : list ComponentNode,
                geometry_info <$> h = geometry_info <$> (unlink <$> h)) as Hu.
      { intros h. rewrite <- list_fmap_compose. by apply list_fmap_ext. }
      by rewrite Hu, Hunl, fmap_app, <- Hu. }
    assert (Forall (λ x, x = None) (geometry_info <$> heap st3)) as Hall.
    { rewrite H3, H2. apply Forall_app. split; [done|].
      destruct (filter _ _); destruct Hextra as [_ ->]; by repeat constructor. }
    intros c n Hc. rewrite Forall_fmap, Forall_forall in Hall.
    apply Hall. by eapply list_elem_of_lookup_2. }
  unfold root_geometry in Hnode. rewrite Hroot in Hnode.
  assert (extract_root_geometry st3 = extract_root_geometry st0) as Hflag
    by (etrans; [exact Hflag3|]; etrans; [exact Hflag2|exact Hflag1]).
  rewrite Hflag in Hnode.
  destruct (extract_root_geometry st0); cbn [andb] in Hnode;
    [|by rewrite (Hnone _ _ Hnode) in Hg].
  destruct (heap st3 !! root) as [tree|] eqn:Htree; cbn [fmap option_fmap option_map default] in Hnode.
  2: { case_bool_decide; cbn [negb] in Hnode.
       - by rewrite (Hnone _ _ Hnode) in Hg.
       - cbn [heap with_heap] in Hnode. unfold extract_geometry_info_for_component in Hnode.
         rewrite Htree in Hnode. by rewrite (Hnone _ _ Hnode) in Hg. }
  case_bool_decide as Hvirtual; cbn [negb] in Hnode;
    [by rewrite (Hnone _ _ Hnode) in Hg|].
  cbn [heap with_heap] in Hnode. unfold extract_geometry_info_for_component in Hnode.
  rewrite Htree in Hnode.
  destruct (path_exists (source_file tree)) eqn:Hexists; cbn [negb orb] in Hnode;
    [|by rewrite (Hnone _ _ Hnode) in Hg].
  rewrite bool_decide_eq_false_2 in Hnode by done.
  destruct (measure_geometry (source_file tree)) as [g'|] eqn:Hmeasure;
    [|by rewrite (Hnone _ _ Hnode) in Hg].
  destruct (decide (comp = root)) as [->|Hne].
  - rewrite list_lookup_alter_eq, Htree in Hnode. injection Hnode as <-.
    cbn [geometry_info set_geometry_info source_file] in *.
    unfold root_geometry. rewrite Hroot.
    assert (assembly_tree
              (if extract_root_geometry st3
                  && negb (bool_decide (default [] (source_file <$> heap st3 !! root)
                                        = str "virtual"))
               then with_heap (extract_geometry_info_for_component root (heap st3)) st3
               else st3) = Some root) as ->.
    { by destruct (_ && _). }
    split; [done|]. split; [done|]. split; [done|]. split; [done|]. congruence.
  - rewrite list_lookup_alter_ne in Hnode by done.
    by rewrite (Hnone _ _ Hnode) in Hg.
Qed.

End GeometryExtras.

(* ====================================================================== *)
(** * Further properties of batch_aas_from_stp.py *)
(* ====================================================================== *)

Section LedgerFacts.
Context `{Runtime}.
Import Parser Allocator Serializer Ledger.

Lemma allocated_nil used_ids : allocated used_ids used_ids [].
Proof.
  split; [constructor|]. split; [by intros ? ?%elem_of_nil|].
  split; [done|]. split; [by intros ? ?%elem_of_nil|]. by left.
Qed.

Lemma allocated_app used_ids used_ids1 used_ids2 ids1 ids2 :
  allocated used_ids used_ids1 ids1 → allocated used_ids1 used_ids2 ids2 →
  allocated used_ids used_ids2 (ids1 ++ ids2).
Proof.
  intros (Hnd1 & Hnew1 & Hkeep1 & Hin1 & Hout1) (Hnd2 & Hnew2 & Hkeep2 & Hin2 & Hout2).
  split; [|split; [|split; [|split]]].
  - rewrite filter_app. apply NoDup_app. split; [done|]. split; [|done].
    intros id [Hres Hid]%list_elem_of_filter [_ Hid']%list_elem_of_filter.
    by apply (Hnew2 id Hid' Hres), Hin1.
  - intros id [Hid|Hid]%elem_of_app Hres; [by apply Hnew1|].
    intros Hused. by apply (Hnew2 id Hid Hres), Hkeep1.
  - intros id Hid. by apply Hkeep2, Hkeep1.
  - intros id [Hid|Hid]%elem_of_app Hres; [by apply Hkeep2, Hin1|by apply Hin2].
  - intros id [Hid|Hid]%Hout2.
    + destruct (Hout1 id Hid) as [?|?]; [by left|]. right. apply elem_of_app. by left.
    + right. apply elem_of_app. by right.
Qed.

Lemma get_unique_id_allocated base_id context_suffix used_ids id used_ids' :
  get_unique_id base_id context_suffix used_ids = Ok (id, used_ids') →
  allocated used_ids used_ids' [id].
Proof.
  intros Hget. pose proof (get_unique_id_by_kind _ _ _ _ _ Hget) as Hkind.
  unfold reserved_request in Hkind.
  destruct (sanitized base_id) as [l| |] eqn:Hl.
  - case_bool_decide as Hres.
    + destruct Hkind as [[= ->] ->].
      split; [|split; [|split; [|split]]].
      * rewrite filter_cons, decide_False by (by intros ?). constructor.
      * by intros id' ->%list_elem_of_singleton.
      * done.
      * by intros id' ->%list_elem_of_singleton.
      * by left.
    + destruct Hkind as [Hnew ->].
      split; [|split; [|split; [|split]]].
      * rewrite filter_cons. case_decide; repeat constructor. by intros ?%elem_of_nil.
      * by intros id' ->%list_elem_of_singleton.
      * intros id' ?. set_solver.
      * intros id' ->%list_elem_of_singleton. set_solver.
      * intros id' [->%elem_of_singleton|?]%elem_of_union; [right; by left|by left].
  - unfold get_unique_id in Hget. by rewrite Hl in Hget.
  - unfold get_unique_id in Hget. by rewrite Hl in Hget.
Qed.

Lemma ret_Ok {A} (a : A) used_ids r :
  (mret a : M A) used_ids = Ok r → r = (a, used_ids).
Proof. unfold mret, M_ret. congruence. Qed.

Lemma create_property_allocated id_short used_ids e used_ids' :
  create_property id_short used_ids = Ok (e, used_ids') →
  allocated used_ids used_ids' (allocated_ids e).
Proof.
  unfold create_property. intros (id & used1 & Hget & Hret)%bind_Ok.
  apply ret_Ok in Hret. injection Hret as -> ->.
  by eapply get_unique_id_allocated.
Qed.

Lemma create_smc_allocated id_short value context_suffix used_ids e used_ids' :
  create_smc id_short value context_suffix used_ids = Ok (e, used_ids') →
  ∃ id, e = Collection id value ∧ allocated used_ids used_ids' [id].
Proof.
  unfold create_smc. intros (id & used1 & Hget & Hret)%bind_Ok.
  apply ret_Ok in Hret. injection Hret as -> ->.
  exists id. split; [done|]. by eapply get_unique_id_allocated.
Qed.

Lemma mapM_allocated {A} (f : A → M Element) (l : list A) :
  (∀ x used_ids e used_ids', x ∈ l →
     f x used_ids = Ok (e, used_ids') → allocated used_ids used_ids' (allocated_ids e)) →
  ∀ used_ids es used_ids',
    mapM f l used_ids = Ok (es, used_ids') →
    length es = length l ∧
    allocated used_ids used_ids' (flat_map allocated_ids es).
Proof.
  induction l as [|x l IH]; intros Hf used_ids es used_ids' Hmap.
  - apply ret_Ok in Hmap. injection Hmap as -> ->. split; [done|apply allocated_nil].
  - cbn [mapM] in Hmap. apply bind_Ok in Hmap as (e & used1 & He & Hmap).
    apply bind_Ok in Hmap as (es' & used2 & Hes & Hret).
    apply ret_Ok in Hret. injection Hret as -> ->.
    assert (∀ y u e' u', y ∈ l → f y u = Ok (e', u') →
              allocated u u' (allocated_ids e')) as Hf'.
    { intros y u e' u' Hy. apply Hf. by right. }
    destruct (IH Hf' used1 es' used2 Hes) as [Hlen Hall].
    split; [cbn; by rewrite Hlen|].
    cbn [flat_map]. eapply allocated_app; [|done].
    apply (Hf x); [by left|done].
Qed.

(** An optional element made by one call of [create_property]. *)
Lemma optional_property_allocated (b : bool) id_short used_ids es used_ids' :
  (if b then (p ← create_property id_short ; mret [p]) else mret []) used_ids
    = Ok (es, used_ids') →
  allocated used_ids used_ids' (flat_map allocated_ids es).
Proof.
  destruct b.
  - intros (p & used1 & Hp & Hret)%bind_Ok. apply ret_Ok in Hret.
    injection Hret as -> ->. cbn [flat_map]. rewrite app_nil_r.
    by eapply create_property_allocated.
  - intros Hret%ret_Ok. injection Hret as -> ->. apply allocated_nil.
Qed.

Lemma flat_map_allocated_ids_app (es es' : list Element) :
  flat_map allocated_ids (es ++ es') = flat_map allocated_ids es ++ flat_map allocated_ids es'.
Proof. apply flat_map_app. Qed.

Lemma geometry_elements_allocated geom used_ids e used_ids' :
  geometry_elements geom used_ids = Ok (e, used_ids') →
  allocated used_ids used_ids' (allocated_ids e).
Proof.
  unfold geometry_elements.
  intros (volume & u1 & Hvolume & Hrest)%bind_Ok.
  apply bind_Ok in Hrest as (surface & u2 & Hsurface & Hrest).
  apply bind_Ok in Hrest as (com & u3 & Hcom & Hrest).
  apply bind_Ok in Hrest as (com_smc & u4 & Hcom_smc & Hrest).
  apply bind_Ok in Hrest as (bmin & u5 & Hbmin & Hrest).
  apply bind_Ok in Hrest as (min_smc & u6 & Hmin_smc & Hrest).
  apply bind_Ok in Hrest as (bmax & u7 & Hbmax & Hrest).
  apply bind_Ok in Hrest as (max_smc & u8 & Hmax_smc & Hrest).
  apply bind_Ok in Hrest as (brange & u9 & Hbrange & Hrest).
  apply bind_Ok in Hrest as (range_smc & u10 & Hrange_smc & Hrest).
  apply bind_Ok in Hrest as (bbox_smc & u11 & Hbbox_smc & Hgeometry).
  apply optional_property_allocated in Hvolume, Hsurface.
  assert (∀ l u es u', mapM create_property l u = Ok (es, u') →
            allocated u u' (flat_map allocated_ids es)) as Hprops.
  { intros l u es u' Hmap. eapply mapM_allocated; [|done].
    intros x ? ? ? _. apply create_property_allocated. }
  apply Hprops in Hcom, Hbmin, Hbmax, Hbrange.
  apply create_smc_allocated in Hcom_smc as (id_com & -> & Hid_com).
  apply create_smc_allocated in Hmin_smc as (id_min & -> & Hid_min).
  apply create_smc_allocated in Hmax_smc as (id_max & -> & Hid_max).
  apply create_smc_allocated in Hrange_smc as (id_range & -> & Hid_range).
  apply create_smc_allocated in Hbbox_smc as (id_bbox & -> & Hid_bbox).
  apply create_smc_allocated in Hgeometry as (id_geometry & -> & Hid_geometry).
  cbn [allocated_ids]. rewrite !flat_map_allocated_ids_app.
  cbn [flat_map allocated_ids]. rewrite !app_nil_r.
  repeat (eapply allocated_app; [eassumption|]).
  rewrite <- !app_assoc.
  repeat (eapply allocated_app; [eassumption|]).
  eassumption.
Qed.

End LedgerFacts.

Section SerializedIdentifiers.
Context `{Runtime}.
Import Parser Allocator Serializer Ledger.

Lemma file_elements_not_allocated annotation_files :
  flat_map allocated_ids (file_elements annotation_files) = [].
Proof.
  unfold file_elements. generalize (seq 0 (length annotation_files)) as idxs.
  induction annotation_files as [|f fs IH]; intros [|idx idxs]; try done.
  cbn [zip zip_with omap list_omap]. destruct (path_exists f); cbn; apply IH.
Qed.

Lemma singleton_allocated (m : M Element) used_ids es used_ids' :
  (smc ← m ; mret [smc]) used_ids = Ok (es, used_ids') →
  ∃ smc, es = [smc] ∧ m used_ids = Ok (smc, used_ids').
Proof.
  intros (smc & used1 & Hm & Hret)%bind_Ok. apply ret_Ok in Hret.
  injection Hret as -> ->. by exists smc.
Qed.

Lemma create_component_elements_allocated standard_parts component level
    used_ids elements used_ids' :
  create_component_elements standard_parts component level used_ids
    = Ok (elements, used_ids') →
  allocated used_ids used_ids' (flat_map allocated_ids elements).
Proof.
  unfold create_component_elements.
  intros (e1 & u1 & He1 & Hrest)%bind_Ok.
  apply bind_Ok in Hrest as (e2 & u2 & He2 & Hrest).
  apply bind_Ok in Hrest as (e3 & u3 & He3 & Hrest).
  apply bind_Ok in Hrest as (e4 & u4 & He4 & Hrest).
  apply bind_Ok in Hrest as (standard & u5 & Hstandard & Hrest).
  apply bind_Ok in Hrest as (ann_elements & u6 & Hann & Hrest).
  apply bind_Ok in Hrest as (annotations_smc & u7 & Hannotations & Hrest).
  apply bind_Ok in Hrest as (files_smc & u8 & Hfiles & Hrest).
  apply bind_Ok in Hrest as (geometry & u9 & Hgeometry & Hret).
  apply ret_Ok in Hret. injection Hret as -> ->.
  apply create_property_allocated in He1, He2, He3, He4.
  apply optional_property_allocated in Hstandard.
  assert (allocated u5 u6 (flat_map allocated_ids ann_elements)) as Hann'.
  { eapply mapM_allocated; [|done]. intros x ? ? ? _. apply create_property_allocated. }
  assert (allocated u5 u7 (flat_map allocated_ids annotations_smc)) as Hannotations'.
  { destruct ann_elements as [|a l].
    - apply ret_Ok in Hannotations. injection Hannotations as -> ->. done.
    - apply singleton_allocated in Hannotations as (smc & -> & Hsmc).
      apply create_smc_allocated in Hsmc as (id & -> & Hid).
      cbn [flat_map allocated_ids]. rewrite app_nil_r.
      by eapply allocated_app. }
  assert (allocated u7 u8 (flat_map allocated_ids files_smc)) as Hfiles'.
  { pose proof (file_elements_not_allocated (annotation_files component)) as Hnone.
    destruct (file_elements (annotation_files component)) as [|f fs].
    - apply ret_Ok in Hfiles. injection Hfiles as -> ->. apply allocated_nil.
    - apply singleton_allocated in Hfiles as (smc & -> & Hsmc).
      apply create_smc_allocated in Hsmc as (id & -> & Hid).
      cbn [flat_map allocated_ids]. cbn [flat_map] in Hnone.
      by rewrite Hnone, app_nil_r. }
  assert (allocated u8 u9 (flat_map allocated_ids geometry)) as Hgeometry'.
  { destruct level as [|level], (geometry_info component) as [geom|].
    2-4: apply ret_Ok in Hgeometry; injection Hgeometry as -> ->; apply allocated_nil.
    apply singleton_allocated in Hgeometry as (smc & -> & Hsmc).
    apply geometry_elements_allocated in Hsmc.
    cbn [flat_map]. by rewrite app_nil_r. }
  cbn [flat_map]. rewrite !flat_map_allocated_ids_app.
  repeat (eapply allocated_app; [eassumption|]).
  eassumption.
Qed.

Lemma create_component_smc_allocated depth st :
  ∀ comp level used_ids e used_ids',
    create_component_smc depth st comp level used_ids = Ok (e, used_ids') →
    allocated used_ids used_ids' (allocated_ids e).
Proof.
  induction depth as [|depth IH]; intros comp level used_ids e used_ids' Hsmc; [done|].
  cbn [create_component_smc] in Hsmc.
  destruct (heap st !! comp) as [component|]; [|done].
  apply bind_Ok in Hsmc as (elements & u1 & Helements & Hrest).
  apply bind_Ok in Hrest as (children_smc & u2 & Hchildren & Hrest).
  apply bind_Ok in Hrest as (unique_name & u3 & Hname & Hret).
  apply ret_Ok in Hret. injection Hret as -> ->.
  apply create_component_elements_allocated in Helements.
  apply get_unique_id_allocated in Hname.
  assert (allocated u1 u2 (flat_map allocated_ids children_smc)) as Hchildren'.
  { destruct (children component) as [|c cs].
    - apply ret_Ok in Hchildren. injection Hchildren as -> ->. apply allocated_nil.
    - apply bind_Ok in Hchildren as (child_elements & u & Hmap & Hrest).
      apply singleton_allocated in Hrest as (smc & -> & Hsmc).
      apply create_smc_allocated in Hsmc as (id & -> & Hid).
      cbn [flat_map allocated_ids]. rewrite app_nil_r.
      eapply allocated_app; [|done].
      eapply mapM_allocated; [|done]. intros x ? ? ? _. apply IH. }
  cbn [allocated_ids]. rewrite flat_map_allocated_ids_app, <- app_assoc.
  eapply allocated_app; [done|]. by eapply allocated_app.
Qed.

Lemma create_assembly_submodel_allocated depth st used_ids e used_ids' :
  create_assembly_submodel depth st used_ids = Ok (Some e, used_ids') →
  allocated used_ids used_ids' (allocated_ids e).
Proof.
  unfold create_assembly_submodel.
  destruct (assembly_tree st) as [root|]; [|by intros ?%ret_Ok].
  destruct (heap st !! root) as [tree|]; [|done].
  intros (root_elements & u1 & Hroot & Hrest)%bind_Ok.
  apply bind_Ok in Hrest as (main_info & u2 & Hinfo & Hrest).
  apply bind_Ok in Hrest as (children_smc & u3 & Hchildren & Hrest).
  apply bind_Ok in Hrest as (main_assembly_smc & u4 & Hmain & Hret).
  apply ret_Ok in Hret. injection Hret as -> ->.
  apply create_component_elements_allocated in Hroot.
  apply create_smc_allocated in Hmain as (id & -> & Hid).
  assert (allocated u1 u2 (flat_map allocated_ids main_info)) as Hinfo'.
  { destruct (processed_files st).
    - apply ret_Ok in Hinfo. injection Hinfo as -> ->. apply allocated_nil.
    - apply bind_Ok in Hinfo as (n & v1 & Hn & Hinfo).
      apply bind_Ok in Hinfo as (a & v2 & Ha & Hinfo).
      apply bind_Ok in Hinfo as (o & v3 & Ho & Hret).
      apply ret_Ok in Hret. injection Hret as -> ->.
      apply create_property_allocated in Hn.
      assert (allocated v1 v2 (flat_map allocated_ids a)) as Ha'.
      { destruct (fi_author (file_info tree)).
        - apply ret_Ok in Ha. injection Ha as -> ->. apply allocated_nil.
        - by apply (optional_property_allocated true) in Ha. }
      assert (allocated v2 v3 (flat_map allocated_ids o)) as Ho'.
      { destruct (fi_organization (file_info tree)).
        - apply ret_Ok in Ho. injection Ho as -> ->. apply allocated_nil.
        - by apply (optional_property_allocated true) in Ho. }
      cbn [flat_map]. rewrite flat_map_allocated_ids_app.
      eapply allocated_app; [done|]. by eapply allocated_app. }
  assert (allocated u2 u3 (flat_map allocated_ids children_smc)) as Hchildren'.
  { destruct (children tree) as [|c cs].
    - apply ret_Ok in Hchildren. injection Hchildren as -> ->. apply allocated_nil.
    - apply bind_Ok in Hchildren as (child_elements & u & Hmap & Hrest).
      apply singleton_allocated in Hrest as (smc & -> & Hsmc).
      apply create_smc_allocated in Hsmc as (id' & -> & Hid').
      cbn [flat_map allocated_ids]. rewrite app_nil_r.
      eapply allocated_app; [|done].
      eapply mapM_allocated; [|done]. intros x ? ? ? _.
      apply create_component_smc_allocated. }
  cbn [allocated_ids]. rewrite !flat_map_allocated_ids_app, <- !app_assoc.
  eapply allocated_app; [done|]. eapply allocated_app; [done|].
  by eapply allocated_app.
Qed.

(** X10. In the submodel [create_assembly_submodel] returns, the
    identifiers the allocator handed out that are not reserved labels are
    pairwise distinct over the whole tree of elements, whatever the depth,
    and none of them was in the ledger before; the ledger afterwards holds
    all it held before and every such identifier, and nothing that is not
    an identifier of the submodel. Reserved labels repeat. *)
Theorem submodel_identifiers_are_distinct depth st used_ids e used_ids' :
  create_assembly_submodel depth st used_ids = Ok (Some e, used_ids') →
  NoDup (filter (λ id, id ∉ common_props) (allocated_ids e)) ∧
  (∀ id, id ∈ allocated_ids e → id ∉ common_props → id ∉ used_ids ∧ id ∈ used_ids') ∧
  used_ids ⊆ used_ids' ∧
  (∀ id, id ∈ used_ids' → id ∈ used_ids ∨ id ∈ allocated_ids e).
Proof.
  intros (Hnd & Hnew & Hkeep & Hin & Hout)%create_assembly_submodel_allocated.
  split; [done|]. split; [|split; [done|done]].
  intros id Hid Hres. split; [by apply Hnew|by apply Hin].
Qed.

End SerializedIdentifiers.

Section AllocatorTotal.
Context `{Runtime}.
Import Parser Allocator Serializer Ledger.

Lemma sanitized_not_empty base_id l : sanitized base_id = Ok l → l ≠ [].
Proof.
  intros (clean_id & Hclean & ->)%sanitized_inv.
  destruct clean_id; [done|]. by eapply check_id_short_not_empty.
Qed.

Lemma get_unique_id_returns base_id context_suffix used_ids :
  base_id ≠ [] →
  ∃ id used_ids',
    get_unique_id base_id context_suffix used_ids = Ok (id, used_ids') ∧ id ≠ [].
Proof.
  destruct base_id as [|c s]; [done|]. intros _.
  destruct (sanitized_nonempty c s) as [l Hl].
  pose proof (sanitized_not_empty _ _ Hl) as Hne.
  destruct (decide (l ∈ common_props)) as [Hres|Hres].
  - exists l, used_ids. split; [by apply get_unique_id_reserved|done].
  - destruct (get_unique_id_fresh _ context_suffix used_ids _ Hl Hres)
      as (id & Hget & _ & _ & _ & _ & Hshape).
    exists id, ({[id]} ∪ used_ids). split; [done|].
    destruct Hshape as [->|[Hretry|[n ->]]]; [done| |].
    + unfold retry_candidate in Hretry.
      destruct context_suffix as [[|c' r]|]; [done| |done].
      destruct (check_id_short (c' :: r)); [|done..].
      injection Hretry as <-. by destruct l.
    + unfold numbered. by destruct l.
Qed.

(** X11. For every label that is not empty, every context token and every
    ledger, the allocator returns: it raises nothing, and the loop over the
    numeric suffixes ends. The identifier is not empty and holds ASCII
    letters, digits and underscores only; the ledger is either unchanged or
    gains the identifier, which was not in it. *)
Theorem get_unique_id_returns_safe_identifier base_id context_suffix used_ids :
  base_id ≠ [] →
  ∃ id used_ids',
    get_unique_id base_id context_suffix used_ids = Ok (id, used_ids') ∧
    id ≠ [] ∧
    Forall (λ c, ascii_letter c || ascii_digit c || bool_decide (c = 95%N) = true) id ∧
    (used_ids' = used_ids ∨ id ∉ used_ids ∧ used_ids' = {[id]} ∪ used_ids).
Proof.
  intros Hne.
  destruct (get_unique_id_returns base_id context_suffix used_ids Hne)
    as (id & used_ids' & Hget & Hid).
  exists id, used_ids'. split; [done|]. split; [done|]. split.
  - pose proof (get_unique_id_id_char _ _ _ _ _ Hget) as Hsafe.
    eapply Forall_impl; [exact Hsafe|]. intros c Hc. exact Hc.
  - pose proof (get_unique_id_by_kind _ _ _ _ _ Hget) as Hkind.
    destruct (reserved_request base_id); [left; tauto|right; tauto].
Qed.

End AllocatorTotal.

Section ComponentElements.
Context `{Runtime}.
Import Parser Allocator Serializer Ledger.

Lemma ret_returns {A} (a : A) used_ids : is_ok ((mret a : M A) used_ids) = true.
Proof. done. Qed.











End ComponentElements.

Section SerializerReturns.
Context `{Runtime}.
Import Parser Allocator Serializer Ledger.



End SerializerReturns.

Section FileElements.
Context `{Runtime}.
Import Parser Allocator Serializer.

Lemma file_elements_from start (annotation_files : list pystr) :
  let elements :=
    omap (λ '(idx, filename),
            if path_exists filename
            then Some (File (str "AnnotationFile_" ++ decimal idx)) else None)
         (zip (seq start (length annotation_files)) annotation_files) in
  NoDup elements ∧
  ∀ e, e ∈ elements ↔
       ∃ idx filename,
         annotation_files !! idx = Some filename ∧ path_exists filename = true ∧
         e = File (str "AnnotationFile_" ++ decimal (start + idx)).
Proof.
  revert start. induction annotation_files as [|f fs IH]; intros start.
  - cbn. split; [constructor|]. intros e. rewrite elem_of_nil. naive_solver.
  - cbn [length seq zip zip_with omap list_omap].
    destruct (IH (S start)) as [Hnd Hin]. cbn zeta in Hnd, Hin.
    assert (∀ e, (∃ idx filename,
                    (f :: fs) !! idx = Some filename ∧ path_exists filename = true ∧
                    e = File (str "AnnotationFile_" ++ decimal (start + idx)))
                 ↔ (path_exists f = true ∧
                    e = File (str "AnnotationFile_" ++ decimal start))
                   ∨ ∃ idx filename,
                       fs !! idx = Some filename ∧ path_exists filename = true ∧
                       e = File (str "AnnotationFile_" ++ decimal (S start + idx)))
      as Hsplit.
    { intros e. split.
      - intros ([|idx] & filename & Hlookup & Hex & ->).
        + injection Hlookup as <-. left. by rewrite Nat.add_0_r.
        + right. exists idx, filename. by rewrite Nat.add_succ_r.
      - intros [[Hex ->]|(idx & filename & Hlookup & Hex & ->)].
        + exists 0, f. by rewrite Nat.add_0_r.
        + exists (S idx), filename. by rewrite Nat.add_succ_r. }
    destruct (path_exists f) eqn:Hf.
    + split.
      * apply NoDup_cons. split; [|done].
        intros (idx & filename & _ & _ & Heq)%Hin.
        injection Heq as Heq. apply decimal_inj in Heq. lia.
      * intros e. rewrite elem_of_cons, Hin, Hsplit. naive_solver.
    + split; [done|]. intros e. rewrite Hin, Hsplit. naive_solver.
Qed.

(** X14. The file elements of a component stand for the annotation files
    that exist, each under the identifier AnnotationFile_ followed by the
    position the file has among all annotation files of the component,
    missing ones counted: no two file elements of a component have one
    identifier, and a missing file leaves a gap in the numbers. *)
Theorem file_elements_are_numbered_by_position (annotation_files : list pystr) :
  NoDup (file_elements annotation_files) ∧
  ∀ e, e ∈ file_elements annotation_files ↔
       ∃ idx filename,
         annotation_files !! idx = Some filename ∧ path_exists filename = true ∧
         e = File (str "AnnotationFile_" ++ decimal idx).
Proof. apply (file_elements_from 0). Qed.

End FileElements.

(* ====================================================================== *)
(** * Properties of base/create_ent.py and base/eClass.py *)
(* ====================================================================== *)

Section Descriptions.
Import Entities.

Lemma chunks_concat (n : nat) :
  ∀ m (s : pystr),
    length s ≤ m * n →
    concat ((λ i, slice i (i + n) s) <$> ((λ k, k * n) <$> seq 0 m)) = s.
Proof.
  induction m as [|m IH]; intros s Hlen.
  - destruct s; [done|]. cbn in Hlen. lia.
  - transitivity (take n s ++ drop n s); [|apply take_drop].
    rewrite <- (IH (drop n s)) by (rewrite length_drop; lia).
    cbn [seq fmap list_fmap concat]. f_equal.
    + unfold slice. cbn [Nat.mul]. by rewrite Nat.add_0_l, Nat.sub_0_r, drop_0.
    + f_equal. rewrite <- fmap_S_seq, <- !list_fmap_compose.
      apply list_fmap_ext. intros _ k _. cbn [compose].
      unfold slice. rewrite drop_drop. cbn [Nat.mul]. f_equal. lia.
Qed.

Lemma chunks_lengths (n : nat) (s : pystr) :
  0 < n →
  Forall (λ p : pystr, 0 < length p ≤ n)
         ((λ i, slice i (i + n) s) <$> range_step (length s) n).
Proof.
  intros Hn. unfold range_step. rewrite <- list_fmap_compose.
  apply Forall_fmap, Forall_forall. intros k Hk%elem_of_seq. cbn.
  unfold slice. rewrite length_take, length_drop.
  assert (k * n < length s); [|lia].
  destruct Hk as [_ Hk]. cbn in Hk.
  assert (k ≤ (length s + n - 1) / n - 1) as Hle by lia.
  assert (n * ((length s + n - 1) / n) ≤ length s + n - 1) as Hdiv
    by (apply Nat.Div0.mul_div_le).
  nia.
Qed.

Lemma length_join_space (parts : list pystr) :
  length (Parser.join_space parts) = length (concat parts) + (length parts - 1).
Proof.
  induction parts as [|p [|q parts] IH]; [done| |].
  - cbn. rewrite app_nil_r. lia.
  - change (Parser.join_space (p :: q :: parts))
      with (p ++ str " " ++ Parser.join_space (q :: parts)).
    rewrite !length_app, IH. cbn [concat length]. rewrite !length_app.
    change (length (str " ")) with 1. lia.
Qed.

(** X15. [create_description] returns nothing for a value that is no text
    and for a text of white space only. Any other text of at most 1023
    characters is returned as it is. A longer text is cut into pieces of
    1023 characters, the last one shorter or equal, none empty, which make
    up the text when put together; the result joins them with single
    spaces, so it is longer than the text by one less than the number of
    pieces, and longer than 1023 characters. *)
Theorem create_description_keeps_the_whole_text (description_text : option pystr) :
  match create_description description_text with
  | None =>
      description_text = None ∨ ∃ text, description_text = Some text ∧ strip text = []
  | Some result =>
      ∃ text parts,
        description_text = Some text ∧ strip text ≠ [] ∧
        result = Parser.join_space parts ∧
        concat parts = text ∧
        Forall (λ p : pystr, 0 < length p ≤ 1023) parts ∧
        (length text ≤ 1023 → result = text) ∧
        (1023 < length text → 1 < length parts) ∧
        length result = length text + (length parts - 1)
  end.
Proof.
  destruct description_text as [text|]; [|by left]. cbn [create_description].
  destruct (strip text) as [|c r] eqn:Hstrip; [right; by exists text|].
  assert (text ≠ []) as Hne by (by intros ->).
  case_bool_decide as Hlong.
  - set (parts := (λ i, slice i (i + max_length) text)
                    <$> range_step (length text) max_length).
    assert (concat parts = text) as Hconcat.
    { apply (chunks_concat max_length).
      assert (max_length * ((length text + max_length - 1) / max_length)
              ≤ length text + max_length - 1) as Hdiv
        by (apply Nat.Div0.mul_div_le).
      pose proof (Nat.div_mod_eq (length text + max_length - 1) max_length) as Hmod.
      pose proof (Nat.mod_upper_bound (length text + max_length - 1) max_length) as Hup.
      unfold max_length in *. lia. }
    exists text, parts. split; [done|]. split; [by rewrite Hstrip|]. split; [done|].
    split; [done|]. split; [apply (chunks_lengths max_length); unfold max_length; lia|].
    split; [unfold max_length in Hlong; lia|]. split.
    + intros _. unfold parts, range_step. rewrite !length_fmap, length_seq.
      assert (2 * max_length ≤ length text + max_length - 1) as H2 by lia.
      apply (Nat.Div0.div_le_mono _ _ max_length) in H2.
      rewrite Nat.div_mul in H2 by (unfold max_length; lia). lia.
    + by rewrite length_join_space, Hconcat.
  - exists text, [text]. split; [done|]. split; [by rewrite Hstrip|].
    split; [done|]. split; [cbn; by rewrite app_nil_r|].
    unfold max_length in Hlong. split; [|split; [done|split; [lia|cbn; lia]]].
    apply Forall_singleton. split; [|lia]. destruct text; [done|cbn; lia].
Qed.

End Descriptions.

Section SemanticIdentifiers.
Context `{Runtime}.
Variable levenshtein : pystr → pystr → nat.
Import EClass.

Lemma is_prefix_refl (s : pystr) : is_prefix s s = true.
Proof. induction s as [|c s IH]; [done|]. cbn. by rewrite bool_decide_eq_true_2. Qed.

Lemma contains_refl (s : pystr) : contains s s = true.
Proof. destruct s; cbn; [done|]. by rewrite bool_decide_eq_true_2, is_prefix_refl. Qed.

Lemma scan_classes_inl class_name pre row post index_similar_name :
  str_lower class_name = str_lower (PreferredName row) →
  (∀ r, r ∈ pre → str_lower class_name ≠ str_lower (PreferredName r)) →
  scan_classes class_name (pre ++ row :: post) index_similar_name = inl row.
Proof.
  intros Hrow. revert index_similar_name.
  induction pre as [|r pre IH]; intros index_similar_name Hpre.
  - cbn. by rewrite bool_decide_eq_true_2.
  - cbn [app scan_classes]. rewrite bool_decide_eq_false_2 by (apply Hpre; by left).
    apply IH. intros r' Hr'. apply Hpre. by right.
Qed.

Lemma scan_classes_inr class_name classes index_similar_name :
  (∀ r, r ∈ classes → str_lower class_name ≠ str_lower (PreferredName r)) →
  scan_classes class_name classes index_similar_name
  = inr (index_similar_name
         ++ filter (λ r, contains (str_lower class_name) (str_lower (PreferredName r)) = true)
                   classes).
Proof.
  revert index_similar_name.
  induction classes as [|r classes IH]; intros index_similar_name Hno.
  - cbn. by rewrite app_nil_r.
  - cbn [scan_classes]. rewrite bool_decide_eq_false_2 by (apply Hno; by left).
    rewrite IH by (intros r' Hr'; apply Hno; by right).
    rewrite filter_cons. destruct (contains _ _) eqn:Hc.
    + rewrite decide_True by done. by rewrite <- app_assoc.
    + rewrite decide_False by done. done.
Qed.

Lemma argmin_from_best (distance : ClassRow → nat) l best :
  (∀ r, r ∈ l → distance best ≤ distance r) → argmin_from distance best l = best.
Proof.
  revert best. induction l as [|r l IH]; intros best Hmin; [done|].
  cbn [argmin_from]. rewrite bool_decide_eq_false_2.
  - apply IH. intros r' Hr'. apply Hmin. by right.
  - specialize (Hmin r ltac:(by left)). lia.
Qed.

Lemma argmin_from_later (distance : ClassRow → nat) pre row post best :
  distance row < distance best →
  (∀ r, r ∈ pre → distance row < distance r) →
  (∀ r, r ∈ post → distance row ≤ distance r) →
  argmin_from distance best (pre ++ row :: post) = row.
Proof.
  revert best. induction pre as [|r pre IH]; intros best Hbest Hpre Hpost.
  - cbn [app argmin_from]. rewrite bool_decide_eq_true_2 by done.
    by apply argmin_from_best.
  - cbn [app argmin_from]. apply IH; [|intros r' Hr'; apply Hpre; by right|done].
    case_bool_decide; [apply Hpre; by left|done].
Qed.

(** X16. [get_IrdiCC_descr] on a table of classes: a name that no
    preferred name contains, upper and lower case set aside, gets the
    identifier 0000 and the text that none was found; a name equal to a
    preferred name, case set aside, gets identifier, name and definition of
    the first such row of the table, whatever other rows contain it; any
    other name gets those of the row of least edit distance among the rows
    whose preferred name contains it, the first of them in table order
    when several are equally near. *)
Theorem get_IrdiCC_descr_picks_exact_then_nearest (classes : list ClassRow)
    (class_name : pystr) :
  let similar := λ r, contains (str_lower class_name) (str_lower (PreferredName r)) = true in
  let exact := λ r, str_lower class_name = str_lower (PreferredName r) in
  let distance := λ r, levenshtein class_name (PreferredName r) in
  let found := λ r, (IrdiCC r, Described (PreferredName r) (Definition_ r)) in
  ((∀ r, r ∈ classes → ¬ similar r) →
     get_IrdiCC_descr levenshtein classes class_name
     = (str "0000", NotFound (str "No semantic ID is found, please add it manually."))) ∧
  (∀ pre row post,
     classes = pre ++ row :: post → exact row → (∀ r, r ∈ pre → ¬ exact r) →
     get_IrdiCC_descr levenshtein classes class_name = found row) ∧
  (∀ pre row post,
     (∀ r, r ∈ classes → ¬ exact r) →
     filter similar classes = pre ++ row :: post →
     (∀ r, r ∈ pre → distance row < distance r) →
     (∀ r, r ∈ post → distance row ≤ distance r) →
     get_IrdiCC_descr levenshtein classes class_name = found row).
Proof.
  intros similar exact distance found. unfold get_IrdiCC_descr.
  split; [|split].
  - intros Hnone.
    rewrite scan_classes_inr.
    + cbn [app]. fold similar.
      assert (filter similar classes = []) as ->; [|done].
      apply elem_of_nil_inv. intros r [Hr Hin]%list_elem_of_filter. by apply (Hnone r).
    + intros r Hr Hex. apply (Hnone r Hr). unfold similar. rewrite Hex.
      apply contains_refl.
  - intros pre row post -> Hrow Hpre. by rewrite scan_classes_inl.
  - intros pre row post Hno Hsimilar Hpre Hpost.
    rewrite scan_classes_inr by done. cbn [app]. fold similar. rewrite Hsimilar.
    destruct pre as [|first pre]; cbn [app].
    + by rewrite argmin_from_best.
    + rewrite argmin_from_later; [done| |intros r Hr; apply Hpre; by right|done].
      apply Hpre. by left.
Qed.

End SemanticIdentifiers.

(* ====================================================================== *)
(** * Runs that meet the hypotheses of the further properties *)
(* ====================================================================== *)

Import Parser Allocator Serializer Ledger Examples MoreExamples.

(** X6, a run that meets the hypotheses: the second product of the primary
    document with the products A, B, C and D. *)
Lemma components_follow_the_product_table_witness :
  ∃ node,
    heap (registered_parser (only small_assembly)) !! 1 = Some node ∧
    Parser.product_id node = str "P00002" ∧ name node = str "B" ∧
    original_product_id node = str "2" ∧ source_file node = str "in/main.stp".
Proof.
  destruct (@components_follow_the_product_table (only small_assembly) main_path parser
              (registered_parser (only small_assembly))) as (_ & _ & Hnodes).
  - by repeat split.
  - by vm_compute.
  - destruct (Hnodes 1 (str "2") (mkProductInfo (str "B") [] (str "2")))
      as (_ & node & Hnode & Hid & Hname & Horig & Hsource & _); [by vm_compute|].
    exists node. split; [done|]. split; [exact Hid|]. split; [exact Hname|].
    split; [exact Horig|exact Hsource].
Defined.

(** X7, a run that meets the hypotheses: Motor Unit, the parent of two
    relationships, is an ASSEMBLY although its name holds a keyword of the
    standard parts. *)
Lemma component_types_follow_relationships_witness :
  node_type <$> heap (registered_parser (only drive_unit)) !! 0 = Some ASSEMBLY.
Proof.
  destruct (heap (registered_parser (only drive_unit)) !! 0) as [node|] eqn:Hnode;
    [|by vm_compute in Hnode].
  destruct (@component_types_follow_relationships (only drive_unit) main_path parser
              (registered_parser (only drive_unit)) ltac:(by repeat split) eq_refl
              ltac:(by vm_compute) 0 (str "1") (mkProductInfo (str "Motor Unit") [] (str "1"))
              node ltac:(by vm_compute) Hnode) as ([_ Hassembly] & _).
  cbn. f_equal. apply Hassembly.
  exists (mkRelationship (str "1") (str "2") (str "Motor Unit") (str "M6 Screw")).
  split; [|done].
  assert (assembly_relationships (registered_parser (only drive_unit))
          = [mkRelationship (str "1") (str "2") (str "Motor Unit") (str "M6 Screw");
             mkRelationship (str "1") (str "3") (str "Motor Unit") (str "Bracket")])
    as -> by (by vm_compute).
  by left.
Defined.

(** X9, a run that meets the hypotheses: the root A of the primary
    document, measured by a geometry service that measures every file. *)
Lemma geometry_only_on_the_measured_root_witness :
  assembly_tree (@parse_batch (measured small_assembly) parser).2 = Some 0 ∧
  @measure_geometry (measured small_assembly) (str "in/main.stp")
  = Some (mkGeometryInfo true true).
Proof.
  destruct (heap (@parse_batch (measured small_assembly) parser).2 !! 0)
    as [node|] eqn:Hnode; [|by vm_compute in Hnode].
  destruct (@geometry_only_on_the_measured_root (measured small_assembly) parser
              (@parse_batch (measured small_assembly) parser).2 0 node
              (mkGeometryInfo true true))
    as (Htree & _ & _ & _ & Hmeasure).
  - by repeat split.
  - by vm_compute.
  - done.
  - vm_compute in Hnode. injection Hnode as <-. done.
  - split; [exact Htree|done].
Defined.

(** X10, a run that meets the hypothesis: the submodel of the assembly
    with the products A, B, C and D. *)
Lemma submodel_identifiers_are_distinct_witness :
  ∃ e used_ids',
    @create_assembly_submodel (only small_assembly) depth (run (only small_assembly)) ∅
    = Ok (Some e, used_ids') ∧
    NoDup (filter (λ id, id ∉ common_props) (allocated_ids e)).
Proof.
  assert (∃ e used_ids',
            @create_assembly_submodel (only small_assembly) depth
              (run (only small_assembly)) ∅ = Ok (Some e, used_ids'))
    as (e & used_ids' & Hsubmodel).
  { eexists _, _. vm_compute. reflexivity. }
  exists e, used_ids'. split; [exact Hsubmodel|].
  exact (proj1 (@submodel_identifiers_are_distinct (only small_assembly) depth
                  (run (only small_assembly)) ∅ e used_ids' Hsubmodel)).
Defined.

(** X11, a call that meets the hypothesis. *)
Lemma get_unique_id_returns_safe_identifier_witness :
  ∃ id used_ids',
    @get_unique_id (Demo.runtime []) (str "M6 Screw") (Some (str "P00002")) ∅
    = Ok (id, used_ids') ∧ id ≠ [].
Proof.
  destruct (@get_unique_id_returns_safe_identifier (Demo.runtime []) (str "M6 Screw")
              (Some (str "P00002")) ∅) as (id & used_ids' & Hget & Hid & _); [done|].
  by exists id, used_ids'.
Defined.


